(** * bc-market-client: the item candlestick chart

    A shallow embedding of
    [src/app/components/item-candlestick-chart/item-candlestick-chart.component.ts]
    and of the data model in [src/app/models/candlestick-chart.model.ts],
    together with the properties of the scale computation, of the candle
    geometry and of the resize handling.

    Conventions of the embedding.

    - A JavaScript [number] is a value of [num]: a finite binary64 value,
      held as the rational it denotes in lowest terms, or one of [Infinity],
      [-Infinity], [NaN].  Every addition, subtraction, multiplication and
      division rounds its exact result to the nearest binary64 value, ties to
      even, with gradual underflow and with overflow to an infinity
      ([round64]); a decimal literal of the source is the binary64 value
      nearest to it ([lit]).  The special values follow IEEE 754 (division by
      zero, [Infinity - Infinity], [0 * Infinity], comparisons with [NaN]).
      The four operations are checked against the primitive binary64 floats
      of Rocq on a list of operands ([operations_agree_with_floats]).
      Zero carries no sign: [+0] and [-0] are the one value [Fin 0].  The
      sign of a zero shows in two places only: in the sign of the infinity
      that a division by zero returns, which no property below depends on,
      and in the rendering of [-0] by [toLocaleString].
    - The component is a record of its fields; each method is a function from
      the state before the call to the state after it.
    - A DOM element built through the renderer is the record of the style
      values and classes the method sets on it.  The elements appended to the
      chart container are exactly those tracked in [candlesticks] and
      [volumeBars], so these two lists are the published layout. *)

From Stdlib Require Import ZArith QArith Qround Qreduction Qcanon Qpower Qabs Lqa Lia.
From Stdlib Require Import List Bool String DecimalString.
From Stdlib Require Floats.
Import ListNotations.

(* ================================================================== *)
(** ** JavaScript numbers *)
(* ================================================================== *)

Module JSNum.

Inductive num : Type :=
| Fin (q : Q)
| PosInf
| NegInf
| NaN.

(** An integer literal. *)
Definition int (z : Z) : num := Fin (inject_Z z).

(** The sign of a rational, as a [comparison] with zero. *)
Definition Qsign (q : Q) : comparison := (q ?= 0)%Q.

(** *** Rounding to binary64 *)

(** [2^e] *)
Definition p2 (e : Z) : Q := (2 ^ e)%Q.

(** The binary exponent of a positive rational: [2^l <= x < 2^(l+1)]. *)
Definition ilog2 (x : Q) : Z :=
  let l := (Z.log2 (Qnum x) - Z.log2 (Zpos (Qden x)))%Z in
  if Qle_bool (p2 l) x then l else (l - 1)%Z.

(** The integer nearest to [x], the even one of the two when [x] is half
    way. *)
Definition rne (x : Q) : Z :=
  let f := Qfloor x in
  match (x - inject_Z f ?= 1 # 2)%Q with
  | Lt => f
  | Gt => (f + 1)%Z
  | Eq => if Z.even f then f else (f + 1)%Z
  end.

(** The exponent of the last place of the binary64 values around a positive
    [x]: 53 significant bits, and [2^-1074] for the subnormal values. *)
Definition expo (x : Q) : Z := Z.max (-1074) (ilog2 x - 52).

(** The multiple of [2^expo x] nearest to [x]. *)
Definition rounded (x : Q) : Q :=
  (inject_Z (rne (x / p2 (expo x))) * p2 (expo x))%Q.

(** A positive rational rounded to binary64: [Infinity] from [2^1024] on. *)
Definition round_pos (x : Q) : num :=
  if Qle_bool (p2 1024) (rounded x) then PosInf else Fin (Qred (rounded x)).

(** [-a] *)
Definition neg (a : num) : num :=
  match a with
  | Fin q => Fin (Qred (- q))
  | PosInf => NegInf
  | NegInf => PosInf
  | NaN => NaN
  end.

(** The binary64 value of an exact result: round to nearest, ties to
    even. *)
Definition round64 (x : Q) : num :=
  match (x ?= 0)%Q with
  | Eq => Fin 0
  | Gt => round_pos (Qred x)
  | Lt => neg (round_pos (Qred (- x)))
  end.

(** A decimal literal of the source, such as [0.1]. *)
Definition lit (q : Q) : num := round64 q.

(** *** The operations *)

(** [a + b] *)
Definition add (a b : num) : num :=
  match a, b with
  | NaN, _ | _, NaN => NaN
  | Fin x, Fin y => round64 (x + y)
  | PosInf, NegInf | NegInf, PosInf => NaN
  | PosInf, _ | _, PosInf => PosInf
  | NegInf, _ | _, NegInf => NegInf
  end.

(** [a - b] *)
Definition sub (a b : num) : num :=
  match a, b with
  | NaN, _ | _, NaN => NaN
  | Fin x, Fin y => round64 (x - y)
  | PosInf, PosInf | NegInf, NegInf => NaN
  | PosInf, _ | _, NegInf => PosInf
  | NegInf, _ | _, PosInf => NegInf
  end.

(** An infinity of the sign [s]; [Infinity * 0] is [NaN]. *)
Definition inf_of_sign (s : comparison) : num :=
  match s with
  | Gt => PosInf
  | Lt => NegInf
  | Eq => NaN
  end.

Definition sign_mul (s t : comparison) : comparison :=
  match s, t with
  | Eq, _ | _, Eq => Eq
  | Gt, Gt | Lt, Lt => Gt
  | Gt, Lt | Lt, Gt => Lt
  end.

(** [a * b] *)
Definition mul (a b : num) : num :=
  match a, b with
  | NaN, _ | _, NaN => NaN
  | Fin x, Fin y => round64 (x * y)
  | Fin x, PosInf | PosInf, Fin x => inf_of_sign (Qsign x)
  | Fin x, NegInf | NegInf, Fin x => inf_of_sign (sign_mul (Qsign x) Lt)
  | PosInf, PosInf | NegInf, NegInf => PosInf
  | PosInf, NegInf | NegInf, PosInf => NegInf
  end.

(** [a / b].  A finite number over zero is an infinity of the sign of the
    numerator, [0 / 0] is [NaN]. *)
Definition div (a b : num) : num :=
  match a, b with
  | NaN, _ | _, NaN => NaN
  | Fin x, Fin y =>
      match Qsign y with
      | Eq => inf_of_sign (Qsign x)
      | _ => round64 (x / y)
      end
  | Fin _, PosInf | Fin _, NegInf => Fin 0
  | PosInf, Fin y =>
      match Qsign y with Lt => NegInf | _ => PosInf end
  | NegInf, Fin y =>
      match Qsign y with Lt => PosInf | _ => NegInf end
  | _, _ => NaN
  end.
(** The comparison of two numbers; [None] when one of them is [NaN]. *)
Definition cmp (a b : num) : option comparison :=
  match a, b with
  | NaN, _ | _, NaN => None
  | Fin x, Fin y => Some (x ?= y)%Q
  | PosInf, PosInf | NegInf, NegInf => Some Eq
  | PosInf, _ | _, NegInf => Some Gt
  | NegInf, _ | _, PosInf => Some Lt
  end.

(** [a < b], [a <= b], [a > b], [a >= b], [a === b]: all false on [NaN]. *)
Definition ltb (a b : num) : bool :=
  match cmp a b with Some Lt => true | _ => false end.
Definition leb (a b : num) : bool :=
  match cmp a b with Some Lt | Some Eq => true | _ => false end.
Definition gtb (a b : num) : bool := ltb b a.
Definition geb (a b : num) : bool := leb b a.
Definition eqb (a b : num) : bool :=
  match cmp a b with Some Eq => true | _ => false end.

(** [Number.isFinite] *)
Definition isFinite (a : num) : bool :=
  match a with Fin _ => true | _ => false end.

(** [Math.floor], [Math.ceil], [Math.abs] *)
Definition floor (a : num) : num :=
  match a with
  | Fin q => Fin (inject_Z (Qfloor q))
  | _ => a
  end.

Definition ceil (a : num) : num :=
  match a with
  | Fin q => Fin (inject_Z (Qceiling q))
  | _ => a
  end.

Definition abs (a : num) : num :=
  match a with
  | Fin q => match Qsign q with Lt => Fin (Qred (- q)) | _ => a end
  | NegInf => PosInf
  | _ => a
  end.

(** [Math.min(a, b)] and [Math.max(a, b)]: [NaN] as soon as an argument is. *)
Definition min2 (a b : num) : num :=
  match cmp a b with
  | None => NaN
  | Some Gt => b
  | Some _ => a
  end.

Definition max2 (a b : num) : num :=
  match cmp a b with
  | None => NaN
  | Some Lt => b
  | Some _ => a
  end.

(** [Math.min(...xs)] and [Math.max(...xs)]; on no argument they are
    [Infinity] and [-Infinity]. *)
Definition min_list (xs : list num) : num := fold_left min2 xs PosInf.
Definition max_list (xs : list num) : num := fold_left max2 xs NegInf.

(** [a || b] on numbers: [a] unless it is falsy ([0] or [NaN]). *)
Definition or_else (a b : num) : num :=
  match a with
  | NaN => b
  | Fin q => match Qsign q with Eq => b | _ => a end
  | _ => a
  end.

(** The number of a natural (an array length, an index). *)
Definition of_nat (n : nat) : num := int (Z.of_nat n).

End JSNum.

Import JSNum.

Declare Scope num_scope.
Delimit Scope num_scope with num.
Bind Scope num_scope with num.
Infix "+" := add : num_scope.
Infix "-" := sub : num_scope.
Infix "*" := mul : num_scope.
Infix "/" := div : num_scope.
Infix "<?" := ltb : num_scope.
Infix "<=?" := leb : num_scope.
Infix ">?" := gtb : num_scope.
Infix ">=?" := geb : num_scope.
Infix "===" := eqb (at level 70, no associativity) : num_scope.

Open Scope string_scope.

(* ================================================================== *)
(** ** The data model ([candlestick-chart.model.ts]) *)
(* ================================================================== *)

(** A single candlestick data point. *)
Record CandlestickData : Type := {
  time : string;
  open : num;
  high : num;
  low : num;
  close : num;
  volume : num
}.

(** ['up' | 'down' | 'flat'] *)
Inductive Trend : Type := up | down | flat.

(** Market data for an item's price history. *)
Record MarketData : Type := {
  dataPoints : list CandlestickData;
  currentPrice : num;
  priceChange : num;
  trend : Trend;
  totalVolume : num;
  periodHigh : num;
  periodLow : num;
  activeListings : num;
  itemName : string;
  timePeriod : string
}.

(** Configuration of the chart. *)
Record ChartConfig : Type := {
  chartHeight : num;
  chartWidth : num;
  candleWidth : num;
  maxPrice : num;
  minPrice : num;
  yAxisLabels : list string;
  xAxisLabels : list string
}.

(* ================================================================== *)
(** ** The elements the component builds *)
(* ================================================================== *)

(** The class of a candle body: ['candle-green'] or ['candle-red']. *)
Inductive BodyClass : Type := candle_green | candle_red.

(** The [div.candlestick] of one data point: its [left] style, the [top]
    and [height] of its [div.candle-wick] child, the class, [top] and
    [height] of its [div.candle-body] child, and the data point its
    [mouseenter] listener hands to the tooltip.  Lengths are the numbers
    interpolated before the [px] suffix. *)
Record Candlestick : Type := {
  cs_left : num;
  wick_top : num;
  wick_height : num;
  body_class : BodyClass;
  body_top : num;
  body_height : num;
  cs_data : CandlestickData
}.

(** The [div.volume-bar] of one data point: its [left] and [height]. *)
Record VolumeBar : Type := {
  vb_left : num;
  vb_height : num
}.

(* ================================================================== *)
(** ** The component: fields *)
(* ================================================================== *)

Record Component : Type := {
  (** [@Input() marketData] *)
  marketData : option MarketData;
  (** whether [@ViewChild('chartContainer')] is resolved *)
  chartContainer : bool;
  chartConfig : ChartConfig;
  candlesticks : list Candlestick;
  volumeBars : list VolumeBar;
  initialized : bool;
  (** whether [resizeObserver] holds an observer (it is [null] otherwise) *)
  resizeObserver : bool
}.

Definition set_marketData (md : option MarketData) (c : Component) : Component :=
  {| marketData := md; chartContainer := chartContainer c;
     chartConfig := chartConfig c; candlesticks := candlesticks c;
     volumeBars := volumeBars c; initialized := initialized c;
     resizeObserver := resizeObserver c |}.

Definition set_chartContainer (b : bool) (c : Component) : Component :=
  {| marketData := marketData c; chartContainer := b;
     chartConfig := chartConfig c; candlesticks := candlesticks c;
     volumeBars := volumeBars c; initialized := initialized c;
     resizeObserver := resizeObserver c |}.

Definition set_chartConfig (cfg : ChartConfig) (c : Component) : Component :=
  {| marketData := marketData c; chartContainer := chartContainer c;
     chartConfig := cfg; candlesticks := candlesticks c;
     volumeBars := volumeBars c; initialized := initialized c;
     resizeObserver := resizeObserver c |}.

Definition set_elements (cs : list Candlestick) (vs : list VolumeBar)
    (c : Component) : Component :=
  {| marketData := marketData c; chartContainer := chartContainer c;
     chartConfig := chartConfig c; candlesticks := cs;
     volumeBars := vs; initialized := initialized c;
     resizeObserver := resizeObserver c |}.

Definition set_initialized (b : bool) (c : Component) : Component :=
  {| marketData := marketData c; chartContainer := chartContainer c;
     chartConfig := chartConfig c; candlesticks := candlesticks c;
     volumeBars := volumeBars c; initialized := b;
     resizeObserver := resizeObserver c |}.

Definition set_resizeObserver (b : bool) (c : Component) : Component :=
  {| marketData := marketData c; chartContainer := chartContainer c;
     chartConfig := chartConfig c; candlesticks := candlesticks c;
     volumeBars := volumeBars c; initialized := initialized c;
     resizeObserver := b |}.

(** [this.chartConfig.chartWidth = w] *)
Definition set_chartWidth (w : num) (cfg : ChartConfig) : ChartConfig :=
  {| chartHeight := chartHeight cfg; chartWidth := w;
     candleWidth := candleWidth cfg; maxPrice := maxPrice cfg;
     minPrice := minPrice cfg; yAxisLabels := yAxisLabels cfg;
     xAxisLabels := xAxisLabels cfg |}.

Definition set_minPrice (p : num) (cfg : ChartConfig) : ChartConfig :=
  {| chartHeight := chartHeight cfg; chartWidth := chartWidth cfg;
     candleWidth := candleWidth cfg; maxPrice := maxPrice cfg;
     minPrice := p; yAxisLabels := yAxisLabels cfg;
     xAxisLabels := xAxisLabels cfg |}.

Definition set_maxPrice (p : num) (cfg : ChartConfig) : ChartConfig :=
  {| chartHeight := chartHeight cfg; chartWidth := chartWidth cfg;
     candleWidth := candleWidth cfg; maxPrice := p;
     minPrice := minPrice cfg; yAxisLabels := yAxisLabels cfg;
     xAxisLabels := xAxisLabels cfg |}.

Definition set_yAxisLabels (ls : list string) (cfg : ChartConfig) : ChartConfig :=
  {| chartHeight := chartHeight cfg; chartWidth := chartWidth cfg;
     candleWidth := candleWidth cfg; maxPrice := maxPrice cfg;
     minPrice := minPrice cfg; yAxisLabels := ls;
     xAxisLabels := xAxisLabels cfg |}.

Definition set_xAxisLabels (ls : list string) (cfg : ChartConfig) : ChartConfig :=
  {| chartHeight := chartHeight cfg; chartWidth := chartWidth cfg;
     candleWidth := candleWidth cfg; maxPrice := maxPrice cfg;
     minPrice := minPrice cfg; yAxisLabels := yAxisLabels cfg;
     xAxisLabels := ls |}.

Definition mkPoint (t : string) (o h l c v : Z) : CandlestickData :=
  {| time := t; open := int o; high := int h; low := int l;
     close := int c; volume := int v |}.

(** Default sample data if no input is provided. *)
Definition sampleMarketData : MarketData := {|
  dataPoints := [
    mkPoint "6h ago" 1180 1220 1150 1200 45;
    mkPoint "5h ago" 1200 1250 1180 1230 67;
    mkPoint "4h ago" 1230 1280 1200 1210 89;
    mkPoint "3h ago" 1210 1240 950 980 156;
    mkPoint "2h ago" 980 1100 891 1050 234;
    mkPoint "1h ago" 1050 1200 1040 1180 178;
    mkPoint "Now" 1180 1389 1160 1247 98 ];
  currentPrice := int 1247;
  priceChange := lit (12 # 5);
  trend := up;
  totalVolume := int 1423;
  periodHigh := int 1389;
  periodLow := int 891;
  activeListings := int 47;
  itemName := "Dragon Sword";
  timePeriod := "Last 24 hours"
|}.

(** The initial value of the [chartConfig] field. *)
Definition initialChartConfig : ChartConfig := {|
  chartHeight := int 360;
  chartWidth := int 1040;
  candleWidth := int 20;
  maxPrice := int 1400;
  minPrice := int 800;
  yAxisLabels := ["1,400"; "1,300"; "1,200"; "1,100"; "1,000"; "900"; "800"];
  xAxisLabels := ["6h ago"; "5h ago"; "4h ago"; "3h ago"; "2h ago"; "1h ago"; "Now"]
|}.

(** The component as constructed, with the value bound to its input. *)
Definition newComponent (input : option MarketData) : Component := {|
  marketData := input;
  chartContainer := false;
  chartConfig := initialChartConfig;
  candlesticks := [];
  volumeBars := [];
  initialized := false;
  resizeObserver := false
|}.

(* ================================================================== *)
(** ** The component: methods *)
(* ================================================================== *)

Open Scope list_scope.
Open Scope num_scope.

(** [array.forEach((x, i) => ...)] over a state, left to right from index
    [i]. *)
Fixpoint forEach {A S : Type} (f : A -> nat -> S -> S) (xs : list A) (i : nat)
    (s : S) : S :=
  match xs with
  | [] => s
  | x :: rest => forEach f rest (Datatypes.S i) (f x i s)
  end.

(** The array [prices] that [initializeData] fills: for each point in turn
    its high, low, open and close. *)
Definition prices (points : list CandlestickData) : list num :=
  forEach (fun point _ acc => acc ++ [high point; low point; open point; close point])
          points 0%nat [].

(** The price to pixel expression of [createCandlestick] (the right-hand side
    of [openY], [closeY], [highY] and [lowY]):
    [chartHeight - ((price - minPrice) / priceRange * chartHeight) + 20]. *)
Definition toY (chartHeight minPrice priceRange price : num) : num :=
  chartHeight - ((price - minPrice) / priceRange * chartHeight) + int 20.

(** [this.marketData?.dataPoints.length || 1] *)
Definition pointCount (c : Component) : num :=
  match marketData c with
  | Some md => or_else (of_nat (List.length (dataPoints md))) (int 1)
  | None => int 1
  end.

(** The slot width of [createCandlestick]. *)
Definition spacing (c : Component) : num :=
  chartWidth (chartConfig c) / pointCount c.

(** Creates a candlestick element for a data point. *)
Definition createCandlestick (c : Component) (data : CandlestickData)
    (index : nat) : Candlestick * VolumeBar :=
  let cfg := chartConfig c in
  let priceRange := maxPrice cfg - minPrice cfg in
  let spacing := chartWidth cfg / pointCount c in
  let x := int 20 + (of_nat index * spacing) + (spacing - candleWidth cfg) / int 2 in
  let openY := toY (chartHeight cfg) (minPrice cfg) priceRange (open data) in
  let closeY := toY (chartHeight cfg) (minPrice cfg) priceRange (close data) in
  let highY := toY (chartHeight cfg) (minPrice cfg) priceRange (high data) in
  let lowY := toY (chartHeight cfg) (minPrice cfg) priceRange (low data) in
  let isGreen := close data >? open data in
  let bodyTop := min2 openY closeY in
  let bodyHeight := abs (closeY - openY) in
  ({| cs_left := x;
      wick_top := highY;
      wick_height := lowY - highY;
      body_class := if isGreen then candle_green else candle_red;
      body_top := bodyTop;
      body_height := max2 bodyHeight (int 2);
      cs_data := data |},
   {| vb_left := x;
      vb_height := volume data / int 250 * int 60 |}).

(** Clears the chart by removing all candlestick elements. *)
Definition clearChart (c : Component) : Component :=
  set_elements [] [] c.

(** Renders the candlestick chart.  Nothing in the model of the renderer
    throws, so the [catch] branch is never taken. *)
Definition renderChart (c : Component) : Component :=
  match marketData c with
  | None => c
  | Some md =>
      if negb (chartContainer c) || Nat.eqb (List.length (dataPoints md)) 0
      then c
      else
        forEach (fun data index s =>
                   let '(candlestick, volumeBar) := createCandlestick s data index in
                   set_elements (candlesticks s ++ [candlestick])
                                (volumeBars s ++ [volumeBar]) s)
                (dataPoints md) 0%nat (clearChart c)
  end.

Section Locale.

(** [Number.prototype.toLocaleString()]: the host's rendering of a number in
    its locale. *)
Variable toLocaleString : num -> string.

(** The values behind the y-axis labels:
    [Array.from({ length: 7 }, (_, i) => maxPrice - i * step)]. *)
Definition yAxisValues (maxPrice step : num) : list num :=
  map (fun i => maxPrice - of_nat i * step) (seq 0 7).

(** Initialize data with defaults if needed. *)
Definition initializeData (c : Component) : Component :=
  let c :=
    match marketData c with
    | None => set_marketData (Some sampleMarketData) c
    | Some _ => c
    end in
  match marketData c with
  | None => c
  | Some md =>
      if Nat.ltb 0 (List.length (dataPoints md)) then
        let prices := prices (dataPoints md) in
        let minDataPrice := min_list prices in
        let maxDataPrice := max_list prices in
        let padding := (maxDataPrice - minDataPrice) * lit (1 # 10) in
        let cfg := chartConfig c in
        let cfg := set_minPrice (floor ((minDataPrice - padding) / int 100) * int 100) cfg in
        let cfg := set_maxPrice (ceil ((maxDataPrice + padding) / int 100) * int 100) cfg in
        let range := maxPrice cfg - minPrice cfg in
        let step := range / int 6 in
        let cfg := set_yAxisLabels (map toLocaleString (yAxisValues (maxPrice cfg) step)) cfg in
        let cfg :=
          if negb (Nat.eqb (List.length (xAxisLabels cfg)) (List.length (dataPoints md)))
          then set_xAxisLabels (map time (dataPoints md)) cfg
          else cfg in
        set_chartConfig cfg c
      else c
  end.

(** The callback given to [new ResizeObserver]: one entry per observed
    change, each with its [contentRect.width]. *)
Definition resizeObserverCallback (entries : list num) (c : Component) : Component :=
  fold_left (fun s width =>
               if width >? int 0
               then renderChart (set_chartConfig
                                   (set_chartWidth (width - int 80) (chartConfig s)) s)
               else s)
            entries c.

(** Set up resize observer to handle container size changes;
    [hasResizeObserver] is [typeof ResizeObserver !== 'undefined']. *)
Definition setupResizeObserver (hasResizeObserver : bool) (c : Component) : Component :=
  if hasResizeObserver && chartContainer c
  then set_resizeObserver true c
  else c.

(** Updates the chart when the window is resized; [containerWidth] is the
    [clientWidth] of the container at that time. *)
Definition onResize (containerWidth : num) (c : Component) : Component :=
  if negb (resizeObserver c) && chartContainer c then
    if containerWidth >? int 0
    then renderChart (set_chartConfig
                        (set_chartWidth (containerWidth - int 80) (chartConfig c)) c)
    else c
  else c.

Definition ngOnInit (c : Component) : Component := initializeData c.

(** [changes['marketData']], when present, with its [firstChange]. *)
Definition ngOnChanges (marketDataChange : option bool) (c : Component) : Component :=
  match marketDataChange with
  | Some false =>
      let c := initializeData c in
      if initialized c then renderChart c else c
  | _ => c
  end.

Definition ngAfterViewInit (hasResizeObserver : bool) (c : Component) : Component :=
  let c := set_initialized true c in
  let c := renderChart c in
  setupResizeObserver hasResizeObserver c.

(** Clean up when the component is destroyed; [disconnect()] stops the
    observer's callbacks and leaves the field as it is. *)
Definition ngOnDestroy (c : Component) : Component := clearChart c.

(** The host binds a new value to the [marketData] input after the first
    change detection: the field is written, then [ngOnChanges] runs. *)
Definition setMarketData (md : option MarketData) (c : Component) : Component :=
  ngOnChanges (Some false) (set_marketData md c).

(** The component from construction to the end of [ngAfterViewInit], with
    the chart container in the view. *)
Definition mount (input : option MarketData) (hasResizeObserver : bool) : Component :=
  ngAfterViewInit hasResizeObserver
    (set_chartContainer true
       (ngOnInit (ngOnChanges (Some true) (newComponent input)))).

End Locale.

(** A plain rendering of numbers, used where a concrete locale is needed:
    integers in decimal, everything else by name. *)
Definition plainString (a : num) : string :=
  match a with
  | Fin q =>
      if Pos.eqb (Qden q) 1
      then NilZero.string_of_int (Z.to_int (Qnum q))
      else "fraction"
  | PosInf => "Infinity"
  | NegInf => "-Infinity"
  | NaN => "NaN"
  end.

(** The indexed map that [renderChart] computes when it runs: the element
    pairs of the points [xs], the first at index [i]. *)
Fixpoint elementsFrom (c : Component) (xs : list CandlestickData) (i : nat)
    : list (Candlestick * VolumeBar) :=
  match xs with
  | [] => []
  | x :: rest => createCandlestick c x i :: elementsFrom c rest (Datatypes.S i)
  end.

(** The price-dependent (vertical) part of a candlestick. *)
Definition vertical (k : Candlestick)
    : num * num * BodyClass * num * num :=
  (wick_top k, wick_height k, body_class k, body_top k, body_height k).

(** The four price fields of a point are finite numbers. *)
Definition finitePrices (d : CandlestickData) : bool :=
  isFinite (open d) && isFinite (high d) && isFinite (low d) && isFinite (close d).

(** The four price fields of a point. *)
Definition priceFields (d : CandlestickData) : list num :=
  [high d; low d; open d; close d].

(** A market data object around a list of points; the other fields play
    no part in the chart. *)
Definition marketDataOf (points : list CandlestickData) : MarketData := {|
  dataPoints := points;
  currentPrice := int 0;
  priceChange := int 0;
  trend := flat;
  totalVolume := int 0;
  periodHigh := int 0;
  periodLow := int 0;
  activeListings := int 0;
  itemName := "";
  timePeriod := ""
|}.

(** [double q]: the rational [q], as written, is a binary64 value: rounding
    returns it unchanged. *)
Definition double (q : Q) : Prop := round64 q = Fin q.

(** An integer of magnitude at most [2^40]. *)
Definition isWhole (a : num) : bool :=
  match a with
  | Fin q => Pos.eqb (Qden q) 1 && Z.leb (Z.abs (Qnum q)) (2 ^ 40)
  | _ => false
  end.

(** The four prices of a point are integers of magnitude at most [2^40]. *)
Definition wholePrices (d : CandlestickData) : bool :=
  forallb isWhole (priceFields d).

(** The number that a primitive float of Rocq (an IEEE 754 binary64 value)
    denotes. *)
Definition of_float (f : PrimFloat.float) : num :=
  match FloatOps.Prim2SF f with
  | SpecFloat.S754_zero _ => Fin 0
  | SpecFloat.S754_infinity false => PosInf
  | SpecFloat.S754_infinity true => NegInf
  | SpecFloat.S754_nan => NaN
  | SpecFloat.S754_finite s m e =>
      Fin (Qred ((if s then -1 else 1) * inject_Z (Zpos m) * p2 e))
  end.

(** The primitive float [m * 2^e], for [|m| < 2^53]. *)
Definition float_of (m e : Z) : PrimFloat.float :=
  let f := PrimFloat.ldshiftexp (PrimFloat.of_uint63 (Uint63.of_Z (Z.abs m)))
                                (Uint63.of_Z (e + FloatOps.shift)) in
  if Z.ltb m 0 then PrimFloat.opp f else f.

(** The primitive float of a number of the format: the numerator is cut
    down to 53 bits, the denominator is a power of two. *)
Definition to_float (a : num) : PrimFloat.float :=
  match a with
  | Fin q =>
      let e := Z.max 0 (Z.log2 (Z.abs (Qnum q)) - 52) in
      float_of (Qnum q / 2 ^ e) (e - Z.log2 (Zpos (Qden q)))
  | PosInf => PrimFloat.infinity
  | NegInf => PrimFloat.neg_infinity
  | NaN => PrimFloat.nan
  end.

(** The same number, written the same way. *)
Definition same (a b : num) : bool :=
  match a, b with
  | Fin x, Fin y => Z.eqb (Qnum x) (Qnum y) && Pos.eqb (Qden x) (Qden y)
  | PosInf, PosInf | NegInf, NegInf | NaN, NaN => true
  | _, _ => false
  end.

(** On the operands [a] and [b], which are numbers of the format, the four
    operations return what the primitive floats return. *)
Definition agrees (ab : num * num) : bool :=
  let (a, b) := ab in
  let x := to_float a in
  let y := to_float b in
  same (of_float x) a && same (of_float y) b
  && same (a + b) (of_float (PrimFloat.add x y))
  && same (a - b) (of_float (PrimFloat.sub x y))
  && same (a * b) (of_float (PrimFloat.mul x y))
  && same (a / b) (of_float (PrimFloat.div x y)).

(** Operands met in the component and at the edges of the format: 0.1 and
    0.2, prices and their divisors, the least positive number, the greatest
    finite number, halfway cases. *)
Definition operands : list (num * num) :=
  [ (lit (1 # 10), lit (2 # 10));
    (lit (33 # 10), lit (3 # 10));
    (lit (33 # 10) - lit (3 # 10), lit (1 # 10));
    (int 45, int 250);
    (int 45 / int 250, int 60);
    (int 1040, int 7);
    (int 1040 / int 7, int 3);
    (int 700, int 6);
    (int 700 / int 6, int 5);
    (int 1389 - int 891, lit (1 # 10));
    (int 137328147180369888, int 100);
    (int 1373281471803699, int 100);
    (int (10 ^ 18), int 6);
    (int (10 ^ 18 + 128), int (10 ^ 18));
    (int (2 ^ 53), int 1);
    (int (2 ^ 53), int 3);
    (int (- 2 ^ 53), int 5);
    (lit (inject_Z (85 * 10 ^ 306)), lit (inject_Z (- 102 * 10 ^ 306)));
    (lit (inject_Z (10 ^ 308)), lit (inject_Z (10 ^ 308)));
    (lit (inject_Z (10 ^ 308)), lit (1 # 10));
    (lit (p2 (-1074)), int 100);
    (lit (p2 (-1074)), int 2);
    (lit (3 * p2 (-1074)), int 2);
    (lit (p2 (-1022)), lit (9 # 10));
    (lit (p2 (-1022)), int 3);
    (lit (p2 1024 - p2 970), lit (p2 971));
    (lit (p2 1024 - p2 970), lit (1 + p2 (-52)));
    (lit (p2 1024 - p2 970), int 0);
    (int 0, int 0);
    (lit (123456789 # 1000), lit (1 # 1000));
    (lit (- 29 # 4), lit (1 # 100000)) ].

(** Series used as concrete inputs below. *)

(** No point at all. *)
Definition emptySeries : MarketData := marketDataOf [].

(** One point whose four prices are all 100 (a multiple of 100). *)
Definition flatSeries : MarketData :=
  marketDataOf [mkPoint "Now" 100 100 100 100 0].

(** One point whose four prices are all 150. *)
Definition flatSeries150 : MarketData :=
  marketDataOf [mkPoint "Now" 150 150 150 150 0].

(** One point whose low (200) is above its high (100). *)
Definition invertedSeries : MarketData :=
  marketDataOf [mkPoint "Now" 100 100 200 100 0].

(** Seven points, as many as the built-in sample, with other time labels. *)
Definition weekSeries : MarketData :=
  marketDataOf [
    mkPoint "Mon" 1180 1220 1150 1200 45;
    mkPoint "Tue" 1200 1250 1180 1230 67;
    mkPoint "Wed" 1230 1280 1200 1210 89;
    mkPoint "Thu" 1210 1240 950 980 156;
    mkPoint "Fri" 980 1100 891 1050 234;
    mkPoint "Sat" 1050 1200 1040 1180 178;
    mkPoint "Sun" 1180 1389 1160 1247 98 ].

(** Three points. *)
Definition threeSeries : MarketData :=
  marketDataOf [
    mkPoint "Mon" 1180 1220 1150 1200 45;
    mkPoint "Tue" 1200 1250 1180 1230 67;
    mkPoint "Wed" 1230 1280 1200 1210 89 ].

(** One point from 0.3 to 3.3, two prices that are not whole. *)
Definition fractionSeries : MarketData :=
  marketDataOf [{| time := "Now"; open := lit (3 # 10); high := lit (33 # 10);
                   low := lit (3 # 10); close := lit (33 # 10);
                   volume := int 0 |}].

(** One point whose four prices are all 137328147180369888, a number of the
    format above [2^56]. *)
Definition largeFlatSeries : MarketData :=
  marketDataOf [mkPoint "Now" 137328147180369888 137328147180369888
                        137328147180369888 137328147180369888 0].

(** One point from [10^18] to the next number of the format. *)
Definition largeSeries : MarketData :=
  marketDataOf [mkPoint "Now" (10 ^ 18) (10 ^ 18 + 128) (10 ^ 18) (10 ^ 18 + 128) 0].

(** One point from [-8.5e307] to [8.5e307]. *)
Definition hugeSeries : MarketData :=
  marketDataOf [{| time := "Now";
                   open := lit (inject_Z (- 85 * 10 ^ 306));
                   high := lit (inject_Z (85 * 10 ^ 306));
                   low := lit (inject_Z (- 85 * 10 ^ 306));
                   close := lit (inject_Z (85 * 10 ^ 306));
                   volume := int 0 |}].

(* ================================================================== *)
(** ** Numbers: comparison *)
(* ================================================================== *)

Lemma leb_Fin (a b : Q) : (Fin a <=? Fin b) = true <-> (a <= b)%Q.
Proof.
  unfold leb, cmp. rewrite Qle_alt.
  destruct (a ?= b)%Q; split; intros; congruence.
Qed.

Lemma ltb_Fin (a b : Q) : (Fin a <? Fin b) = true <-> (a < b)%Q.
Proof.
  unfold ltb, cmp. rewrite Qlt_alt.
  destruct (a ?= b)%Q; split; intros; congruence.
Qed.

Lemma eqb_Fin (a b : Q) : (Fin a === Fin b) = true <-> (a == b)%Q.
Proof.
  unfold eqb, cmp. rewrite Qeq_alt.
  destruct (a ?= b)%Q; split; intros; congruence.
Qed.

Lemma leb_gtb_false (a b : num) : (a <=? b) = true -> (a >? b) = false.
Proof.
  unfold gtb, ltb, leb.
  destruct a as [x| | |], b as [y| | |]; simpl; try congruence.
  rewrite <- (Qcompare_antisym x y).
  destruct (x ?= y)%Q; simpl; congruence.
Qed.

Lemma Qsign_pos (q : Q) : (0 < q)%Q -> Qsign q = Gt.
Proof. intros H. unfold Qsign. now apply Qgt_alt. Qed.

Lemma Qsign_zero (q : Q) : (q == 0)%Q -> Qsign q = Eq.
Proof. intros H. unfold Qsign. now apply Qeq_alt. Qed.

Lemma Qred_inject_Z (z : Z) : Qred (inject_Z z) = inject_Z z.
Proof.
  unfold inject_Z, Qred.
  generalize (Z.ggcd_gcd z 1) (Z.ggcd_correct_divisors z 1).
  destruct (Z.ggcd z 1) as [g [aa bb]]. simpl.
  rewrite Z.gcd_1_r. intros -> [H1 H2].
  rewrite !Z.mul_1_l in *. subst. reflexivity.
Qed.

(* ================================================================== *)
(** ** Numbers: rounding to binary64 *)
(* ================================================================== *)

(** *** Powers of two *)

Lemma p2_pos (e : Z) : (0 < p2 e)%Q.
Proof. apply Qpower_0_lt. reflexivity. Qed.

Lemma p2_nz (e : Z) : ~ (p2 e == 0)%Q.
Proof. intros E. pose proof (p2_pos e) as H. rewrite E in H. discriminate H. Qed.

Lemma p2_add (a b : Z) : (p2 (a + b) == p2 a * p2 b)%Q.
Proof. apply Qpower_plus. discriminate. Qed.

Lemma p2_le (a b : Z) : (a <= b)%Z -> (p2 a <= p2 b)%Q.
Proof. intros H. apply Qpower_le_compat_l; [exact H | discriminate]. Qed.

Lemma p2_lt (a b : Z) : (a < b)%Z -> (p2 a < p2 b)%Q.
Proof. intros H. apply Qpower_lt_compat_l; [exact H | reflexivity]. Qed.

Lemma p2_lt_inv (a b : Z) : (p2 a < p2 b)%Q -> (a < b)%Z.
Proof. intros H. apply (Qpower_lt_compat_l_inv 2); [exact H | reflexivity]. Qed.

Lemma p2_Z (e : Z) : (0 <= e)%Z -> (p2 e == inject_Z (2 ^ e))%Q.
Proof. intros H. unfold p2. now rewrite (Zpower_Qpower 2 e H). Qed.

Lemma p2_div (x : Q) (a b : Z) : (x * p2 a / p2 b == x * p2 (a - b))%Q.
Proof.
  replace (a - b)%Z with (a + - b)%Z by lia.
  rewrite p2_add. unfold p2 at 4. rewrite Qpower_opp. fold (p2 b).
  field. apply p2_nz.
Qed.

(** *** The binary exponent *)

Lemma ilog2_spec (x : Q) :
  (0 < x)%Q -> (p2 (ilog2 x) <= x)%Q /\ (x < p2 (ilog2 x + 1))%Q.
Proof.
  intros Hx. destruct x as [n d].
  assert (Hn : (0 < n)%Z).
  { unfold Qlt in Hx. simpl in Hx. lia. }
  unfold ilog2. cbn [Qnum Qden].
  set (a := Z.log2 n). set (b := Z.log2 (Zpos d)).
  destruct (Z.log2_spec n Hn) as [A1 A2]. fold a in A1, A2.
  destruct (Z.log2_spec (Zpos d) ltac:(lia)) as [B1 B2]. fold b in B1, B2.
  assert (Ha : (0 <= a)%Z) by apply Z.log2_nonneg.
  assert (Hb : (0 <= b)%Z) by apply Z.log2_nonneg.
  assert (Ex : (n # d == inject_Z n / inject_Z (Zpos d))%Q) by apply Qmake_Qdiv.
  assert (Dp : (0 < inject_Z (Zpos d))%Q) by reflexivity.
  assert (U : (n # d < p2 (a - b + 1))%Q).
  { rewrite Ex. apply Qlt_shift_div_r; [exact Dp|].
    apply Qlt_le_trans with (p2 (a + 1)).
    - rewrite (p2_Z (a + 1)) by lia. rewrite <- Zlt_Qlt.
      replace (a + 1)%Z with (Z.succ a) by lia. exact A2.
    - replace (a + 1)%Z with ((a - b + 1) + b)%Z by lia.
      rewrite p2_add. apply Qmult_le_l; [apply p2_pos|].
      rewrite (p2_Z b Hb). rewrite <- Zle_Qle. exact B1. }
  assert (L : (p2 (a - b - 1) < n # d)%Q).
  { rewrite Ex. apply Qlt_shift_div_l; [exact Dp|].
    apply Qlt_le_trans with (p2 a).
    - replace a with ((a - b - 1) + (b + 1))%Z at 2 by lia.
      rewrite p2_add. apply Qmult_lt_l; [apply p2_pos|].
      rewrite (p2_Z (b + 1)) by lia. rewrite <- Zlt_Qlt.
      replace (b + 1)%Z with (Z.succ b) by lia. exact B2.
    - rewrite (p2_Z a Ha). rewrite <- Zle_Qle. exact A1. }
  destruct (Qle_bool (p2 (a - b)) (n # d)) eqn:E.
  - apply Qle_bool_iff in E. split; assumption.
  - assert (N : ~ (p2 (a - b) <= n # d)%Q).
    { intros H. apply Qle_bool_iff in H. congruence. }
    apply Qnot_le_lt in N. split.
    + now apply Qlt_le_weak.
    + replace (a - b - 1 + 1)%Z with (a - b)%Z by lia. exact N.
Qed.

Lemma ilog2_unique (x : Q) (l : Z) :
  (p2 l <= x)%Q -> (x < p2 (l + 1))%Q -> ilog2 x = l.
Proof.
  intros L U.
  assert (Hx : (0 < x)%Q) by (eapply Qlt_le_trans; [apply (p2_pos l) | exact L]).
  destruct (ilog2_spec x Hx) as [L' U'].
  assert (l < ilog2 x + 1)%Z by (apply p2_lt_inv; eapply Qle_lt_trans; eassumption).
  assert (ilog2 x < l + 1)%Z by (apply p2_lt_inv; eapply Qle_lt_trans; eassumption).
  lia.
Qed.

Lemma ilog2_mono (x y : Q) : (0 < x)%Q -> (x <= y)%Q -> (ilog2 x <= ilog2 y)%Z.
Proof.
  intros Hx Hxy.
  assert (Hy : (0 < y)%Q) by (eapply Qlt_le_trans; eassumption).
  destruct (ilog2_spec x Hx) as [L _]. destruct (ilog2_spec y Hy) as [_ U].
  assert (ilog2 x < ilog2 y + 1)%Z.
  { apply p2_lt_inv. eapply Qle_lt_trans; [exact L|].
    eapply Qle_lt_trans; eassumption. }
  lia.
Qed.

Lemma ilog2_proper (x y : Q) : (0 < x)%Q -> (x == y)%Q -> ilog2 x = ilog2 y.
Proof.
  intros Hx E. destruct (ilog2_spec x Hx) as [L U].
  symmetry. apply ilog2_unique; now rewrite <- E.
Qed.

(** *** Rounding to the nearest integer, ties to even *)

Lemma rne_proper (x y : Q) : (x == y)%Q -> rne x = rne y.
Proof.
  intros E. unfold rne. rewrite (Qfloor_comp x y E).
  assert (E' : (x - inject_Z (Qfloor y) == y - inject_Z (Qfloor y))%Q) by now rewrite E.
  now rewrite E'.
Qed.

Lemma rne_cases (x : Q) :
  (rne x = Qfloor x /\ (x - inject_Z (Qfloor x) <= 1 # 2)%Q)
  \/ (rne x = (Qfloor x + 1)%Z /\ (1 # 2 <= x - inject_Z (Qfloor x))%Q).
Proof.
  unfold rne. destruct (x - inject_Z (Qfloor x) ?= 1 # 2)%Q eqn:E.
  - apply Qeq_alt in E. destruct (Z.even (Qfloor x)).
    + left. split; [reflexivity | rewrite E; apply Qle_refl].
    + right. split; [reflexivity | rewrite E; apply Qle_refl].
  - apply Qlt_alt in E. left. split; [reflexivity | now apply Qlt_le_weak].
  - apply Qgt_alt in E. right. split; [reflexivity | now apply Qlt_le_weak].
Qed.

Lemma rne_Z (z : Z) : rne (inject_Z z) = z.
Proof.
  unfold rne. rewrite Qfloor_Z.
  assert (E : (inject_Z z - inject_Z z ?= 1 # 2)%Q = Lt).
  { apply Qlt_alt. setoid_replace (inject_Z z - inject_Z z)%Q with 0%Q by ring.
    reflexivity. }
  now rewrite E.
Qed.

Lemma rne_Z_eq (x : Q) (z : Z) : (x == inject_Z z)%Q -> rne x = z.
Proof. intros E. rewrite (rne_proper _ _ E). apply rne_Z. Qed.

Lemma rne_mono (x y : Q) : (x <= y)%Q -> (rne x <= rne y)%Z.
Proof.
  intros Hxy.
  pose proof (Qfloor_resp_le x y Hxy) as Hf.
  destruct (Z.eq_dec (Qfloor x) (Qfloor y)) as [E | N].
  - unfold rne. rewrite <- E.
    destruct (x - inject_Z (Qfloor x) ?= 1 # 2)%Q eqn:Cx;
      destruct (y - inject_Z (Qfloor x) ?= 1 # 2)%Q eqn:Cy;
      try (destruct (Z.even (Qfloor x))); try lia;
      first [apply Qeq_alt in Cx | apply Qlt_alt in Cx | apply Qgt_alt in Cx];
      first [apply Qeq_alt in Cy | apply Qlt_alt in Cy | apply Qgt_alt in Cy];
      exfalso; revert Cx Cy Hxy;
      generalize (inject_Z (Qfloor x)); intros; lra.
  - assert (Qfloor x + 1 <= Qfloor y)%Z by lia.
    destruct (rne_cases x) as [[-> _] | [-> _]];
      destruct (rne_cases y) as [[-> _] | [-> _]]; lia.
Qed.

(** *** The rounded value of a positive rational *)

Lemma expo_ge (x : Q) : (-1074 <= expo x)%Z.
Proof. unfold expo. lia. Qed.

Lemma expo_proper (x y : Q) : (0 < x)%Q -> (x == y)%Q -> expo x = expo y.
Proof. intros Hx E. unfold expo. now rewrite (ilog2_proper x y Hx E). Qed.

Lemma expo_mono (x y : Q) : (0 < x)%Q -> (x <= y)%Q -> (expo x <= expo y)%Z.
Proof. intros Hx H. unfold expo. pose proof (ilog2_mono x y Hx H). lia. Qed.

Lemma rounded_proper (x y : Q) : (0 < x)%Q -> (x == y)%Q -> (rounded x == rounded y)%Q.
Proof.
  intros Hx E. unfold rounded. rewrite (expo_proper x y Hx E).
  assert (E' : (x / p2 (expo y) == y / p2 (expo y))%Q) by now rewrite E.
  now rewrite (rne_proper _ _ E').
Qed.

(** The scaled value lies below [2^53]. *)
Lemma scaled_lt (x : Q) : (0 < x)%Q -> (x / p2 (expo x) < inject_Z (2 ^ 53))%Q.
Proof.
  intros Hx. destruct (ilog2_spec x Hx) as [_ U].
  apply Qlt_shift_div_r; [apply p2_pos|].
  rewrite <- (p2_Z 53) by lia. rewrite <- p2_add.
  eapply Qlt_le_trans; [exact U|]. apply p2_le. unfold expo. lia.
Qed.

Lemma scaled_ge (x : Q) :
  (0 < x)%Q -> (-1074 < expo x)%Z -> (inject_Z (2 ^ 52) <= x / p2 (expo x))%Q.
Proof.
  intros Hx He. destruct (ilog2_spec x Hx) as [L _].
  apply Qle_shift_div_l; [apply p2_pos|].
  rewrite <- (p2_Z 52) by lia. rewrite <- p2_add.
  eapply Qle_trans; [|exact L]. apply p2_le. unfold expo in *. lia.
Qed.

Lemma mant_le (x : Q) : (0 < x)%Q -> (rne (x / p2 (expo x)) <= 2 ^ 53)%Z.
Proof.
  intros Hx. rewrite <- (rne_Z (2 ^ 53)). apply rne_mono.
  apply Qlt_le_weak, scaled_lt, Hx.
Qed.

Lemma mant_ge (x : Q) :
  (0 < x)%Q -> (-1074 < expo x)%Z -> (2 ^ 52 <= rne (x / p2 (expo x)))%Z.
Proof.
  intros Hx He. rewrite <- (rne_Z (2 ^ 52)). apply rne_mono.
  now apply scaled_ge.
Qed.

Lemma mant_nonneg (x : Q) : (0 < x)%Q -> (0 <= rne (x / p2 (expo x)))%Z.
Proof.
  intros Hx. rewrite <- (rne_Z 0). apply rne_mono.
  apply Qle_shift_div_l; [apply p2_pos|]. rewrite Qmult_0_l. now apply Qlt_le_weak.
Qed.

Lemma rounded_nonneg (x : Q) : (0 < x)%Q -> (0 <= rounded x)%Q.
Proof.
  intros Hx. unfold rounded. apply Qmult_le_0_compat.
  - change 0%Q with (inject_Z 0). rewrite <- Zle_Qle. now apply mant_nonneg.
  - apply Qlt_le_weak, p2_pos.
Qed.

Lemma rounded_mono (x y : Q) : (0 < x)%Q -> (x <= y)%Q -> (rounded x <= rounded y)%Q.
Proof.
  intros Hx Hxy.
  assert (Hy : (0 < y)%Q) by (eapply Qlt_le_trans; eassumption).
  pose proof (expo_mono x y Hx Hxy) as He.
  destruct (Z.eq_dec (expo x) (expo y)) as [E | N].
  - unfold rounded. rewrite E. apply Qmult_le_compat_r; [|apply Qlt_le_weak, p2_pos].
    rewrite <- Zle_Qle. apply rne_mono.
    apply Qmult_le_compat_r; [exact Hxy|].
    apply Qlt_le_weak, Qinv_lt_0_compat, p2_pos.
  - assert (Hlt : (expo x < expo y)%Z) by lia.
    assert (Hey : (-1074 < expo y)%Z) by (pose proof (expo_ge x); lia).
    apply Qle_trans with (p2 (expo x + 53)).
    + unfold rounded. rewrite (Z.add_comm (expo x) 53), p2_add.
      apply Qmult_le_compat_r; [|apply Qlt_le_weak, p2_pos].
      rewrite (p2_Z 53) by lia. rewrite <- Zle_Qle. now apply mant_le.
    + apply Qle_trans with (p2 (52 + expo y)); [apply p2_le; lia|].
      unfold rounded. rewrite p2_add.
      apply Qmult_le_compat_r; [|apply Qlt_le_weak, p2_pos].
      rewrite (p2_Z 52) by lia. rewrite <- Zle_Qle. now apply mant_ge.
Qed.

(** *** Rounding to binary64 *)

Lemma round_pos_cases (x : Q) :
  (round_pos x = PosInf /\ (p2 1024 <= rounded x)%Q)
  \/ (round_pos x = Fin (Qred (rounded x)) /\ (rounded x < p2 1024)%Q).
Proof.
  unfold round_pos. destruct (Qle_bool (p2 1024) (rounded x)) eqn:E.
  - left. split; [reflexivity | now apply Qle_bool_iff].
  - right. split; [reflexivity|]. apply Qnot_le_lt. intros H.
    apply Qle_bool_iff in H. congruence.
Qed.

Lemma round_pos_proper (x y : Q) : (0 < x)%Q -> (x == y)%Q -> round_pos x = round_pos y.
Proof.
  intros Hx E. unfold round_pos.
  pose proof (rounded_proper x y Hx E) as R.
  rewrite R. destruct (Qle_bool _ _); [reflexivity|].
  f_equal. now apply Qred_complete.
Qed.

Lemma round_pos_mono (x y : Q) :
  (0 < x)%Q -> (x <= y)%Q -> leb (round_pos x) (round_pos y) = true.
Proof.
  intros Hx Hxy. pose proof (rounded_mono x y Hx Hxy) as M.
  destruct (round_pos_cases x) as [[-> Ox] | [-> Fx]];
    destruct (round_pos_cases y) as [[-> Oy] | [-> Fy]]; try reflexivity.
  - exfalso. lra.
  - apply leb_Fin. now rewrite !Qred_correct.
Qed.

(** A positive rational rounds to a number that is not negative. *)
Lemma round_pos_sign (x : Q) :
  (0 < x)%Q -> round_pos x = PosInf \/ exists y, round_pos x = Fin y /\ (0 <= y)%Q.
Proof.
  intros Hx. destruct (round_pos_cases x) as [[-> _] | [-> _]]; [now left|].
  right. eexists. split; [reflexivity|]. rewrite Qred_correct. now apply rounded_nonneg.
Qed.

Lemma round64_proper (x y : Q) : (x == y)%Q -> round64 x = round64 y.
Proof.
  intros E. unfold round64. rewrite <- E.
  destruct (x ?= 0)%Q; [reflexivity | |].
  - f_equal. f_equal. apply Qred_complete. now rewrite E.
  - f_equal. now apply Qred_complete.
Qed.

Lemma round64_0 : round64 0 = Fin 0.
Proof. reflexivity. Qed.

Lemma round64_pos (x : Q) : (0 < x)%Q -> round64 x = round_pos x.
Proof.
  intros Hx. unfold round64. rewrite (proj1 (Qgt_alt _ _) Hx).
  apply round_pos_proper; [now rewrite Qred_correct | apply Qred_correct].
Qed.

Lemma round64_neg (x : Q) : (x < 0)%Q -> round64 x = neg (round_pos (- x)).
Proof.
  intros Hx. unfold round64. rewrite (proj1 (Qlt_alt _ _) Hx). f_equal.
  apply round_pos_proper; [rewrite Qred_correct; lra | apply Qred_correct].
Qed.

Lemma round64_zero (x : Q) : (x == 0)%Q -> round64 x = Fin 0.
Proof. intros E. now rewrite (round64_proper x 0 E). Qed.

Lemma round64_not_NaN (x : Q) : round64 x <> NaN.
Proof.
  destruct (Q_dec x 0) as [[H | H] | H].
  - rewrite (round64_neg x H).
    destruct (round_pos_cases (- x)) as [[-> _] | [-> _]]; discriminate.
  - rewrite (round64_pos x H).
    destruct (round_pos_cases x) as [[-> _] | [-> _]]; discriminate.
  - rewrite (round64_zero x H). discriminate.
Qed.

Lemma leb_neg (a b : num) : leb a b = true -> leb (neg b) (neg a) = true.
Proof.
  destruct a as [x| | |], b as [y| | |]; unfold neg;
    try (intros H; (reflexivity || discriminate H)).
  intros H. apply leb_Fin in H. apply leb_Fin. rewrite !Qred_correct. lra.
Qed.

(** Rounding keeps the order. *)
Lemma round64_mono (x y : Q) : (x <= y)%Q -> leb (round64 x) (round64 y) = true.
Proof.
  intros Hxy.
  destruct (Q_dec x 0) as [[Hx | Hx] | Hx], (Q_dec y 0) as [[Hy | Hy] | Hy];
    try (exfalso; lra).
  - rewrite (round64_neg x Hx), (round64_neg y Hy).
    apply leb_neg, round_pos_mono; lra.
  - rewrite (round64_neg x Hx), (round64_pos y Hy).
    destruct (round_pos_sign (- x) ltac:(lra)) as [-> | [u [-> Hu]]];
      destruct (round_pos_sign y Hy) as [-> | [v [-> Hv]]]; try reflexivity.
    apply leb_Fin. rewrite Qred_correct. lra.
  - rewrite (round64_neg x Hx), (round64_zero y Hy).
    destruct (round_pos_sign (- x) ltac:(lra)) as [-> | [u [-> Hu]]]; [reflexivity|].
    apply leb_Fin. rewrite Qred_correct. lra.
  - rewrite (round64_pos x Hx), (round64_pos y Hy). now apply round_pos_mono.
  - rewrite (round64_zero x Hx), (round64_pos y Hy).
    destruct (round_pos_sign y Hy) as [-> | [v [-> Hv]]]; [reflexivity|].
    now apply leb_Fin.
  - rewrite (round64_zero x Hx), (round64_zero y Hy). reflexivity.
Qed.

(** *** Exactness on the numbers of the format *)

Lemma rounded_dyadic (n t : Z) :
  (0 < n < 2 ^ 53)%Z -> (-1074 <= t)%Z ->
  (rounded (inject_Z n * p2 t) == inject_Z n * p2 t)%Q.
Proof.
  intros Hn Ht. set (x := (inject_Z n * p2 t)%Q).
  assert (Hx : (0 < x)%Q).
  { unfold x. apply Qmult_lt_0_compat; [|apply p2_pos].
    change 0%Q with (inject_Z 0). rewrite <- Zlt_Qlt. lia. }
  assert (Ux : (x < p2 (53 + t))%Q).
  { unfold x. rewrite p2_add. apply Qmult_lt_compat_r; [apply p2_pos|].
    rewrite (p2_Z 53) by lia. rewrite <- Zlt_Qlt. lia. }
  destruct (ilog2_spec x Hx) as [L _].
  assert (Hl : (ilog2 x < 53 + t)%Z).
  { apply p2_lt_inv. eapply Qle_lt_trans; eassumption. }
  assert (He : (expo x <= t)%Z) by (unfold expo; lia).
  unfold rounded.
  assert (Es : (x / p2 (expo x) == inject_Z (n * 2 ^ (t - expo x)))%Q).
  { generalize (expo x) He. intros e He'. unfold x.
    rewrite p2_div, inject_Z_mult. rewrite (p2_Z (t - e)) by lia.
    reflexivity. }
  rewrite (rne_Z_eq _ _ Es), inject_Z_mult.
  rewrite <- (p2_Z (t - expo x)) by lia.
  rewrite <- Qmult_assoc, <- p2_add.
  replace (t - expo x + expo x)%Z with t by lia. reflexivity.
Qed.

Lemma neg_Fin_Qred (x y : Q) : (y == - x)%Q -> neg (Fin (Qred x)) = Fin (Qred y).
Proof.
  intros E. unfold neg. f_equal. apply Qred_complete. now rewrite Qred_correct, E.
Qed.

Lemma round64_dyadic (n t : Z) :
  (Z.abs n < 2 ^ 53)%Z -> (-1074 <= t)%Z ->
  (inject_Z (Z.abs n) * p2 t < p2 1024)%Q ->
  round64 (inject_Z n * p2 t) = Fin (Qred (inject_Z n * p2 t)).
Proof.
  intros Hn Ht Hb. destruct (Z.lt_trichotomy n 0) as [N | [N | N]].
  - assert (Ea : Z.abs n = (- n)%Z) by lia. rewrite Ea in *.
    assert (E : (- (inject_Z n * p2 t) == inject_Z (- n) * p2 t)%Q)
      by (rewrite inject_Z_opp; ring).
    assert (Hx : (inject_Z n * p2 t < 0)%Q).
    { assert (0 < inject_Z (- n) * p2 t)%Q.
      { apply Qmult_lt_0_compat; [|apply p2_pos].
        change 0%Q with (inject_Z 0). rewrite <- Zlt_Qlt. lia. }
      rewrite <- E in H. lra. }
    rewrite (round64_neg _ Hx).
    assert (Hx' : (0 < - (inject_Z n * p2 t))%Q) by lra.
    rewrite (round_pos_proper _ _ Hx' E).
    pose proof (rounded_dyadic (- n) t ltac:(lia) Ht) as R.
    destruct (round_pos_cases (inject_Z (- n) * p2 t)) as [[_ O] | [-> _]].
    + exfalso. lra.
    + apply neg_Fin_Qred. rewrite R, inject_Z_opp. ring.
  - subst n. rewrite round64_zero by ring. reflexivity.
  - assert (Ea : Z.abs n = n) by lia. rewrite Ea in *.
    assert (Hx : (0 < inject_Z n * p2 t)%Q).
    { apply Qmult_lt_0_compat; [|apply p2_pos].
      change 0%Q with (inject_Z 0). rewrite <- Zlt_Qlt. lia. }
    rewrite (round64_pos _ Hx).
    pose proof (rounded_dyadic n t ltac:(lia) Ht) as R.
    destruct (round_pos_cases (inject_Z n * p2 t)) as [[_ O] | [-> _]].
    + exfalso. lra.
    + f_equal. now apply Qred_complete.
Qed.


(** Every integer up to [2^53] in magnitude is a number of the format. *)
Lemma round64_int (z : Z) :
  (Z.abs z <= 2 ^ 53)%Z -> round64 (inject_Z z) = Fin (inject_Z z).
Proof.
  intros Hz. rewrite <- (Qred_inject_Z z) at 2.
  destruct (Z.eq_dec (Z.abs z) (2 ^ 53)) as [E | N].
  - assert (Ez : (inject_Z z == inject_Z (z / 2) * p2 1)%Q).
    { change (p2 1) with (inject_Z 2). rewrite <- inject_Z_mult.
      assert (z = z / 2 * 2)%Z by (destruct (Z.abs_spec z) as [[_ A] | [_ A]];
                                    rewrite A in E; [subst z | replace z with (- 2 ^ 53)%Z by lia];
                                    reflexivity).
      now rewrite <- H. }
    rewrite (round64_proper _ _ Ez), (Qred_complete _ _ Ez).
    apply round64_dyadic; [|lia|].
    + destruct (Z.abs_spec z) as [[_ A] | [_ A]]; rewrite A in E.
      * subst z. reflexivity.
      * replace z with (- 2 ^ 53)%Z by lia. reflexivity.
    + destruct (Z.abs_spec z) as [[_ A] | [_ A]]; rewrite A in E.
      * subst z. reflexivity.
      * replace z with (- 2 ^ 53)%Z by lia. reflexivity.
  - assert (Ez : (inject_Z z == inject_Z z * p2 0)%Q)
      by (change (p2 0) with 1%Q; ring).
    rewrite (round64_proper _ _ Ez), (Qred_complete _ _ Ez).
    apply round64_dyadic; [lia | lia |].
    change (p2 0) with 1%Q. rewrite Qmult_1_r.
    rewrite (p2_Z 1024) by lia. rewrite <- Zlt_Qlt.
    apply Z.le_lt_trans with (2 ^ 53)%Z; [exact Hz | reflexivity].
Qed.

(** What rounding returns is a number of the format: an integer below
    [2^53] in magnitude times a power of two no smaller than [2^-1074]. *)
Lemma round_pos_dyadic (x y : Q) :
  (0 < x)%Q -> round_pos x = Fin y ->
  exists n t, (0 <= n < 2 ^ 53)%Z /\ (-1074 <= t)%Z
              /\ (inject_Z n * p2 t < p2 1024)%Q
              /\ y = Qred (inject_Z n * p2 t).
Proof.
  intros Hx E.
  destruct (round_pos_cases x) as [[E' _] | [E' B]]; [congruence|].
  assert (Ey : y = Qred (rounded x)) by congruence. subst y. clear E.
  pose proof (mant_le x Hx) as M1. pose proof (mant_nonneg x Hx) as M0.
  pose proof (expo_ge x) as He. unfold rounded in *.
  set (m := rne (x / p2 (expo x))) in *. set (e := expo x) in *.
  destruct (Z.eq_dec m (2 ^ 53)) as [Em | Nm].
  - assert (Eq2 : (inject_Z m * p2 e == inject_Z (2 ^ 52) * p2 (e + 1))%Q).
    { rewrite Em, p2_add. change (p2 1) with (inject_Z 2).
      change (inject_Z (2 ^ 53)) with (inject_Z (2 ^ 52) * inject_Z 2)%Q. ring. }
    exists (2 ^ 52)%Z, (e + 1)%Z.
    split; [lia|]. split; [lia|].
    split; [now rewrite <- Eq2 | now apply Qred_complete].
  - exists m, e. split; [lia|]. split; [lia|]. split; [exact B | reflexivity].
Qed.

Lemma round64_dyadic_inv (x y : Q) :
  round64 x = Fin y ->
  exists n t, (Z.abs n < 2 ^ 53)%Z /\ (-1074 <= t)%Z
              /\ (inject_Z (Z.abs n) * p2 t < p2 1024)%Q
              /\ y = Qred (inject_Z n * p2 t).
Proof.
  intros E. destruct (Q_dec x 0) as [[H | H] | H].
  - rewrite (round64_neg x H) in E.
    destruct (round_pos (- x)) as [u| | |] eqn:R; try discriminate E.
    assert (Ey : y = Qred (- u)) by (unfold neg in E; congruence). subst y. clear E.
    destruct (round_pos_dyadic (- x) u ltac:(lra) R) as [n [t [Hn [Ht [Hb ->]]]]].
    exists (- n)%Z, t. rewrite Z.abs_opp, (Z.abs_eq n) by lia.
    split; [lia|]. split; [lia|]. split; [assumption|].
    apply Qred_complete. rewrite Qred_correct, inject_Z_opp. ring.
  - rewrite (round64_pos x H) in E.
    destruct (round_pos_dyadic x y H E) as [n [t [Hn [Ht [Hb ->]]]]].
    exists n, t. rewrite (Z.abs_eq n) by lia.
    split; [lia|]. split; [lia|]. split; [assumption | reflexivity].
  - rewrite (round64_zero x H) in E.
    assert (Ey : y = 0%Q) by congruence. subst y. clear E.
    exists 0%Z, 0%Z. split; [reflexivity|]. split; [lia|].
    split; reflexivity.
Qed.


(** Rounding is idempotent. *)
Lemma round64_double (x y : Q) : round64 x = Fin y -> double y.
Proof.
  intros E. destruct (round64_dyadic_inv x y E) as [n [t [Hn [Ht [Hb ->]]]]].
  unfold double. rewrite (round64_proper _ _ (Qred_correct _)).
  now apply round64_dyadic.
Qed.

Lemma double_int (z : Z) : (Z.abs z <= 2 ^ 53)%Z -> double (inject_Z z).
Proof. apply round64_int. Qed.

Lemma double_canonical (q : Q) : double q -> Qred q = q.
Proof.
  intros D. destruct (round64_dyadic_inv q q D) as [n [t [_ [_ [_ E]]]]].
  rewrite E at 1. rewrite Qred_involutive. now symmetry.
Qed.

(** Doubles that are equal as rationals are the same. *)
Lemma double_eq (p q : Q) : double p -> double q -> (p == q)%Q -> p = q.
Proof.
  intros Dp Dq E. rewrite <- (double_canonical p Dp), <- (double_canonical q Dq).
  now apply Qred_complete.
Qed.

(** Every double is a multiple of the least positive one. *)
Lemma double_grid (q : Q) :
  double q -> exists k : Z, (q == inject_Z k * p2 (-1074))%Q.
Proof.
  intros D. destruct (round64_dyadic_inv q q D) as [n [t [_ [Ht [_ E]]]]].
  exists (n * 2 ^ (t + 1074))%Z. rewrite E, Qred_correct, inject_Z_mult.
  rewrite <- (p2_Z (t + 1074)) by lia. rewrite <- Qmult_assoc, <- p2_add.
  replace (t + 1074 + -1074)%Z with t by lia. reflexivity.
Qed.

Lemma round64_opp (x : Q) : round64 (- x) = neg (round64 x).
Proof.
  destruct (Q_dec x 0) as [[H | H] | H].
  - rewrite (round64_neg x H), (round64_pos (- x)) by lra.
    destruct (round_pos_cases (- x)) as [[-> _] | [-> _]]; [reflexivity|].
    unfold neg. f_equal. apply Qred_complete. rewrite !Qred_correct. ring.
  - rewrite (round64_pos x H), (round64_neg (- x)) by lra.
    f_equal. apply round_pos_proper; [lra | ring].
  - rewrite (round64_zero x H), (round64_zero (- x)) by lra. reflexivity.
Qed.

Lemma double_opp (q : Q) : double q -> double (Qred (- q)).
Proof.
  intros D. unfold double.
  rewrite (round64_proper _ _ (Qred_correct _)), round64_opp, D. reflexivity.
Qed.

(** Rounding does not leave an interval whose ends are doubles. *)
Lemma round64_between (x lo hi : Q) :
  double lo -> double hi -> (lo <= x <= hi)%Q ->
  exists y, round64 x = Fin y /\ (lo <= y <= hi)%Q /\ double y.
Proof.
  intros Dl Dh [L H].
  pose proof (round64_mono lo x L) as ML. pose proof (round64_mono x hi H) as MH.
  rewrite Dl in ML. rewrite Dh in MH.
  destruct (round64 x) as [y| | |] eqn:E; try discriminate.
  exists y. apply leb_Fin in ML, MH. split; [reflexivity|]. split; [now split|].
  now apply round64_double with x.
Qed.

(* ================================================================== *)
(** ** Numbers: the operations on finite values *)
(* ================================================================== *)

Lemma div_Fin (x y : Q) : ~ (y == 0)%Q -> Fin x / Fin y = round64 (x / y).
Proof.
  intros H. unfold div, Qsign. destruct (y ?= 0)%Q eqn:E; try reflexivity.
  apply Qeq_alt in E. contradiction.
Qed.

Lemma div_Fin_zero (x y : Q) :
  (y == 0)%Q -> Fin x / Fin y = inf_of_sign (Qsign x).
Proof. intros H. unfold div. now rewrite (Qsign_zero y H). Qed.

Lemma isFinite_Fin (v : num) : isFinite v = true -> exists q, v = Fin q.
Proof. destruct v; simpl; try discriminate. now eexists. Qed.

Lemma leb_not_NaN (a b : num) : (a <=? b) = true -> a <> NaN /\ b <> NaN.
Proof.
  destruct a, b; unfold leb, cmp; intros H; split; congruence.
Qed.

Lemma leb_refl (a : num) : a <> NaN -> (a <=? a) = true.
Proof.
  destruct a as [x| | |]; intros H; try reflexivity; [|congruence].
  apply leb_Fin, Qle_refl.
Qed.

Lemma leb_trans (a b c : num) :
  (a <=? b) = true -> (b <=? c) = true -> (a <=? c) = true.
Proof.
  destruct a as [x| | |], b as [y| | |], c as [z| | |];
    try (intros H1 H2; (reflexivity || discriminate H1 || discriminate H2)).
  rewrite !leb_Fin. apply Qle_trans.
Qed.

(** Rounding is monotone: on finite results, and from zero. *)
Lemma round64_le (x y u v : Q) :
  (x <= y)%Q -> round64 x = Fin u -> round64 y = Fin v -> (u <= v)%Q.
Proof.
  intros H Ex Ey. pose proof (round64_mono x y H) as M.
  rewrite Ex, Ey in M. now apply leb_Fin.
Qed.

Lemma round64_nonneg (x : Q) : (0 <= x)%Q -> (int 0 <=? round64 x) = true.
Proof. intros H. pose proof (round64_mono 0 x H) as M. exact M. Qed.

(** A finite sum, difference or product has finite operands. *)
Lemma add_Fin_inv (a b : num) (y : Q) :
  a + b = Fin y -> exists p q, a = Fin p /\ b = Fin q /\ round64 (p + q) = Fin y.
Proof.
  destruct a as [p| | |], b as [q| | |]; try discriminate.
  intros H. now exists p, q.
Qed.

Lemma sub_Fin_inv (a b : num) (y : Q) :
  a - b = Fin y -> exists p q, a = Fin p /\ b = Fin q /\ round64 (p - q) = Fin y.
Proof.
  destruct a as [p| | |], b as [q| | |]; try discriminate.
  intros H. now exists p, q.
Qed.

Lemma mul_Fin_inv (a b : num) (y : Q) :
  a * b = Fin y -> exists p q, a = Fin p /\ b = Fin q /\ round64 (p * q) = Fin y.
Proof.
  destruct a as [p| | |], b as [q| | |]; try discriminate;
    try (cbn [mul]; unfold inf_of_sign, sign_mul;
         destruct (Qsign _); discriminate).
  intros H. now exists p, q.
Qed.

(** A finite quotient: a finite numerator over an infinity, which is zero,
    or over a finite divisor that is not zero. *)
Lemma div_Fin_inv (a b : num) (y : Q) :
  a / b = Fin y ->
  exists p, a = Fin p
    /\ ((b = PosInf \/ b = NegInf) /\ y = 0%Q
        \/ exists q, b = Fin q /\ ~ (q == 0)%Q /\ round64 (p / q) = Fin y).
Proof.
  destruct a as [p| | |], b as [q| | |]; try discriminate;
    try (cbn [div]; destruct (Qsign _); discriminate).
  - intros H. exists p. split; [reflexivity|]. right. exists q.
    unfold div, Qsign in H. destruct (q ?= 0)%Q eqn:E.
    + unfold inf_of_sign in H. destruct (p ?= 0)%Q; discriminate.
    + split; [reflexivity|]. split; [|exact H].
      intros Z. apply Qeq_alt in Z. congruence.
    + split; [reflexivity|]. split; [|exact H].
      intros Z. apply Qeq_alt in Z. congruence.
  - intros H. exists p. split; [reflexivity|]. left. split; [now left|].
    now injection H as <-.
  - intros H. exists p. split; [reflexivity|]. left. split; [now right|].
    now injection H as <-.
Qed.

(** An integer of magnitude at most [2^40], as a number. *)
Lemma isWhole_int (a : num) :
  isWhole a = true -> exists z : Z, a = int z /\ (Z.abs z <= 2 ^ 40)%Z.
Proof.
  destruct a as [[n d]| | |]; try discriminate. unfold isWhole; cbn [Qden Qnum].
  rewrite andb_true_iff, Pos.eqb_eq, Z.leb_le. intros [-> H].
  exists n. split; [reflexivity | exact H].
Qed.

(** Sums, differences and products of integers below [2^53] are exact. *)
Lemma int_add (x y : Z) :
  (Z.abs (x + y) <= 2 ^ 53)%Z -> int x + int y = int (x + y).
Proof.
  intros H. unfold int. cbn [add].
  rewrite (round64_proper _ (inject_Z (x + y))) by (now rewrite inject_Z_plus).
  now apply round64_int.
Qed.

Lemma int_sub (x y : Z) :
  (Z.abs (x - y) <= 2 ^ 53)%Z -> int x - int y = int (x - y).
Proof.
  intros H. unfold int. cbn [sub].
  rewrite (round64_proper _ (inject_Z (x - y)))
    by (unfold Z.sub; now rewrite inject_Z_plus, inject_Z_opp).
  now apply round64_int.
Qed.

Lemma int_mul (x y : Z) :
  (Z.abs (x * y) <= 2 ^ 53)%Z -> int x * int y = int (x * y).
Proof.
  intros H. unfold int. cbn [mul].
  rewrite (round64_proper _ (inject_Z (x * y))) by (now rewrite inject_Z_mult).
  now apply round64_int.
Qed.
(* ================================================================== *)
(** ** What [renderChart] publishes *)
(* ================================================================== *)

(** [createCandlestick] reads two fields of the component only. *)
Lemma createCandlestick_ext (c1 c2 : Component) (d : CandlestickData) (i : nat) :
  marketData c1 = marketData c2 ->
  chartConfig c1 = chartConfig c2 ->
  createCandlestick c1 d i = createCandlestick c2 d i.
Proof.
  intros Hm Hc. unfold createCandlestick, pointCount.
  now rewrite Hm, Hc.
Qed.

Lemma elementsFrom_ext (c1 c2 : Component) (xs : list CandlestickData) (i : nat) :
  marketData c1 = marketData c2 ->
  chartConfig c1 = chartConfig c2 ->
  elementsFrom c1 xs i = elementsFrom c2 xs i.
Proof.
  intros Hm Hc. revert i.
  induction xs as [|x xs IH]; intros i; simpl; [reflexivity|].
  now rewrite IH, (createCandlestick_ext c1 c2 x i Hm Hc).
Qed.

Lemma elementsFrom_length (c : Component) (xs : list CandlestickData) (i : nat) :
  List.length (elementsFrom c xs i) = List.length xs.
Proof.
  revert i. induction xs as [|x xs IH]; intros i; simpl; [reflexivity|].
  now rewrite IH.
Qed.

Lemma elementsFrom_data (c : Component) (xs : list CandlestickData) (i : nat) :
  map (fun e => cs_data (fst e)) (elementsFrom c xs i) = xs.
Proof.
  revert i. induction xs as [|x xs IH]; intros i; simpl; [reflexivity|].
  now rewrite IH.
Qed.

(** The loop of [renderChart] appends the element pairs in series order. *)
Lemma forEach_append (xs : list CandlestickData) :
  forall (i : nat) (c : Component),
    forEach (fun data index s =>
               let '(candlestick, volumeBar) := createCandlestick s data index in
               set_elements (candlesticks s ++ [candlestick])
                            (volumeBars s ++ [volumeBar]) s)
            xs i c
    = set_elements (candlesticks c ++ map fst (elementsFrom c xs i))
                   (volumeBars c ++ map snd (elementsFrom c xs i)) c.
Proof.
  induction xs as [|x xs IH]; intros i c; simpl.
  - rewrite !app_nil_r. now destruct c.
  - destruct (createCandlestick c x i) as [k v] eqn:E.
    rewrite IH. unfold set_elements; simpl.
    rewrite <- !app_assoc. simpl.
    rewrite (elementsFrom_ext _ c xs (Datatypes.S i)) by reflexivity.
    reflexivity.
Qed.

(** [renderChart] runs on a component that has data and a container. *)
Lemma renderChart_run (c : Component) (md : MarketData) :
  marketData c = Some md ->
  chartContainer c = true ->
  dataPoints md <> [] ->
  renderChart c
  = set_elements (map fst (elementsFrom c (dataPoints md) 0))
                 (map snd (elementsFrom c (dataPoints md) 0)) c.
Proof.
  intros Hm Hc Hne. unfold renderChart. rewrite Hm, Hc. simpl.
  destruct (dataPoints md) as [|x xs] eqn:E; [congruence|].
  cbn [List.length Nat.eqb].
  rewrite forEach_append. unfold clearChart, set_elements; simpl.
  rewrite (elementsFrom_ext _ c xs 1) by reflexivity.
  reflexivity.
Qed.

(** [renderChart] returns early otherwise, leaving every field as it was. *)
Lemma renderChart_skip (c : Component) :
  (marketData c = None \/ chartContainer c = false
   \/ exists md, marketData c = Some md /\ dataPoints md = []) ->
  renderChart c = c.
Proof.
  unfold renderChart. intros [H | [H | [md [H E]]]].
  - now rewrite H.
  - rewrite H. now destruct (marketData c).
  - rewrite H, E. simpl. now rewrite orb_true_r.
Qed.

Lemma renderChart_cases (c : Component) :
  renderChart c = c
  \/ exists md, marketData c = Some md /\ chartContainer c = true
                /\ dataPoints md <> [].
Proof.
  destruct (marketData c) as [md|] eqn:Hm.
  - destruct (chartContainer c) eqn:Hc.
    + destruct (dataPoints md) as [|x xs] eqn:E.
      * left. apply renderChart_skip. right; right. now exists md.
      * right. exists md. repeat split. now rewrite E.
    + left. apply renderChart_skip. now right; left.
  - left. apply renderChart_skip. now left.
Qed.

(** Rendering again over a rendered chart changes nothing: the previous
    elements are dropped before the new ones are appended. *)
Lemma renderChart_idempotent (c : Component) :
  renderChart (renderChart c) = renderChart c.
Proof.
  destruct (renderChart_cases c) as [H | [md [Hm [Hc Hne]]]].
  - now rewrite !H.
  - rewrite (renderChart_run c md Hm Hc Hne).
    rewrite (renderChart_run _ md) by (assumption || exact Hm).
    rewrite (elementsFrom_ext _ c (dataPoints md) 0) by reflexivity.
    reflexivity.
Qed.

(** [renderChart] leaves the configuration as it is. *)
Lemma renderChart_chartConfig (c : Component) :
  chartConfig (renderChart c) = chartConfig c.
Proof.
  destruct (renderChart_cases c) as [H | [md [Hm [Hc Hne]]]].
  - now rewrite H.
  - now rewrite (renderChart_run c md Hm Hc Hne).
Qed.

Lemma of_nat_pos (n : nat) : n <> 0%nat -> (0 < inject_Z (Z.of_nat n))%Q.
Proof.
  intros H. change 0%Q with (inject_Z 0). rewrite <- Zlt_Qlt. lia.
Qed.

Lemma length_nonzero (A : Type) (xs : list A) : xs <> [] -> List.length xs <> 0%nat.
Proof. destruct xs; simpl; congruence. Qed.

(** With at least one point, [length || 1] is the length. *)
Lemma pointCount_length (c : Component) (md : MarketData) :
  marketData c = Some md ->
  dataPoints md <> [] ->
  pointCount c = of_nat (List.length (dataPoints md)).
Proof.
  intros Hm Hne. unfold pointCount. rewrite Hm.
  unfold or_else, of_nat, int.
  now rewrite (Qsign_pos _ (of_nat_pos _ (length_nonzero _ _ Hne))).
Qed.

Lemma elementsFrom_vertical (c1 c2 : Component) (xs : list CandlestickData) (i : nat) :
  (forall d j, vertical (fst (createCandlestick c1 d j))
               = vertical (fst (createCandlestick c2 d j))) ->
  map (fun e => vertical (fst e)) (elementsFrom c1 xs i)
  = map (fun e => vertical (fst e)) (elementsFrom c2 xs i).
Proof.
  intros H. revert i.
  induction xs as [|x xs IH]; intros i; [reflexivity|].
  cbn [elementsFrom map]. f_equal; [apply H | apply IH].
Qed.

Lemma elementsFrom_left (c : Component) (xs : list CandlestickData) (i : nat) :
  map (fun e => cs_left (fst e)) (elementsFrom c xs i)
  = map (fun j => int 20 + of_nat j * spacing c
                  + (spacing c - candleWidth (chartConfig c)) / int 2)
        (seq i (List.length xs)).
Proof.
  revert i. induction xs as [|x xs IH]; intros i; [reflexivity|].
  cbn [elementsFrom map List.length seq]. f_equal; try reflexivity; apply IH.
Qed.

(** The vertical part of a candlestick does not read [chartWidth]. *)
Lemma vertical_chartWidth (c : Component) (w : num) (d : CandlestickData) (i : nat) :
  vertical (fst (createCandlestick
                   (set_chartConfig (set_chartWidth w (chartConfig c)) c) d i))
  = vertical (fst (createCandlestick c d i)).
Proof. reflexivity. Qed.

(** A width that is not greater than zero leaves the component as it is. *)
Lemma onResize_not_positive (c : Component) (px : num) :
  (px >? int 0) = false -> onResize px c = c.
Proof.
  intros H. unfold onResize. rewrite H.
  now destruct (negb (resizeObserver c) && chartContainer c).
Qed.

Lemma resizeObserverCallback_not_positive (c : Component) (entries : list num) :
  Forall (fun px => (px >? int 0) = false) entries ->
  resizeObserverCallback entries c = c.
Proof.
  unfold resizeObserverCallback.
  induction 1 as [|px rest Hpx _ IH]; simpl; [reflexivity|].
  now rewrite Hpx.
Qed.

(* ================================================================== *)
(** ** Properties of the layout and of the resize handling *)
(* ================================================================== *)

(** C9.  The layout is a function of the series and of the chart
    configuration alone: two components that hold the same data and the
    same configuration build the same elements for every point and publish
    the same candlesticks and volume bars, whatever else they hold (earlier
    elements, flags); and rendering twice publishes what rendering once
    does. *)
Theorem layout_is_pure (c1 c2 : Component) (md : MarketData) :
  marketData c1 = Some md ->
  marketData c2 = Some md ->
  chartConfig c1 = chartConfig c2 ->
  chartContainer c1 = true ->
  chartContainer c2 = true ->
  dataPoints md <> [] ->
  (forall d i, createCandlestick c1 d i = createCandlestick c2 d i)
  /\ candlesticks (renderChart c1) = candlesticks (renderChart c2)
  /\ volumeBars (renderChart c1) = volumeBars (renderChart c2)
  /\ renderChart (renderChart c1) = renderChart c1.
Proof.
  intros Hm1 Hm2 Hcfg Hc1 Hc2 Hne.
  assert (Hm : marketData c1 = marketData c2) by congruence.
  split; [intros d i; now apply createCandlestick_ext|].
  rewrite (renderChart_run c1 md Hm1 Hc1 Hne), (renderChart_run c2 md Hm2 Hc2 Hne).
  rewrite (elementsFrom_ext c1 c2 _ 0 Hm Hcfg).
  repeat split.
  rewrite <- (elementsFrom_ext c1 c2 _ 0 Hm Hcfg).
  rewrite <- (renderChart_run c1 md Hm1 Hc1 Hne).
  apply renderChart_idempotent.
Qed.

(* ================================================================== *)
(** ** The price to pixel mapping *)
(* ================================================================== *)

Lemma div_zero_not_finite (a : num) : isFinite (a / Fin 0) = false.
Proof.
  destruct a as [x| | |]; try reflexivity.
  rewrite div_Fin_zero by reflexivity. now destruct (Qsign x).
Qed.

Lemma toY_not_finite (D : num) (h : Q) :
  isFinite D = false -> isFinite (Fin h - D * Fin h + int 20) = false.
Proof.
  destruct D as [x| | |]; [discriminate| | |]; intros _; cbn [mul];
    unfold inf_of_sign, sign_mul, Qsign; destruct (h ?= 0)%Q; reflexivity.
Qed.

(** Over a zero price range no price is mapped to a finite ordinate: the
    quotient is [0 / 0] or a number over zero. *)
Lemma toY_degenerate (h m p : Q) :
  isFinite (toY (Fin h) (Fin m) (Fin m - Fin m) (Fin p)) = false.
Proof.
  unfold toY. apply toY_not_finite.
  replace (Fin m - Fin m) with (Fin 0)
    by (symmetry; apply round64_zero; ring).
  apply div_zero_not_finite.
Qed.

Lemma toY_degenerate_NaN (h m : Q) :
  toY (Fin h) (Fin m) (Fin m - Fin m) (Fin m) = NaN.
Proof.
  unfold toY.
  replace (Fin m - Fin m) with (Fin 0)
    by (symmetry; apply round64_zero; ring).
  reflexivity.
Qed.

(** A finite ordinate comes from finite arguments, through five finite
    intermediate results. *)
Lemma toY_inv (H mn r pr : num) (y : Q) :
  toY H mn r pr = Fin y ->
  exists h m p u t d,
    H = Fin h /\ mn = Fin m /\ pr = Fin p
    /\ (Fin p - Fin m) / r = Fin u
    /\ round64 (u * h) = Fin t
    /\ round64 (h - t) = Fin d
    /\ round64 (d + inject_Z 20) = Fin y.
Proof.
  unfold toY. intros E.
  destruct (add_Fin_inv _ _ _ E) as [d [k [E1 [E2 E3]]]].
  assert (k = inject_Z 20) by (unfold int in E2; congruence). subst k.
  destruct (sub_Fin_inv _ _ _ E1) as [h [t [E4 [E5 E6]]]].
  destruct (mul_Fin_inv _ _ _ E5) as [u [h' [E7 [E8 E9]]]].
  assert (h' = h) by congruence. subst h'.
  destruct (div_Fin_inv _ _ _ E7) as [a [E10 _]].
  destruct (sub_Fin_inv _ _ _ E10) as [p [m [E11 [E12 _]]]].
  exists h, m, p, u, t, d. subst H mn pr. repeat split; assumption.
Qed.

(** Over a price range that is not negative, a higher price gets a lower
    (or the same) ordinate, whenever both ordinates are finite. *)
Lemma toY_antitone (h m : Q) (r : num) (p q yp yq : Q) :
  (0 <= h)%Q ->
  (int 0 <=? r) = true ->
  (p <= q)%Q ->
  toY (Fin h) (Fin m) r (Fin p) = Fin yp ->
  toY (Fin h) (Fin m) r (Fin q) = Fin yq ->
  (yq <= yp)%Q.
Proof.
  intros Hh Hr Hpq Ep Eq.
  destruct (toY_inv _ _ _ _ _ Ep) as [h1 [m1 [p1 [up [tp [dp [A1 [A2 [A3 [Up [Tp [Dp Yp]]]]]]]]]]]].
  destruct (toY_inv _ _ _ _ _ Eq) as [h2 [m2 [q2 [uq [tq [dq [B1 [B2 [B3 [Uq [Tq [Dq Yq]]]]]]]]]]]].
  assert (h1 = h) by congruence. assert (h2 = h) by congruence.
  assert (m1 = m) by congruence. assert (m2 = m) by congruence.
  assert (p1 = p) by congruence. assert (q2 = q) by congruence.
  subst h1 h2 m1 m2 p1 q2. clear A1 A2 A3 B1 B2 B3 Ep Eq.
  assert (Hu : (up <= uq)%Q).
  { destruct r as [rho| | |]; try discriminate Hr.
    - destruct (div_Fin_inv _ _ _ Up) as [ap [Ap [[[F | F] _] | [r1 [Er [Nz Rp]]]]]];
        try discriminate F.
      destruct (div_Fin_inv _ _ _ Uq) as [aq [Aq [[[F | F] _] | [r2 [Er' [_ Rq]]]]]];
        try discriminate F.
      assert (r1 = rho) by congruence. assert (r2 = rho) by congruence.
      subst r1 r2.
      apply leb_Fin in Hr. change (inject_Z 0) with 0%Q in Hr.
      assert (Hpos : (0 < rho)%Q).
      { destruct (Qle_lt_or_eq _ _ Hr) as [L | L]; [exact L|].
        exfalso. apply Nz. now symmetry. }
      cbn [sub] in Ap, Aq.
      assert (Ha : (ap <= aq)%Q)
        by (apply (round64_le (p - m) (q - m)); [lra | assumption | assumption]).
      apply (round64_le (ap / rho) (aq / rho)); try assumption.
      unfold Qdiv. apply Qmult_le_compat_r; [exact Ha|].
      apply Qlt_le_weak, Qinv_lt_0_compat, Hpos.
    - destruct (div_Fin_inv _ _ _ Up) as [ap [Ap [[_ Zp] | [r1 [F _]]]]];
        [|discriminate F].
      destruct (div_Fin_inv _ _ _ Uq) as [aq [Aq [[_ Zq] | [r2 [F _]]]]];
        [|discriminate F].
      subst. apply Qle_refl. }
  assert (Ht : (tp <= tq)%Q).
  { apply (round64_le (up * h) (uq * h)); try assumption.
    now apply Qmult_le_compat_r. }
  assert (Hd : (dq <= dp)%Q)
    by (apply (round64_le (h - tq) (h - tp)); [lra | assumption | assumption]).
  apply (round64_le (dq + inject_Z 20) (dp + inject_Z 20)); try assumption. lra.
Qed.

Lemma max2_floor (a : num) : a <> NaN -> (int 2 <=? max2 a (int 2)) = true.
Proof.
  destruct a as [x| | |]; try reflexivity; [|congruence].
  intros _. unfold max2, int, cmp.
  destruct (x ?= inject_Z 2)%Q eqn:E.
  - apply leb_Fin. apply Qeq_alt in E. rewrite E. apply Qle_refl.
  - apply leb_Fin. apply Qle_refl.
  - apply leb_Fin. apply Qgt_alt in E. now apply Qlt_le_weak.
Qed.

Lemma abs_not_NaN (a : num) : a <> NaN -> abs a <> NaN.
Proof.
  destruct a as [x| | |]; cbn [abs]; try congruence.
  destruct (Qsign x); congruence.
Qed.

(** C5 (amended).  Under a scale with [minPrice < maxPrice] and a chart
    height that is not negative, a candle whose open and close ordinates are
    finite numbers gets a body height of at least 2, and a candle whose low
    is not above its high and whose low and high ordinates are finite
    numbers gets a wick height of at least 0. *)
Theorem wick_and_body_heights (c : Component) (d : CandlestickData) (i : nat)
    (h m M : Q) :
  chartHeight (chartConfig c) = Fin h ->
  minPrice (chartConfig c) = Fin m ->
  maxPrice (chartConfig c) = Fin M ->
  (0 <= h)%Q ->
  (m < M)%Q ->
  let Y := toY (chartHeight (chartConfig c)) (minPrice (chartConfig c))
               (maxPrice (chartConfig c) - minPrice (chartConfig c)) in
  let k := fst (createCandlestick c d i) in
  (isFinite (Y (open d)) = true -> isFinite (Y (close d)) = true ->
   (int 2 <=? body_height k) = true)
  /\ ((low d <=? high d) = true ->
      isFinite (Y (low d)) = true -> isFinite (Y (high d)) = true ->
      (int 0 <=? wick_height k) = true).
Proof.
  intros EH Em EM Hh HmM Y k.
  unfold k, createCandlestick; cbn [fst body_height wick_height]. fold Y. split.
  - intros Fo Fc.
    destruct (isFinite_Fin _ Fo) as [yo Eo], (isFinite_Fin _ Fc) as [yc Ec].
    rewrite Eo, Ec. apply max2_floor, abs_not_NaN. cbn [sub].
    apply round64_not_NaN.
  - intros Hlh Fl Fh.
    destruct (isFinite_Fin _ Fl) as [yl El], (isFinite_Fin _ Fh) as [yh Eh].
    rewrite El, Eh. cbn [sub]. apply round64_nonneg.
    unfold Y in El, Eh. rewrite EH, Em, EM in El, Eh.
    destruct (toY_inv _ _ _ _ _ El) as [? [? [lo [? [? [? [_ [_ [Elo _]]]]]]]]].
    destruct (toY_inv _ _ _ _ _ Eh) as [? [? [hi [? [? [? [_ [_ [Ehi _]]]]]]]]].
    rewrite Elo, Ehi in *. apply leb_Fin in Hlh.
    assert (Hr : (int 0 <=? Fin M - Fin m) = true)
      by (cbn [sub]; apply round64_nonneg; lra).
    pose proof (toY_antitone h m _ lo hi yl yh Hh Hr Hlh El Eh). lra.
Qed.
(* ================================================================== *)
(** ** Whole prices: the scale in exact terms *)
(* ================================================================== *)

Lemma inject_Z_sub (a b : Z) : (inject_Z (a - b) == inject_Z a - inject_Z b)%Q.
Proof. unfold Z.sub. now rewrite inject_Z_plus, inject_Z_opp. Qed.

(** A dyadic fraction with a numerator below [2^53] is a number of the
    format. *)
Lemma double_dyadic (n t : Z) :
  (Z.abs n < 2 ^ 53)%Z -> (-1074 <= t <= 0)%Z ->
  double (Qred (inject_Z n * p2 t)).
Proof.
  intros Hn [Ht Ht0]. unfold double.
  rewrite (round64_proper _ _ (Qred_correct _)).
  apply round64_dyadic; [exact Hn | exact Ht |].
  apply Qle_lt_trans with (p2 53).
  - rewrite (p2_Z 53) by lia.
    apply Qle_trans with (inject_Z (Z.abs n) * p2 0)%Q.
    + rewrite !(Qmult_comm (inject_Z (Z.abs n))).
      apply Qmult_le_compat_r; [now apply p2_le|].
      change 0%Q with (inject_Z 0). rewrite <- Zle_Qle. lia.
    + change (p2 0) with 1%Q. rewrite Qmult_1_r. rewrite <- Zle_Qle. lia.
  - apply p2_lt. lia.
Qed.

Lemma lit_tenth : lit (1 # 10) = Fin (3602879701896397 # 36028797018963968).
Proof. vm_compute. reflexivity. Qed.

(** The padding of a whole price span: between zero and the span. *)
Lemma whole_padding (x : Z) :
  (0 <= x <= 2 ^ 41)%Z ->
  exists pad : Q, int x * lit (1 # 10) = Fin pad
                  /\ (0 <= pad <= inject_Z x)%Q.
Proof.
  intros Hx. rewrite lit_tenth. unfold int. cbn [mul].
  set (c := (3602879701896397 # 36028797018963968)%Q).
  assert (Hc : (0 <= c <= 1)%Q) by (split; discriminate).
  assert (HX : (0 <= inject_Z x)%Q)
    by (change 0%Q with (inject_Z 0); rewrite <- Zle_Qle; lia).
  destruct (round64_between (inject_Z x * c) 0 (inject_Z x)) as [y [Ey [B _]]].
  - exact round64_0.
  - apply double_int. lia.
  - split.
    + apply Qmult_le_0_compat; [exact HX | apply Hc].
    + rewrite <- (Qmult_1_r (inject_Z x)) at 2.
      rewrite !(Qmult_comm (inject_Z x)).
      apply Qmult_le_compat_r; [apply Hc | exact HX].
  - now exists y.
Qed.

(** [minPrice] for whole extremes: a multiple of 100 that is not above the
    least price; on a flat series, the multiple of 100 just below it. *)
Lemma whole_floor_scale (zmin zmax : Z) :
  (Z.abs zmin <= 2 ^ 40)%Z -> (Z.abs zmax <= 2 ^ 40)%Z -> (zmin <= zmax)%Z ->
  exists F : Z,
    floor ((int zmin - (int zmax - int zmin) * lit (1 # 10)) / int 100) * int 100
    = int (100 * F)
    /\ (100 * F <= zmin)%Z
    /\ (- 2 ^ 36 <= F)%Z
    /\ (zmax = zmin -> F = (zmin / 100)%Z).
Proof.
  intros Hmin Hmax Hle.
  rewrite int_sub by lia.
  destruct (whole_padding (zmax - zmin)) as [pad [Epad [P0 P1]]]; [lia|].
  rewrite Epad. unfold int at 1. cbn [sub].
  rewrite inject_Z_sub in P1.
  destruct (round64_between (inject_Z zmin - pad)
              (inject_Z (zmin - (zmax - zmin))) (inject_Z zmin))
    as [a [Ea [[A0 A1] _]]].
  { apply double_int. lia. }
  { apply double_int. lia. }
  { rewrite !inject_Z_sub. split; lra. }
  rewrite Ea. unfold int at 1. rewrite div_Fin by (intros Z; discriminate Z).
  set (k := (zmin / 100)%Z).
  pose proof (Z.div_mod zmin 100 ltac:(lia)) as DM.
  pose proof (Z.mod_pos_bound zmin 100 ltac:(lia)) as MB. fold k in DM.
  set (y0 := Qred (inject_Z (128 * (k + 1) - 1) * p2 (-7))).
  assert (Ey0 : (y0 == inject_Z (k + 1) - (1 # 128))%Q).
  { unfold y0. rewrite Qred_correct. change (p2 (-7)) with (1 # 128)%Q.
    rewrite inject_Z_sub, inject_Z_mult. change (inject_Z 128) with 128%Q.
    change (inject_Z 1) with 1%Q. field. }
  assert (Hzk : (inject_Z zmin <= inject_Z (100 * k + 99))%Q)
    by (rewrite <- Zle_Qle; lia).
  assert (Hlow : (inject_Z (- 3 * 2 ^ 40) <= inject_Z (zmin - (zmax - zmin)))%Q)
    by (rewrite <- Zle_Qle; lia).
  rewrite inject_Z_plus, inject_Z_mult in Hzk.
  change (inject_Z 100) with 100%Q in *. change (inject_Z 99) with 99%Q in Hzk.
  rewrite inject_Z_plus in Ey0. change (inject_Z 1) with 1%Q in Ey0.
  destruct (round64_between (a / 100) (inject_Z (- 2 ^ 36)) y0)
    as [th [Eth [[T0 T1] _]]].
  { apply double_int. lia. }
  { apply double_dyadic; lia. }
  { rewrite Ey0. split.
    - apply Qle_shift_div_l; [reflexivity|].
      change (inject_Z (- 2 ^ 36) * 100)%Q with (inject_Z (- 2 ^ 36 * 100)).
      apply Qle_trans with (inject_Z (- 3 * 2 ^ 40)); [discriminate|].
      apply Qle_trans with (inject_Z (zmin - (zmax - zmin))); assumption.
    - apply Qle_shift_div_r; [reflexivity|]. lra. }
  rewrite Eth. cbn [floor]. set (F := Qfloor th).
  assert (HF0 : (- 2 ^ 36 <= F)%Z).
  { unfold F. rewrite <- (Qfloor_Z (- 2 ^ 36)). now apply Qfloor_resp_le. }
  assert (HF1 : (F <= k)%Z).
  { assert (L : (inject_Z F < inject_Z (k + 1))%Q).
    { apply Qle_lt_trans with th; [apply Qfloor_le|].
      rewrite inject_Z_plus. change (inject_Z 1) with 1%Q. lra. }
    rewrite <- Zlt_Qlt in L. lia. }
  fold (int F). fold (int 100). rewrite int_mul by lia.
  exists F. split; [f_equal; lia|]. split; [lia|]. split; [exact HF0|].
  intros Eflat. subst zmax.
  assert (Hk : (inject_Z k <= th)%Q).
  { apply (round64_le (inject_Z k) (a / 100)); [| apply round64_int; lia | exact Eth].
    apply Qle_shift_div_l; [reflexivity|].
    assert (Hkz : (inject_Z (k * 100) <= inject_Z zmin)%Q)
      by (rewrite <- Zle_Qle; lia).
    rewrite inject_Z_mult in Hkz. change (inject_Z 100) with 100%Q in Hkz.
    replace (zmin - (zmin - zmin))%Z with zmin in A0 by lia. lra. }
  assert (k <= F)%Z.
  { unfold F. rewrite <- (Qfloor_Z k). now apply Qfloor_resp_le. }
  lia.
Qed.

(** [maxPrice] for whole extremes: a multiple of 100 that is not below the
    greatest price; on a flat series, the multiple of 100 just above it. *)
Lemma whole_ceil_scale (zmin zmax : Z) :
  (Z.abs zmin <= 2 ^ 40)%Z -> (Z.abs zmax <= 2 ^ 40)%Z -> (zmin <= zmax)%Z ->
  exists C : Z,
    ceil ((int zmax + (int zmax - int zmin) * lit (1 # 10)) / int 100) * int 100
    = int (100 * C)
    /\ (zmax <= 100 * C)%Z
    /\ (C <= 2 ^ 36)%Z
    /\ (zmax = zmin -> C = (- (- zmax / 100))%Z).
Proof.
  intros Hmin Hmax Hle.
  rewrite int_sub by lia.
  destruct (whole_padding (zmax - zmin)) as [pad [Epad [P0 P1]]]; [lia|].
  rewrite Epad. unfold int at 1. cbn [add].
  rewrite inject_Z_sub in P1.
  destruct (round64_between (inject_Z zmax + pad)
              (inject_Z zmax) (inject_Z (zmax + (zmax - zmin))))
    as [a [Ea [[A0 A1] _]]].
  { apply double_int. lia. }
  { apply double_int. lia. }
  { rewrite inject_Z_plus, inject_Z_sub. split; lra. }
  rewrite Ea. unfold int at 1. rewrite div_Fin by (intros Z; discriminate Z).
  set (k := (- (- zmax / 100))%Z).
  pose proof (Z.div_mod (- zmax) 100 ltac:(lia)) as DM.
  pose proof (Z.mod_pos_bound (- zmax) 100 ltac:(lia)) as MB.
  assert (Ek : (- zmax / 100 = - k)%Z) by (unfold k; lia). rewrite Ek in DM.
  set (y1 := Qred (inject_Z (128 * (k - 1) + 1) * p2 (-7))).
  assert (Ey1 : (y1 == inject_Z (k - 1) + (1 # 128))%Q).
  { unfold y1. rewrite Qred_correct. change (p2 (-7)) with (1 # 128)%Q.
    rewrite inject_Z_plus, inject_Z_mult. change (inject_Z 128) with 128%Q.
    change (inject_Z 1) with 1%Q. field. }
  assert (Hzk : (inject_Z (100 * k - 99) <= inject_Z zmax)%Q)
    by (rewrite <- Zle_Qle; lia).
  assert (Hup : (inject_Z (zmax + (zmax - zmin)) <= inject_Z (3 * 2 ^ 40))%Q)
    by (rewrite <- Zle_Qle; lia).
  rewrite inject_Z_sub, inject_Z_mult in Hzk.
  change (inject_Z 100) with 100%Q in *. change (inject_Z 99) with 99%Q in Hzk.
  rewrite inject_Z_sub in Ey1. change (inject_Z 1) with 1%Q in Ey1.
  destruct (round64_between (a / 100) y1 (inject_Z (2 ^ 36)))
    as [th [Eth [[T0 T1] _]]].
  { apply double_dyadic; lia. }
  { apply double_int. lia. }
  { rewrite Ey1. split.
    - apply Qle_shift_div_l; [reflexivity|]. lra.
    - apply Qle_shift_div_r; [reflexivity|].
      change (inject_Z (2 ^ 36) * 100)%Q with (inject_Z (2 ^ 36 * 100)).
      apply Qle_trans with (inject_Z (3 * 2 ^ 40)); [|discriminate].
      apply Qle_trans with (inject_Z (zmax + (zmax - zmin))); assumption. }
  rewrite Eth. cbn [ceil]. set (C := Qceiling th).
  assert (HC1 : (C <= 2 ^ 36)%Z).
  { unfold C. rewrite <- (Qceiling_Z (2 ^ 36)). now apply Qceiling_resp_le. }
  assert (HC0 : (k <= C)%Z).
  { assert (L : (inject_Z (k - 1) < inject_Z C)%Q).
    { apply Qlt_le_trans with th; [|apply Qle_ceiling].
      rewrite inject_Z_sub. change (inject_Z 1) with 1%Q. lra. }
    rewrite <- Zlt_Qlt in L. lia. }
  fold (int C). fold (int 100). rewrite int_mul by lia.
  exists C. split; [f_equal; lia|]. split; [lia|]. split; [exact HC1|].
  intros Eflat. subst zmax.
  assert (Hk : (th <= inject_Z k)%Q).
  { apply (round64_le (a / 100) (inject_Z k)); [| exact Eth | apply round64_int; lia].
    apply Qle_shift_div_r; [reflexivity|].
    assert (Hkz : (inject_Z zmin <= inject_Z (k * 100))%Q)
      by (rewrite <- Zle_Qle; lia).
    rewrite inject_Z_mult in Hkz. change (inject_Z 100) with 100%Q in Hkz.
    replace (zmin + (zmin - zmin))%Z with zmin in A1 by lia. lra. }
  assert (C <= k)%Z.
  { unfold C. rewrite <- (Qceiling_Z k). now apply Qceiling_resp_le. }
  unfold k in *. lia.
Qed.
(* ================================================================== *)
(** ** Six steps make the range *)
(* ================================================================== *)

(** Within half a unit of an even integer, rounding yields that integer. *)
Lemma rne_near_even (x : Q) (M : Z) :
  Z.even M = true ->
  (inject_Z M - (1 # 2) <= x)%Q -> (x <= inject_Z M + (1 # 2))%Q ->
  rne x = M.
Proof.
  intros Ev L U. unfold rne.
  pose proof (Qfloor_le x) as F0. pose proof (Qlt_floor x) as F1.
  rewrite inject_Z_plus in F1. change (inject_Z 1) with 1%Q in F1.
  destruct (Qlt_le_dec x (inject_Z M)) as [B | A].
  - assert (F : Qfloor x = (M - 1)%Z).
    { assert (G1 : (inject_Z (Qfloor x) < inject_Z M)%Q) by lra.
      assert (G2 : (inject_Z (M - 2) < inject_Z (Qfloor x))%Q)
        by (rewrite inject_Z_sub; change (inject_Z 2) with 2%Q; lra).
      rewrite <- Zlt_Qlt in G1, G2. lia. }
    rewrite F.
    assert (EM : (inject_Z (M - 1) == inject_Z M - 1)%Q)
      by (rewrite inject_Z_sub; reflexivity).
    destruct (x - inject_Z (M - 1) ?= 1 # 2)%Q eqn:E.
    + rewrite Z.even_sub, Ev. cbn. lia.
    + apply Qlt_alt in E. rewrite EM in E. lra.
    + lia.
  - assert (F : Qfloor x = M).
    { assert (G1 : (inject_Z (Qfloor x) < inject_Z (M + 1))%Q)
        by (rewrite inject_Z_plus; change (inject_Z 1) with 1%Q; lra).
      assert (G2 : (inject_Z (M - 1) < inject_Z (Qfloor x))%Q)
        by (rewrite inject_Z_sub; change (inject_Z 1) with 1%Q; lra).
      rewrite <- Zlt_Qlt in G1, G2. lia. }
    rewrite F. destruct (x - inject_Z M ?= 1 # 2)%Q eqn:E.
    + now rewrite Ev.
    + reflexivity.
    + apply Qgt_alt in E. lra.
Qed.

(** A number in the binade of a whole number below [2^52], and within half
    a unit in the last place of it, rounds to that whole number. *)
Lemma round64_snap (y : Q) (R e : Z) :
  (0 <= e <= 51)%Z -> (R < 2 ^ (e + 1))%Z ->
  (p2 e <= y)%Q -> (y < p2 (e + 1))%Q ->
  (inject_Z R - p2 (e - 53) <= y)%Q -> (y <= inject_Z R + p2 (e - 53))%Q ->
  round64 y = Fin (inject_Z R).
Proof.
  intros He HR L U A B.
  assert (Hy : (0 < y)%Q) by (eapply Qlt_le_trans; [apply p2_pos | exact L]).
  rewrite (round64_pos y Hy).
  assert (Il : ilog2 y = e) by (apply ilog2_unique; assumption).
  assert (Ex : expo y = (e - 52)%Z) by (unfold expo; rewrite Il; lia).
  set (M := (R * 2 ^ (52 - e))%Z).
  set (P := p2 (52 - e)).
  assert (HP : (0 < P)%Q) by apply p2_pos.
  assert (EM : (inject_Z M == inject_Z R * P)%Q).
  { unfold M, P. rewrite inject_Z_mult, <- p2_Z by lia. reflexivity. }
  assert (Ev : Z.even M = true).
  { unfold M. rewrite Z.even_mul. replace (52 - e)%Z with (Z.succ (51 - e)) by lia.
    rewrite Z.pow_succ_r by lia. rewrite Z.even_mul. cbn. now rewrite orb_true_r. }
  assert (Sc : (y / p2 (e - 52) == y * P)%Q).
  { unfold P. replace (52 - e)%Z with (0 - (e - 52))%Z by lia.
    rewrite <- p2_div. change (p2 0) with 1%Q. now rewrite Qmult_1_r. }
  assert (Hh : (p2 (e - 53) * P == 1 # 2)%Q).
  { unfold P. rewrite <- p2_add. replace (e - 53 + (52 - e))%Z with (-1)%Z by lia.
    reflexivity. }
  assert (Rn : rne (y / p2 (e - 52)) = M).
  { apply rne_near_even; [exact Ev | |]; rewrite Sc, EM.
    - assert (G : ((inject_Z R - p2 (e - 53)) * P <= y * P)%Q)
        by (apply Qmult_le_compat_r; [exact A | now apply Qlt_le_weak]).
      assert (G' : ((inject_Z R - p2 (e - 53)) * P
                    == inject_Z R * P - p2 (e - 53) * P)%Q) by ring.
      rewrite G', Hh in G. exact G.
    - assert (G : (y * P <= (inject_Z R + p2 (e - 53)) * P)%Q)
        by (apply Qmult_le_compat_r; [exact B | now apply Qlt_le_weak]).
      assert (G' : ((inject_Z R + p2 (e - 53)) * P
                    == inject_Z R * P + p2 (e - 53) * P)%Q) by ring.
      rewrite G', Hh in G. exact G. }
  assert (Er : (rounded y == inject_Z R)%Q).
  { unfold rounded. rewrite Ex, Rn, EM. unfold P.
    rewrite <- Qmult_assoc, <- p2_add.
    replace (52 - e + (e - 52))%Z with 0%Z by lia.
    change (p2 0) with 1%Q. apply Qmult_1_r. }
  destruct (round_pos_cases y) as [[_ O] | [-> _]].
  - exfalso. rewrite Er in O.
    assert (T : (inject_Z R < p2 1024)%Q).
    { apply Qlt_le_trans with (p2 (e + 1)).
      - rewrite p2_Z by lia. now rewrite <- Zlt_Qlt.
      - apply p2_le. lia. }
    lra.
  - f_equal. rewrite <- (Qred_inject_Z R). now apply Qred_complete.
Qed.

Lemma pow2_not_multiple_of_5 (e : Z) : (0 <= e)%Z -> (2 ^ e mod 5 <> 0)%Z.
Proof.
  revert e. apply natlike_ind.
  - discriminate.
  - intros e He IH. rewrite Z.pow_succ_r by exact He.
    pose proof (Z.div_mod (2 ^ e) 5 ltac:(lia)) as D1.
    pose proof (Z.mod_pos_bound (2 ^ e) 5 ltac:(lia)) as B1.
    pose proof (Z.div_mod (2 * 2 ^ e) 5 ltac:(lia)) as D2.
    pose proof (Z.mod_pos_bound (2 * 2 ^ e) 5 ltac:(lia)) as B2.
    lia.
Qed.

(** The step of a whole range and back: for a whole range [R] that is a
    multiple of 100, six times the rounded sixth of [R], rounded, is [R]. *)
Lemma six_steps (n : Z) (s : Q) :
  (0 <= 100 * n <= 2 ^ 44)%Z ->
  round64 (inject_Z (100 * n) / 6) = Fin s ->
  round64 (inject_Z 6 * s) = Fin (inject_Z (100 * n)).
Proof.
  intros HR Es. set (R := (100 * n)%Z) in *.
  destruct (Z.eq_dec R 0) as [Z0 | NZ].
  { rewrite Z0 in *. rewrite round64_zero in Es by reflexivity.
    assert (s = 0%Q) by congruence. subst s. apply round64_zero. reflexivity. }
  assert (Rpos : (0 < R)%Z) by lia.
  set (e := Z.log2 R).
  pose proof (Z.log2_spec R Rpos) as [L2 U2]. fold e in L2, U2.
  pose proof (Z.log2_nonneg R) as E0. fold e in E0.
  assert (E44 : (e <= 44)%Z).
  { unfold e. rewrite <- (Z.log2_pow2 44) by lia. apply Z.log2_le_mono. lia. }
  replace (Z.succ e) with (e + 1)%Z in U2 by lia.
  assert (Rne : (2 ^ e < R)%Z).
  { destruct (Z.eq_dec (2 ^ e) R) as [E | N]; [|lia].
    exfalso. apply (pow2_not_multiple_of_5 e E0). rewrite E. unfold R.
    replace (100 * n)%Z with (20 * n * 5)%Z by lia. apply Z.mod_mul. lia. }
  set (x := (inject_Z R / 6)%Q) in *.
  assert (QR : (0 < inject_Z R)%Q)
    by (change 0%Q with (inject_Z 0); now rewrite <- Zlt_Qlt).
  assert (Hx : (0 < x)%Q) by (unfold x; apply Qlt_shift_div_l; lra).
  assert (X6 : (x * 6 == inject_Z R)%Q) by (unfold x; field).
  assert (QU : (inject_Z R < p2 (e + 1))%Q)
    by (rewrite p2_Z by lia; now rewrite <- Zlt_Qlt).
  assert (QL : (p2 e + 1 <= inject_Z R)%Q).
  { rewrite p2_Z by lia. change 1%Q with (inject_Z 1).
    rewrite <- inject_Z_plus, <- Zle_Qle. lia. }
  (* the exponent of the step *)
  assert (Il : (ilog2 x <= e - 2)%Z).
  { destruct (ilog2_spec x Hx) as [I0 _].
    assert (T : (x < p2 (e - 1))%Q).
    { assert (P4 : (p2 (e + 1) == 4 * p2 (e - 1))%Q).
      { replace (e + 1)%Z with (2 + (e - 1))%Z by lia. now rewrite p2_add. }
      pose proof (p2_pos (e - 1)). lra. }
    assert (T' : (p2 (ilog2 x) < p2 (e - 1))%Q) by lra.
    apply p2_lt_inv in T'. lia. }
  set (E := expo x).
  assert (HE : (-1074 <= E <= e - 54)%Z).
  { unfold E, expo. lia. }
  set (k := rne (x / p2 E)).
  rewrite (round64_pos x Hx) in Es.
  destruct (round_pos_cases x) as [[F _] | [F _]]; rewrite F in Es; [discriminate|].
  assert (Hs : (s == inject_Z k * p2 E)%Q).
  { assert (s = Qred (rounded x)) by congruence. subst s.
    rewrite Qred_correct. reflexivity. }
  (* in units of the last place of the step *)
  set (N' := (R * 2 ^ (- E - 1))%Z).
  assert (EN : (inject_Z (2 * N') == inject_Z R * p2 (- E))%Q).
  { unfold N'. replace (2 * (R * 2 ^ (- E - 1)))%Z with (R * 2 ^ (- E))%Z.
    - rewrite inject_Z_mult, <- p2_Z by lia. reflexivity.
    - replace (- E)%Z with (Z.succ (- E - 1)) at 1 by lia.
      rewrite Z.pow_succ_r by lia. lia. }
  assert (Sc : (x / p2 E == x * p2 (- E))%Q).
  { replace (- E)%Z with (0 - E)%Z by lia.
    rewrite <- p2_div. change (p2 0) with 1%Q. now rewrite Qmult_1_r. }
  assert (K : (inject_Z k - (1 # 2) <= x / p2 E <= inject_Z k + (1 # 2))%Q).
  { pose proof (Qfloor_le (x / p2 E)) as F0.
    pose proof (Qlt_floor (x / p2 E)) as F1.
    rewrite inject_Z_plus in F1. change (inject_Z 1) with 1%Q in F1.
    unfold k. destruct (rne_cases (x / p2 E)) as [[-> C] | [-> C]].
    - split; lra.
    - rewrite inject_Z_plus. change (inject_Z 1) with 1%Q. split; lra. }
  assert (K6 : (-2 <= 6 * k - 2 * N' <= 2)%Z).
  { assert (T : (x / p2 E * 6 == inject_Z (2 * N'))%Q).
    { rewrite Sc, EN, <- X6. ring. }
    destruct K as [K0 K1].
    assert (G0 : (inject_Z (6 * k - 2 * N' - 3) <= 0)%Q).
    { rewrite !inject_Z_sub, inject_Z_mult, <- T.
      change (inject_Z 6) with 6%Q. change (inject_Z 3) with 3%Q. lra. }
    assert (G1 : (0 <= inject_Z (6 * k - 2 * N' + 3))%Q).
    { rewrite inject_Z_plus, inject_Z_sub, inject_Z_mult, <- T.
      change (inject_Z 6) with 6%Q. change (inject_Z 3) with 3%Q. lra. }
    change 0%Q with (inject_Z 0) in G0, G1. rewrite <- Zle_Qle in G0, G1. lia. }
  (* six steps, before rounding *)
  set (y := (inject_Z 6 * s)%Q).
  assert (Hy : (y - inject_Z R == inject_Z (6 * k - 2 * N') * p2 E)%Q).
  { unfold y. rewrite Hs, inject_Z_sub, inject_Z_mult.
    assert (T : (inject_Z R == inject_Z (2 * N') * p2 E)%Q).
    { rewrite EN, <- Qmult_assoc, <- p2_add.
      replace (- E + E)%Z with 0%Z by lia. change (p2 0) with 1%Q.
      now rewrite Qmult_1_r. }
    rewrite T at 1. ring. }
  assert (PE : (2 * p2 E <= p2 (e - 53))%Q).
  { change 2%Q with (p2 1). rewrite <- p2_add. apply p2_le. lia. }
  assert (PE0 : (0 < p2 E)%Q) by apply p2_pos.
  assert (Hd : (- p2 (e - 53) <= y - inject_Z R <= p2 (e - 53))%Q).
  { rewrite Hy. split.
    - apply Qle_trans with (inject_Z (-2) * p2 E)%Q.
      + change (inject_Z (-2)) with (-2)%Q. lra.
      + apply Qmult_le_compat_r; [|lra]. rewrite <- Zle_Qle. lia.
    - apply Qle_trans with (inject_Z 2 * p2 E)%Q.
      + apply Qmult_le_compat_r; [|lra]. rewrite <- Zle_Qle. lia.
      + change (inject_Z 2) with 2%Q. lra. }
  assert (P1 : (p2 (e - 53) < 1)%Q).
  { change 1%Q with (p2 0). apply p2_lt. lia. }
  assert (QU' : (inject_Z R + 1 <= p2 (e + 1))%Q).
  { rewrite p2_Z by lia. change 1%Q with (inject_Z 1).
    rewrite <- inject_Z_plus, <- Zle_Qle. lia. }
  apply (round64_snap y R e); [lia | lia | lra | lra | lra | lra].
Qed.
(* ================================================================== *)
(** ** The price scale of [initializeData] *)
(* ================================================================== *)

Lemma forEach_prices (points : list CandlestickData) :
  forall (i : nat) (acc : list num),
    forEach (fun point (_ : nat) acc =>
               acc ++ [high point; low point; open point; close point])
            points i acc
    = acc ++ flat_map priceFields points.
Proof.
  induction points as [|x xs IH]; intros i acc; simpl.
  - now rewrite app_nil_r.
  - rewrite IH, <- app_assoc. reflexivity.
Qed.

(** [prices] holds the four price fields of every point, in series order. *)
Lemma prices_flat_map (points : list CandlestickData) :
  prices points = flat_map priceFields points.
Proof. unfold prices. now rewrite forEach_prices. Qed.

Lemma prices_finite (points : list CandlestickData) :
  Forall (fun d => finitePrices d = true) points ->
  Forall (fun p => isFinite p = true) (prices points).
Proof.
  rewrite prices_flat_map. induction 1 as [|d ds Hd _ IH]; simpl; [constructor|].
  unfold finitePrices in Hd. rewrite !andb_true_iff in Hd.
  destruct Hd as [[[Ho Hh] Hl] Hk].
  repeat (constructor; [assumption|]). exact IH.
Qed.

Lemma prices_nonempty (points : list CandlestickData) :
  points <> [] -> prices points <> [].
Proof.
  rewrite prices_flat_map. destruct points; [congruence|]. discriminate.
Qed.

Lemma fold_min2_Fin (xs : list num) :
  Forall (fun p => isFinite p = true) xs ->
  forall m0 : Q,
  exists m, fold_left min2 xs (Fin m0) = Fin m
            /\ (Fin m = Fin m0 \/ In (Fin m) xs)
            /\ (m <= m0)%Q
            /\ (forall q, In (Fin q) xs -> (m <= q)%Q).
Proof.
  induction 1 as [|x xs Hx _ IH]; intros m0; simpl.
  - exists m0. repeat split; auto using Qle_refl. intros q [].
  - destruct (isFinite_Fin _ Hx) as [q0 ->].
    unfold min2 at 2, cmp. destruct (m0 ?= q0)%Q eqn:E.
    + destruct (IH m0) as [m [Hf [Hin [Hle Hall]]]].
      exists m. repeat split; auto.
      * destruct Hin; auto.
      * intros q [Hq | Hq]; [|auto].
        injection Hq as <-. apply Qeq_alt in E. rewrite <- E. exact Hle.
    + destruct (IH m0) as [m [Hf [Hin [Hle Hall]]]].
      exists m. repeat split; auto.
      * destruct Hin; auto.
      * intros q [Hq | Hq]; [|auto].
        injection Hq as <-. apply Qlt_alt in E.
        apply Qle_trans with m0; [exact Hle | now apply Qlt_le_weak].
    + destruct (IH q0) as [m [Hf [Hin [Hle Hall]]]].
      exists m. apply Qgt_alt in E. repeat split; auto.
      * destruct Hin as [Hin | Hin]; [right; left; now symmetry | auto].
      * apply Qle_trans with q0; [exact Hle | now apply Qlt_le_weak].
      * intros q [Hq | Hq]; [|auto]. now injection Hq as <-.
Qed.

Lemma fold_max2_Fin (xs : list num) :
  Forall (fun p => isFinite p = true) xs ->
  forall m0 : Q,
  exists m, fold_left max2 xs (Fin m0) = Fin m
            /\ (Fin m = Fin m0 \/ In (Fin m) xs)
            /\ (m0 <= m)%Q
            /\ (forall q, In (Fin q) xs -> (q <= m)%Q).
Proof.
  induction 1 as [|x xs Hx _ IH]; intros m0; simpl.
  - exists m0. repeat split; auto using Qle_refl. intros q [].
  - destruct (isFinite_Fin _ Hx) as [q0 ->].
    unfold max2 at 2, cmp. destruct (m0 ?= q0)%Q eqn:E.
    + destruct (IH m0) as [m [Hf [Hin [Hle Hall]]]].
      exists m. repeat split; auto.
      * destruct Hin; auto.
      * intros q [Hq | Hq]; [|auto].
        injection Hq as <-. apply Qeq_alt in E. rewrite <- E. exact Hle.
    + destruct (IH q0) as [m [Hf [Hin [Hle Hall]]]].
      exists m. apply Qlt_alt in E. repeat split; auto.
      * destruct Hin as [Hin | Hin]; [right; left; now symmetry | auto].
      * apply Qle_trans with q0; [now apply Qlt_le_weak | exact Hle].
      * intros q [Hq | Hq]; [|auto]. now injection Hq as <-.
    + destruct (IH m0) as [m [Hf [Hin [Hle Hall]]]].
      exists m. repeat split; auto.
      * destruct Hin; auto.
      * intros q [Hq | Hq]; [|auto].
        injection Hq as <-. apply Qgt_alt in E.
        apply Qle_trans with m0; [now apply Qlt_le_weak | exact Hle].
Qed.

(** [Math.min(...xs)] of finite numbers, at least one: a member of [xs]
    below every member. *)
Lemma min_list_spec (xs : list num) :
  xs <> [] ->
  Forall (fun p => isFinite p = true) xs ->
  exists m, min_list xs = Fin m /\ In (Fin m) xs
            /\ (forall q, In (Fin q) xs -> (m <= q)%Q).
Proof.
  intros Hne Hall. destruct xs as [|x xs]; [congruence|].
  inversion Hall as [|? ? Hx Hxs]; subst.
  destruct (isFinite_Fin _ Hx) as [q0 ->].
  destruct (fold_min2_Fin xs Hxs q0) as [m [Hf [Hin [Hle Hlow]]]].
  exists m. unfold min_list. simpl. repeat split.
  - exact Hf.
  - destruct Hin as [Hin | Hin]; [left; now symmetry | now right].
  - intros q [Hq | Hq]; [now injection Hq as <- | auto].
Qed.

(** [Math.max(...xs)] of finite numbers, at least one: a member of [xs]
    above every member. *)
Lemma max_list_spec (xs : list num) :
  xs <> [] ->
  Forall (fun p => isFinite p = true) xs ->
  exists m, max_list xs = Fin m /\ In (Fin m) xs
            /\ (forall q, In (Fin q) xs -> (q <= m)%Q).
Proof.
  intros Hne Hall. destruct xs as [|x xs]; [congruence|].
  inversion Hall as [|? ? Hx Hxs]; subst.
  destruct (isFinite_Fin _ Hx) as [q0 ->].
  destruct (fold_max2_Fin xs Hxs q0) as [m [Hf [Hin [Hle Hup]]]].
  exists m. unfold max_list. simpl. repeat split.
  - exact Hf.
  - destruct Hin as [Hin | Hin]; [left; now symmetry | now right].
  - intros q [Hq | Hq]; [now injection Hq as <- | auto].
Qed.

Lemma round64_sandwich (x y z lo hi : Q) :
  round64 x = Fin lo -> round64 z = Fin hi -> (x <= y)%Q -> (y <= z)%Q ->
  exists a, round64 y = Fin a /\ (lo <= a <= hi)%Q.
Proof.
  intros Ex Ez Hxy Hyz.
  pose proof (round64_mono x y Hxy) as L. pose proof (round64_mono y z Hyz) as U.
  rewrite Ex in L. rewrite Ez in U.
  destruct (round64 y) as [a| | |]; try discriminate.
  exists a. split; [reflexivity|]. split; now apply leb_Fin.
Qed.

(** Over a finite price range above zero, a price between the bounds of the
    scale is mapped into [[20, chartHeight + 20]]. *)
Lemma toY_range (h m M rho p : Q) :
  double h -> (0 <= h)%Q -> (m <= p <= M)%Q ->
  Fin M - Fin m = Fin rho -> (0 < rho)%Q ->
  let y := toY (Fin h) (Fin m) (Fin M - Fin m) (Fin p) in
  (int 20 <=? y) = true /\ (y <=? Fin h + int 20) = true.
Proof.
  intros Dh Hh [Hmp HpM] Er Hrho y. unfold y, toY. rewrite Er.
  cbn [sub] in Er.
  assert (R1 : round64 1 = Fin 1) by (apply (round64_int 1); discriminate).
  destruct (round64_sandwich 0 (p - m) (M - m) 0 rho round64_0 Er)
    as [a [Ea [A0 A1]]]; [lra | lra |].
  replace (Fin p - Fin m) with (Fin a) by (symmetry; exact Ea).
  rewrite div_Fin by (intros Z; rewrite Z in Hrho; discriminate Hrho).
  destruct (round64_sandwich 0 (a / rho) 1 0 1 round64_0 R1)
    as [u [Eu [U0 U1]]].
  { apply Qle_shift_div_l; [exact Hrho | lra]. }
  { apply Qle_shift_div_r; [exact Hrho | lra]. }
  rewrite Eu. cbn [mul].
  destruct (round64_sandwich 0 (u * h) h 0 h round64_0 Dh)
    as [t [Et [T0 T1]]].
  { now apply Qmult_le_0_compat. }
  { rewrite <- (Qmult_1_l h) at 2. now apply Qmult_le_compat_r. }
  rewrite Et. cbn [sub].
  destruct (round64_sandwich 0 (h - t) h 0 h round64_0 Dh)
    as [d [Ed [D0 D1]]]; [lra | lra |].
  rewrite Ed. unfold int. cbn [add]. split.
  - rewrite <- (round64_int 20) by discriminate.
    apply round64_mono. lra.
  - apply round64_mono. lra.
Qed.

Lemma isWhole_finite (p : num) : isWhole p = true -> isFinite p = true.
Proof. now destruct p. Qed.

Lemma prices_whole (points : list CandlestickData) :
  Forall (fun d => wholePrices d = true) points ->
  Forall (fun p => isWhole p = true) (prices points).
Proof.
  rewrite prices_flat_map. induction 1 as [|d ds Hd _ IH]; simpl; [constructor|].
  unfold wholePrices, priceFields in Hd. cbn [forallb] in Hd.
  rewrite !andb_true_iff in Hd. destruct Hd as [Hh [Hl [Ho [Hc _]]]].
  repeat (constructor; [assumption|]). exact IH.
Qed.

(** The extremes of a series of whole prices. *)
Lemma whole_extremes (points : list CandlestickData) :
  points <> [] ->
  Forall (fun d => wholePrices d = true) points ->
  exists zmin zmax : Z,
    min_list (prices points) = int zmin
    /\ max_list (prices points) = int zmax
    /\ In (int zmin) (prices points)
    /\ In (int zmax) (prices points)
    /\ (Z.abs zmin <= 2 ^ 40)%Z /\ (Z.abs zmax <= 2 ^ 40)%Z
    /\ (zmin <= zmax)%Z
    /\ (forall p, In p (prices points) ->
          exists z : Z, p = int z /\ (zmin <= z <= zmax)%Z).
Proof.
  intros Hne Hall.
  pose proof (prices_nonempty _ Hne) as Pne.
  pose proof (prices_whole _ Hall) as Pw.
  assert (Pfin : Forall (fun p => isFinite p = true) (prices points)).
  { eapply Forall_impl; [|exact Pw]. intros p. apply isWhole_finite. }
  rewrite Forall_forall in Pw.
  destruct (min_list_spec _ Pne Pfin) as [a [Ea [Ia La]]].
  destruct (max_list_spec _ Pne Pfin) as [b [Eb [Ib Ub]]].
  destruct (isWhole_int _ (Pw _ Ia)) as [zmin [Ezmin Bmin]].
  destruct (isWhole_int _ (Pw _ Ib)) as [zmax [Ezmax Bmax]].
  assert (a = inject_Z zmin) by (unfold int in Ezmin; congruence).
  assert (b = inject_Z zmax) by (unfold int in Ezmax; congruence).
  subst a b. fold (int zmin) in *. fold (int zmax) in *.
  exists zmin, zmax.
  split; [exact Ea|]. split; [exact Eb|]. split; [exact Ia|]. split; [exact Ib|].
  split; [exact Bmin|]. split; [exact Bmax|]. split.
  - rewrite Zle_Qle. apply La. exact Ib.
  - intros p Hp. destruct (isWhole_int _ (Pw _ Hp)) as [z [-> _]].
    exists z. split; [reflexivity|]. rewrite !Zle_Qle. split.
    + apply La. exact Hp.
    + apply Ub. exact Hp.
Qed.

Section Scale.

Variable toLocaleString : num -> string.

(** The configuration that [initializeData] leaves for a series of at least
    one point. *)
Lemma initializeData_config (c : Component) (md : MarketData) :
  marketData c = Some md ->
  dataPoints md <> [] ->
  let lo := min_list (prices (dataPoints md)) in
  let hi := max_list (prices (dataPoints md)) in
  let padding := (hi - lo) * lit (1 # 10) in
  let mn := floor ((lo - padding) / int 100) * int 100 in
  let mx := ceil ((hi + padding) / int 100) * int 100 in
  initializeData toLocaleString c
  = set_chartConfig
      {| chartHeight := chartHeight (chartConfig c);
         chartWidth := chartWidth (chartConfig c);
         candleWidth := candleWidth (chartConfig c);
         maxPrice := mx;
         minPrice := mn;
         yAxisLabels := map toLocaleString (yAxisValues mx ((mx - mn) / int 6));
         xAxisLabels :=
           if Nat.eqb (List.length (xAxisLabels (chartConfig c)))
                      (List.length (dataPoints md))
           then xAxisLabels (chartConfig c)
           else map time (dataPoints md) |} c.
Proof.
  intros Hm Hne lo hi padding mn mx.
  unfold initializeData. rewrite Hm. cbv beta iota zeta. rewrite Hm.
  destruct (dataPoints md) as [|x xs] eqn:E; [congruence|].
  cbn [List.length Nat.ltb Nat.leb].
  unfold set_yAxisLabels, set_maxPrice, set_minPrice, set_xAxisLabels.
  cbn [chartHeight chartWidth candleWidth maxPrice minPrice yAxisLabels xAxisLabels].
  destruct (Nat.eqb _ _); reflexivity.
Qed.

Lemma initializeData_chartHeight (c : Component) (md : MarketData) :
  marketData c = Some md ->
  dataPoints md <> [] ->
  chartHeight (chartConfig (initializeData toLocaleString c))
  = chartHeight (chartConfig c).
Proof. intros Hm Hne. now rewrite (initializeData_config c md Hm Hne). Qed.

Lemma priceField_in_prices (points : list CandlestickData)
    (d : CandlestickData) (p : num) :
  In d points -> In p (priceFields d) -> In p (prices points).
Proof.
  intros Hd Hp. rewrite prices_flat_map. apply in_flat_map. now exists d.
Qed.

(** The scale of a series of whole prices: both bounds are whole multiples
    of 100, and they enclose the extremes of the series. *)
Lemma whole_scale (c : Component) (md : MarketData) :
  marketData c = Some md ->
  dataPoints md <> [] ->
  Forall (fun d => wholePrices d = true) (dataPoints md) ->
  exists zmin zmax F C : Z,
    let cfg := chartConfig (initializeData toLocaleString c) in
    minPrice cfg = int (100 * F)
    /\ maxPrice cfg = int (100 * C)
    /\ (100 * F <= zmin)%Z /\ (zmin <= zmax)%Z /\ (zmax <= 100 * C)%Z
    /\ (- 2 ^ 36 <= F)%Z /\ (C <= 2 ^ 36)%Z
    /\ (forall p, In p (prices (dataPoints md)) ->
          exists z : Z, p = int z /\ (zmin <= z <= zmax)%Z).
Proof.
  intros Hm Hne Hall.
  destruct (whole_extremes _ Hne Hall)
    as [zmin [zmax [Emin [Emax [_ [_ [Bmin [Bmax [Hle Hin]]]]]]]]].
  destruct (whole_floor_scale zmin zmax Bmin Bmax Hle) as [F [EF [HF [BF _]]]].
  destruct (whole_ceil_scale zmin zmax Bmin Bmax Hle) as [C [EC [HC [BC _]]]].
  exists zmin, zmax, F, C. intros cfg. unfold cfg.
  rewrite (initializeData_config c md Hm Hne).
  cbn [chartConfig set_chartConfig minPrice maxPrice]. rewrite Emin, Emax.
  repeat split; assumption.
Qed.


(** The extremes of a series of finite prices. *)
Lemma finite_extremes (points : list CandlestickData) :
  points <> [] ->
  Forall (fun d => finitePrices d = true) points ->
  exists a b : Q,
    min_list (prices points) = Fin a
    /\ max_list (prices points) = Fin b
    /\ In (Fin a) (prices points)
    /\ In (Fin b) (prices points)
    /\ (forall q, In (Fin q) (prices points) -> (a <= q <= b)%Q).
Proof.
  intros Hne Hfin.
  pose proof (prices_nonempty _ Hne) as Pne.
  pose proof (prices_finite _ Hfin) as Pfin.
  destruct (min_list_spec _ Pne Pfin) as [a [Ea [Ia La]]].
  destruct (max_list_spec _ Pne Pfin) as [b [Eb [Ib Ub]]].
  exists a, b. repeat split; auto.
Qed.

(** C3 (amended).  For a series of at least one point, with [rawMin] and
    [rawMax] the least and the greatest of the price fields of its points
    and [padding = (rawMax - rawMin) * 0.1], [initializeData] sets
    [minPrice = floor((rawMin - padding) / 100) * 100] and
    [maxPrice = ceil((rawMax + padding) / 100) * 100].  On a flat series the
    padding is 0.  On a flat series at a whole price [z] of magnitude at
    most [2^40], [minPrice] is the multiple of 100 at or just below [z] and
    [maxPrice] the one at or just above it: they are equal exactly when [z]
    is a multiple of 100, and [maxPrice = minPrice + 100] otherwise. *)
Theorem scale_formulas (c : Component) (md : MarketData) :
  marketData c = Some md ->
  dataPoints md <> [] ->
  Forall (fun d => finitePrices d = true) (dataPoints md) ->
  exists rawMin rawMax : Q,
    let ps := flat_map priceFields (dataPoints md) in
    let padding := (Fin rawMax - Fin rawMin) * lit (1 # 10) in
    let cfg := chartConfig (initializeData toLocaleString c) in
    In (Fin rawMin) ps
    /\ In (Fin rawMax) ps
    /\ (forall q, In (Fin q) ps -> (rawMin <= q <= rawMax)%Q)
    /\ minPrice cfg = floor ((Fin rawMin - padding) / int 100) * int 100
    /\ maxPrice cfg = ceil ((Fin rawMax + padding) / int 100) * int 100
    /\ ((Fin rawMax === Fin rawMin) = true -> padding = int 0)
    /\ (forall z : Z,
          rawMin = inject_Z z -> rawMax = inject_Z z -> (Z.abs z <= 2 ^ 40)%Z ->
          minPrice cfg = int (100 * (z / 100))
          /\ maxPrice cfg = int (100 * - (- z / 100))
          /\ ((minPrice cfg === maxPrice cfg) = true <-> (z mod 100 = 0)%Z)
          /\ ((minPrice cfg === maxPrice cfg) = false ->
              maxPrice cfg = minPrice cfg + int 100)).
Proof.
  intros Hm Hne Hfin.
  destruct (finite_extremes _ Hne Hfin) as [a [b [Ea [Eb [Ia [Ib Hab]]]]]].
  exists a, b. intros ps padding cfg.
  unfold ps. rewrite <- prices_flat_map.
  assert (Hmin : minPrice cfg = floor ((Fin a - padding) / int 100) * int 100).
  { unfold cfg. rewrite (initializeData_config c md Hm Hne).
    cbn [chartConfig set_chartConfig minPrice]. now rewrite Ea, Eb. }
  assert (Hmax : maxPrice cfg = ceil ((Fin b + padding) / int 100) * int 100).
  { unfold cfg. rewrite (initializeData_config c md Hm Hne).
    cbn [chartConfig set_chartConfig maxPrice]. now rewrite Ea, Eb. }
  split; [exact Ia|]. split; [exact Ib|]. split; [exact Hab|].
  split; [exact Hmin|]. split; [exact Hmax|]. split.
  - intros Hflat. apply eqb_Fin in Hflat. unfold padding. cbn [sub].
    rewrite (round64_zero (b - a)) by (rewrite Hflat; ring).
    rewrite lit_tenth. cbn [mul]. apply round64_zero. ring.
  - intros z Eza Ezb Bz. subst a b.
    destruct (whole_floor_scale z z Bz Bz (Z.le_refl z)) as [F [EF [_ [_ HF]]]].
    destruct (whole_ceil_scale z z Bz Bz (Z.le_refl z)) as [C [EC [_ [_ HC]]]].
    specialize (HF eq_refl). specialize (HC eq_refl).
    assert (Emin : minPrice cfg = int (100 * F)).
    { etransitivity; [exact Hmin | exact EF]. }
    assert (Emax : maxPrice cfg = int (100 * C)).
    { etransitivity; [exact Hmax | exact EC]. }
    pose proof (Z.div_mod z 100 ltac:(lia)) as D1.
    pose proof (Z.mod_pos_bound z 100 ltac:(lia)) as B1.
    pose proof (Z.div_mod (- z) 100 ltac:(lia)) as D2.
    pose proof (Z.mod_pos_bound (- z) 100 ltac:(lia)) as B2.
    rewrite <- HF in D1. 
    assert (E2 : (- z / 100 = - C)%Z) by lia. rewrite E2 in D2.
    assert (Q1 : (minPrice cfg === maxPrice cfg) = true <-> (100 * F = 100 * C)%Z).
    { rewrite Emin, Emax. unfold int. rewrite eqb_Fin. apply inject_Z_injective. }
    rewrite <- HF, <- HC.
    split; [exact Emin|]. split; [exact Emax|]. split.
    + rewrite Q1. lia.
    + intros Hne'.
      assert (N : (100 * F <> 100 * C)%Z).
      { intros E. apply Q1 in E. congruence. }
      rewrite Emin, Emax. rewrite int_add by lia. f_equal. lia.
Qed.

Lemma yAxisValues_nth (M s : num) (i : nat) :
  (i < 7)%nat -> nth i (yAxisValues M s) NaN = M - of_nat i * s.
Proof.
  intros Hi. unfold yAxisValues.
  do 7 (destruct i as [|i]; [reflexivity|]). lia.
Qed.

(** The label value of index [i] for a whole upper bound [Mz] and a step
    between zero and the whole range [Rz]: two roundings, both finite. *)
Lemma label_value (Mz Rz : Z) (s : Q) (i : nat) :
  (Z.abs Mz <= 2 ^ 43)%Z -> (0 <= Rz <= 2 ^ 44)%Z ->
  (0 <= s <= inject_Z Rz)%Q -> (i <= 6)%nat ->
  exists t v : Q,
    int Mz - of_nat i * Fin s = Fin v
    /\ round64 (inject_Z (Z.of_nat i) * s) = Fin t
    /\ round64 (inject_Z Mz - t) = Fin v
    /\ (0 <= t <= inject_Z (6 * Rz))%Q.
Proof.
  intros HM HR [S0 S1] Hi.
  assert (I0 : (0 <= inject_Z (Z.of_nat i))%Q)
    by (change 0%Q with (inject_Z 0); rewrite <- Zle_Qle; lia).
  assert (I6 : (inject_Z (Z.of_nat i) <= 6)%Q)
    by (change 6%Q with (inject_Z 6); rewrite <- Zle_Qle; lia).
  destruct (round64_sandwich 0 (inject_Z (Z.of_nat i) * s) (inject_Z (6 * Rz))
              0 (inject_Z (6 * Rz)) round64_0)
    as [t [Et [T0 T1]]].
  { apply round64_int. lia. }
  { now apply Qmult_le_0_compat. }
  { rewrite inject_Z_mult. change (inject_Z 6) with 6%Q.
    apply Qle_trans with (6 * s)%Q.
    - now apply Qmult_le_compat_r.
    - lra. }
  destruct (round64_sandwich (inject_Z (Mz - 6 * Rz)) (inject_Z Mz - t) (inject_Z Mz)
              (inject_Z (Mz - 6 * Rz)) (inject_Z Mz))
    as [v [Ev _]].
  { apply round64_int. lia. }
  { apply round64_int. lia. }
  { rewrite inject_Z_sub. lra. }
  { lra. }
  exists t, v. unfold of_nat, int. cbn [mul]. rewrite Et. cbn [sub].
  repeat split; assumption.
Qed.


(** Without data, [initializeData] goes on with the sample data. *)
Lemma initializeData_None (c : Component) :
  marketData c = None ->
  initializeData toLocaleString c
  = initializeData toLocaleString (set_marketData (Some sampleMarketData) c).
Proof. intros H. unfold initializeData. now rewrite H. Qed.

(** With an empty series, [initializeData] changes nothing. *)
Lemma initializeData_empty (c : Component) (md : MarketData) :
  marketData c = Some md ->
  dataPoints md = [] ->
  initializeData toLocaleString c = c.
Proof.
  intros Hm He. unfold initializeData. rewrite Hm. cbv beta iota zeta.
  now rewrite Hm, He.
Qed.

(** C2 (amended).  When the input is null, [initializeData] substitutes the
    built-in sample data, and the render that follows publishes exactly 7
    candlesticks and 7 volume bars, one per point of the sample and in its
    order (closing prices 1200, 1230, 1210, 980, 1050, 1180, 1247).  An
    empty series is not replaced: [initializeData] leaves the component as
    it is and [renderChart] returns early, publishing nothing for it. *)
Theorem fallback_for_null (c : Component) :
  marketData c = None ->
  chartContainer c = true ->
  let c1 := initializeData toLocaleString c in
  let c2 := renderChart c1 in
  marketData c1 = Some sampleMarketData
  /\ List.length (candlesticks c2) = 7%nat
  /\ List.length (volumeBars c2) = 7%nat
  /\ map cs_data (candlesticks c2) = dataPoints sampleMarketData
  /\ map (fun k => close (cs_data k)) (candlesticks c2)
     = [int 1200; int 1230; int 1210; int 980; int 1050; int 1180; int 1247]
  /\ (forall c0 md, marketData c0 = Some md -> dataPoints md = [] ->
        initializeData toLocaleString c0 = c0 /\ renderChart c0 = c0).
Proof.
  intros Hn Hc c1 c2.
  assert (Hs : dataPoints sampleMarketData <> []) by discriminate.
  assert (E1 : c1 = initializeData toLocaleString
                      (set_marketData (Some sampleMarketData) c))
    by (apply initializeData_None, Hn).
  rewrite (initializeData_config (set_marketData (Some sampleMarketData) c)
             sampleMarketData eq_refl Hs) in E1.
  assert (Hm1 : marketData c1 = Some sampleMarketData) by now rewrite E1.
  assert (Hc1 : chartContainer c1 = true) by now rewrite E1.
  assert (E2 : map cs_data (candlesticks c2) = dataPoints sampleMarketData).
  { unfold c2. rewrite (renderChart_run c1 _ Hm1 Hc1 Hs).
    cbn [candlesticks set_elements]. rewrite map_map. apply elementsFrom_data. }
  split; [exact Hm1|]. split; [|split; [|split; [exact E2|split]]].
  - unfold c2. rewrite (renderChart_run c1 _ Hm1 Hc1 Hs).
    cbn [candlesticks set_elements]. now rewrite length_map, elementsFrom_length.
  - unfold c2. rewrite (renderChart_run c1 _ Hm1 Hc1 Hs).
    cbn [volumeBars set_elements]. now rewrite length_map, elementsFrom_length.
  - rewrite <- (map_map cs_data close), E2. reflexivity.
  - intros c0 md Hm He. split.
    + exact (initializeData_empty c0 md Hm He).
    + apply renderChart_skip. right; right. exists md. split; assumption.
Qed.

(** The x-axis labels after [initializeData]: replaced by the time labels
    only when their number differs from the number of points. *)
Lemma initializeData_xAxisLabels (c : Component) (md : MarketData) :
  marketData c = Some md ->
  dataPoints md <> [] ->
  xAxisLabels (chartConfig (initializeData toLocaleString c))
  = if Nat.eqb (List.length (xAxisLabels (chartConfig c)))
               (List.length (dataPoints md))
    then xAxisLabels (chartConfig c)
    else map time (dataPoints md).
Proof. intros Hm Hne. now rewrite (initializeData_config c md Hm Hne). Qed.

(** C8 (the code at the failing input).  A mounted chart that showed the
    sample data is given seven points labelled Mon to Sun: the x-axis labels
    stay those of the sample, not the time labels of the new series.  In
    general the labels are left as they were whenever their number equals
    the number of points. *)
Theorem xAxis_labels_stale :
  let c := setMarketData toLocaleString (Some weekSeries)
             (mount toLocaleString None true) in
  marketData c = Some weekSeries
  /\ xAxisLabels (chartConfig c)
     = ["6h ago"; "5h ago"; "4h ago"; "3h ago"; "2h ago"; "1h ago"; "Now"]
  /\ map time (dataPoints weekSeries)
     = ["Mon"; "Tue"; "Wed"; "Thu"; "Fri"; "Sat"; "Sun"]
  /\ xAxisLabels (chartConfig c) <> map time (dataPoints weekSeries)
  /\ (forall c0 md, marketData c0 = Some md -> dataPoints md <> [] ->
        List.length (xAxisLabels (chartConfig c0)) = List.length (dataPoints md) ->
        xAxisLabels (chartConfig (initializeData toLocaleString c0))
        = xAxisLabels (chartConfig c0)).
Proof.
  split; [vm_compute; reflexivity|]. split; [vm_compute; reflexivity|].
  split; [reflexivity|].
  split; [vm_compute; discriminate|].
  intros c0 md Hm Hne Hlen.
  rewrite (initializeData_xAxisLabels c0 md Hm Hne), Hlen.
  now rewrite Nat.eqb_refl.
Qed.

(** C1 (the code at the failing input).  For the flat series of one point
    at 100 the scale is [minPrice = maxPrice = 100] and every ordinate of
    the candlestick is [NaN]: the price range is zero and [toY] divides by
    it.  In general, over a zero price range [toY] maps no price to a finite
    number, and maps [minPrice] itself to [NaN]. *)
Theorem flat_series_not_finite :
  let c := mount toLocaleString (Some flatSeries) true in
  minPrice (chartConfig c) = int 100
  /\ maxPrice (chartConfig c) = int 100
  /\ map vertical (candlesticks c) = [(NaN, NaN, candle_red, NaN, NaN)]
  /\ (forall h m p : Q,
        isFinite (toY (Fin h) (Fin m) (Fin m - Fin m) (Fin p)) = false)
  /\ (forall h m : Q, toY (Fin h) (Fin m) (Fin m - Fin m) (Fin m) = NaN).
Proof.
  split; [vm_compute; reflexivity|]. split; [vm_compute; reflexivity|].
  split; [vm_compute; reflexivity|].
  split; [apply toY_degenerate | apply toY_degenerate_NaN].
Qed.

(** C7 (the code at the failing input).  Both resize paths test the width
    of the container and then install that width minus 80 as the chart
    width.  A mounted chart whose container becomes 50 pixels wide gets the
    chart width -30 and is rendered again with it, by the window handler
    and by the observer's callback alike: the slots have a negative width
    and five of the seven candles get a negative [left].  In general every
    whole container width from 1 to 80 installs a chart width that is not
    positive; only a container width that is itself not positive is
    ignored. *)
Theorem narrow_container_width_applied :
  let c := mount toLocaleString None false in
  let r := onResize (int 50) c in
  let o := mount toLocaleString None true in
  let s := resizeObserverCallback [int 50] o in
  chartWidth (chartConfig c) = int 1040
  /\ chartWidth (chartConfig r) = int (-30)
  /\ chartWidth (chartConfig s) = int (-30)
  /\ r = renderChart (set_chartConfig (set_chartWidth (int (-30)) (chartConfig c)) c)
  /\ (spacing r <? int 0) = true
  /\ map (fun k => cs_left k <? int 0) (candlesticks r)
     = [false; false; true; true; true; true; true]
  /\ candlesticks s = candlesticks r
  /\ (forall (c0 : Component) (w : Z),
        resizeObserver c0 = false -> chartContainer c0 = true ->
        (0 < w <= 80)%Z ->
        chartWidth (chartConfig (onResize (int w) c0)) = int (w - 80)
        /\ (chartWidth (chartConfig (onResize (int w) c0)) <=? int 0) = true)
  /\ (forall (c0 : Component) (px : num),
        (px <=? int 0) = true -> onResize px c0 = c0)
  /\ (forall (c0 : Component) (entries : list num),
        Forall (fun w => (w <=? int 0) = true) entries ->
        resizeObserverCallback entries c0 = c0).
Proof.
  split; [vm_compute; reflexivity|]. split; [vm_compute; reflexivity|].
  split; [vm_compute; reflexivity|]. split; [vm_compute; reflexivity|].
  split; [vm_compute; reflexivity|]. split; [vm_compute; reflexivity|].
  split; [vm_compute; reflexivity|]. split.
  - intros c0 w Ho Hc Hw.
    assert (E : chartWidth (chartConfig (onResize (int w) c0)) = int (w - 80)).
    { unfold onResize. rewrite Ho, Hc. cbn [negb andb].
      assert (G : (int w >? int 0) = true).
      { unfold gtb, int. apply ltb_Fin. rewrite <- Zlt_Qlt. lia. }
      rewrite G, renderChart_chartConfig.
      cbn [chartWidth chartConfig set_chartConfig set_chartWidth].
      apply int_sub. lia. }
    rewrite E. split; [reflexivity|].
    unfold int. apply leb_Fin. rewrite <- Zle_Qle. lia.
  - split.
    + intros c0 px Hpx. apply onResize_not_positive. now apply leb_gtb_false.
    + intros c0 entries Hall. apply resizeObserverCallback_not_positive.
      eapply Forall_impl; [|exact Hall].
      intros w Hw. now apply leb_gtb_false.
Qed.

End Scale.

(* ================================================================== *)
(** ** Concrete inputs *)
(* ================================================================== *)

(** The arithmetic of the embedding against the primitive floats of Rocq,
    which are the binary64 numbers of the machine: on every pair of
    operands of the list, the sum, the difference, the product and the
    quotient are the same numbers. *)
Example operations_agree_with_floats : forallb agrees operands = true.
Proof. vm_compute. reflexivity. Qed.

(** The sample data: raw prices from 891 to 1389, scale from 800 to 1500,
    seven slots of the width nearest to 1040/7.  The first candle starts at
    the number nearest to 590/7; the second, after three roundings, one unit
    in the last place above the number nearest to 1630/7. *)
Example sample_scale :
  let c := mount plainString None true in
  min_list (prices (dataPoints sampleMarketData)) = int 891
  /\ max_list (prices (dataPoints sampleMarketData)) = int 1389
  /\ minPrice (chartConfig c) = int 800
  /\ maxPrice (chartConfig c) = int 1500
  /\ spacing c = lit (1040 # 7)
  /\ map cs_left (firstn 2 (candlesticks c))
     = [lit (590 # 7); Fin (1024116544728503 # 4398046511104)]
  /\ lit (1630 # 7) = Fin (8192932357828023 # 35184372088832)
  /\ map wick_top (firstn 1 (candlesticks c)) = [int 164]
  /\ map wick_height (firstn 1 (candlesticks c)) = [int 36].
Proof. vm_compute. repeat split. Qed.

(** The y-axis of the sample data: seven values from 1500 down to 800; the
    step 700/6 is rounded, six steps are 700 again, and the last value is
    [minPrice]. *)
Example sample_labels :
  let cfg := chartConfig (mount plainString None true) in
  let step := (maxPrice cfg - minPrice cfg) / int 6 in
  step = lit (700 # 6)
  /\ of_nat 6 * step = int 700
  /\ map (fun v => (v <=? int 1500) && (int 800 <=? v))
         (yAxisValues (maxPrice cfg) step)
     = [true; true; true; true; true; true; true]
  /\ nth 0 (yAxisValues (maxPrice cfg) step) NaN = int 1500
  /\ nth 3 (yAxisValues (maxPrice cfg) step) NaN = int 1150
  /\ nth 6 (yAxisValues (maxPrice cfg) step) NaN = int 800.
Proof. vm_compute. repeat split. Qed.

(** The resize scenario: the window handler is told a container width of
    580, the chart width becomes 500, every slot shrinks from 1040/7 to
    500/7 (both rounded), and the vertical values of the seven candles stay
    as they were. *)
Example resize_scenario :
  let c := mount plainString None false in
  let c' := onResize (int 580) c in
  chartWidth (chartConfig c) = int 1040
  /\ chartWidth (chartConfig c') = int 500
  /\ spacing c = lit (1040 # 7)
  /\ spacing c' = lit (500 # 7)
  /\ List.length (candlesticks c') = 7%nat
  /\ map vertical (candlesticks c') = map vertical (candlesticks c)
  /\ map cs_left (firstn 2 (candlesticks c')) = [lit (320 # 7); lit (820 # 7)].
Proof. vm_compute. repeat split. Qed.

(** Rounding in the slot width.  For three points the slot widths at the
    chart widths 100 and 500 are the rounded thirds of 100 and of 500; they
    are in the proportion of the widths up to that rounding, and the cross
    products differ in the last place. *)
Example resize_three_points :
  let c := set_chartConfig (set_chartWidth (int 100) initialChartConfig)
             (newComponent (Some threeSeries)) in
  let c' := set_chartConfig (set_chartWidth (int 500) (chartConfig c)) c in
  spacing c = lit (100 # 3)
  /\ spacing c' = lit (500 # 3)
  /\ spacing c' * int 100 = Fin (2290649224533333 # 137438953472)
  /\ spacing c * int 500 = Fin (4581298449066667 # 274877906944)
  /\ (spacing c' * int 100 === spacing c * int 500) = false.
Proof. vm_compute. repeat split. Qed.

(** Rounding in the scale.  For prices from 0.3 to 3.3 the padding
    [(3.3 - 0.3) * 0.1] is rounded to a number just above 0.3, so
    [rawMin - padding] is just below zero and [minPrice] is -100. *)
Example fractional_prices_scale :
  let cfg := chartConfig (mount plainString (Some fractionSeries) true) in
  (lit (33 # 10) - lit (3 # 10)) * lit (1 # 10)
  = Fin (1351079888211149 # 4503599627370496)
  /\ lit (3 # 10) = Fin (5404319552844595 # 18014398509481984)
  /\ minPrice cfg = int (-100)
  /\ maxPrice cfg = int 100.
Proof. vm_compute. repeat split. Qed.

(** Beyond [2^53] the whole numbers are no longer all numbers of the format.
    For prices from [10^18] to the next number of the format the scale has
    [maxPrice > minPrice], yet the seven label values take three values
    only. *)
Example large_prices_labels :
  let cfg := chartConfig (mount plainString (Some largeSeries) true) in
  let values := yAxisValues (maxPrice cfg) ((maxPrice cfg - minPrice cfg) / int 6) in
  double (inject_Z (10 ^ 18))
  /\ double (inject_Z (10 ^ 18 + 128))
  /\ minPrice cfg = int (10 ^ 18)
  /\ maxPrice cfg = int (10 ^ 18 + 256)
  /\ values = [int (10 ^ 18 + 256); int (10 ^ 18 + 256); int (10 ^ 18 + 128);
               int (10 ^ 18 + 128); int (10 ^ 18 + 128); int (10 ^ 18);
               int (10 ^ 18)].
Proof. vm_compute. repeat split. Qed.

(** C2 (counterexample).  As first stated the property fails: an empty series is not replaced by the
    sample data, and the mounted chart publishes no element for it. *)
Lemma empty_series_not_replaced :
  let c := mount plainString (Some emptySeries) true in
  marketData c = Some emptySeries
  /\ candlesticks c = []
  /\ ~ (marketData c = Some sampleMarketData /\ List.length (candlesticks c) = 7%nat).
Proof.
  split; [reflexivity|]. split; [reflexivity|].
  intros [_ H]. discriminate H.
Qed.

Lemma fallback_for_null_witness :
  marketData (set_chartContainer true (newComponent None)) = None
  /\ chartContainer (set_chartContainer true (newComponent None)) = true
  /\ List.length
       (candlesticks
          (renderChart
             (initializeData plainString
                (set_chartContainer true (newComponent None))))) = 7%nat.
Proof.
  split; [reflexivity|]. split; [reflexivity|].
  exact (proj1 (proj2 (fallback_for_null plainString
                         (set_chartContainer true (newComponent None))
                         eq_refl eq_refl))).
Defined.

(** C3 (counterexample).  As first stated the property fails: on the flat series at 150 the raw minimum
    and maximum are both 150, yet [minPrice] is 100 and [maxPrice] is 200. *)
Lemma flat_series_bounds_differ :
  let c := mount plainString (Some flatSeries150) true in
  min_list (prices (dataPoints flatSeries150)) = int 150
  /\ max_list (prices (dataPoints flatSeries150)) = int 150
  /\ minPrice (chartConfig c) = int 100
  /\ maxPrice (chartConfig c) = int 200
  /\ (minPrice (chartConfig c) === maxPrice (chartConfig c)) = false.
Proof. vm_compute. repeat split. Qed.

Lemma scale_formulas_witness :
  marketData (newComponent (Some flatSeries150)) = Some flatSeries150
  /\ dataPoints flatSeries150 <> []
  /\ Forall (fun d => finitePrices d = true) (dataPoints flatSeries150)
  /\ exists rawMin rawMax : Q,
       let padding := (Fin rawMax - Fin rawMin) * lit (1 # 10) in
       minPrice (chartConfig (initializeData plainString
                                (newComponent (Some flatSeries150))))
       = floor ((Fin rawMin - padding) / int 100) * int 100.
Proof.
  split; [reflexivity|]. split; [discriminate|].
  split; [repeat constructor|].
  destruct (scale_formulas plainString (newComponent (Some flatSeries150))
              flatSeries150 eq_refl ltac:(discriminate)
              ltac:(repeat constructor))
    as [a [b H]].
  exists a, b. exact (proj1 (proj2 (proj2 (proj2 H)))).
Defined.



(** C5 (counterexample).  As first stated the property fails: a point whose low is above its high gets a
    negative wick height; and a point from -8.5e307 to 8.5e307, under the
    finite scale that [initializeData] computes for it, gets a body height
    that is [NaN], because the price range overflows. *)
Lemma inverted_point_negative_wick :
  let c := mount plainString (Some invertedSeries) true in
  let g := mount plainString (Some hugeSeries) true in
  map wick_height (candlesticks c) = [int (-120)]
  /\ (int 0 <=? int (-120)) = false
  /\ ~ (forall k, In k (candlesticks c) -> (int 0 <=? wick_height k) = true)
  /\ isFinite (minPrice (chartConfig g)) = true
  /\ isFinite (maxPrice (chartConfig g)) = true
  /\ (minPrice (chartConfig g) <? maxPrice (chartConfig g)) = true
  /\ maxPrice (chartConfig g) - minPrice (chartConfig g) = PosInf
  /\ map body_height (candlesticks g) = [NaN]
  /\ (int 2 <=? NaN) = false.
Proof.
  split; [vm_compute; reflexivity|]. split; [reflexivity|]. split.
  - intros H. specialize (H _ (or_introl eq_refl)).
    vm_compute in H. discriminate H.
  - vm_compute. repeat split.
Qed.

Lemma wick_and_body_heights_witness :
  chartHeight (chartConfig (mount plainString None true)) = Fin 360
  /\ minPrice (chartConfig (mount plainString None true)) = Fin 800
  /\ maxPrice (chartConfig (mount plainString None true)) = Fin 1500
  /\ (0 <= 360)%Q
  /\ (800 < 1500)%Q
  /\ (int 2 <=? body_height
                  (fst (createCandlestick (mount plainString None true)
                          (mkPoint "6h ago" 1180 1220 1150 1200 45) 0))) = true
  /\ (int 0 <=? wick_height
                  (fst (createCandlestick (mount plainString None true)
                          (mkPoint "6h ago" 1180 1220 1150 1200 45) 0))) = true.
Proof.
  split; [vm_compute; reflexivity|]. split; [vm_compute; reflexivity|].
  split; [vm_compute; reflexivity|]. split; [discriminate|].
  split; [reflexivity|].
  pose proof (wick_and_body_heights (mount plainString None true)
                (mkPoint "6h ago" 1180 1220 1150 1200 45) 0 360 800 1500
                ltac:(vm_compute; reflexivity) ltac:(vm_compute; reflexivity)
                ltac:(vm_compute; reflexivity) ltac:(discriminate) eq_refl)
    as [B W].
  split.
  - apply B; vm_compute; reflexivity.
  - apply W; vm_compute; reflexivity.
Defined.


Lemma layout_is_pure_witness :
  marketData (mount plainString None true) = Some sampleMarketData
  /\ marketData (set_chartContainer true (ngOnInit plainString (newComponent None)))
     = Some sampleMarketData
  /\ chartConfig (mount plainString None true)
     = chartConfig (set_chartContainer true (ngOnInit plainString (newComponent None)))
  /\ chartContainer (mount plainString None true) = true
  /\ chartContainer (set_chartContainer true (ngOnInit plainString (newComponent None)))
     = true
  /\ dataPoints sampleMarketData <> []
  /\ candlesticks (renderChart (mount plainString None true))
     = candlesticks
         (renderChart
            (set_chartContainer true (ngOnInit plainString (newComponent None)))).
Proof.
  repeat (split; [reflexivity || discriminate|]).
  exact (proj1 (proj2
           (layout_is_pure (mount plainString None true)
              (set_chartContainer true (ngOnInit plainString (newComponent None)))
              sampleMarketData eq_refl eq_refl eq_refl eq_refl eq_refl
              ltac:(discriminate)))).
Defined.


(* ================================================================== *)
(** * The tooltip, the event handlers and the life of the component *)
(* ================================================================== *)

(** ** The tooltip element and the pointer events *)

(** The tooltip [div]: the property and the three styles that the
    component sets on it. *)
Record Tooltip : Type := {
  innerHTML : string;
  tt_display : string;
  tt_left : num;
  tt_top : num
}.

(** The two coordinates of a [MouseEvent] that [showTooltip] reads. *)
Record MouseEvent : Type := {
  pageX : num;
  pageY : num
}.

(** A line feed, as in the template literal of [showTooltip]. *)
Definition LF : string := String (Ascii.ascii_of_nat 10) EmptyString.

(** [showTooltip] and [hideTooltip] act on the tooltip element alone;
    [None] stands for an unresolved [@ViewChild('tooltip')]. *)
Section Tooltip.

Variable toLocaleString : num -> string.

(** The template literal [tooltipContent]. *)
Definition tooltipContent (data : CandlestickData) : string :=
  (LF ++ "      <strong>" ++ time data ++ "</strong><br>" ++ LF
   ++ "      Open: " ++ toLocaleString (open data) ++ " gold<br>" ++ LF
   ++ "      High: " ++ toLocaleString (high data) ++ " gold<br>" ++ LF
   ++ "      Low: " ++ toLocaleString (low data) ++ " gold<br>" ++ LF
   ++ "      Close: " ++ toLocaleString (close data) ++ " gold<br>" ++ LF
   ++ "      Volume: " ++ toLocaleString (volume data) ++ " items" ++ LF
   ++ "    ")%string.

(** Shows the tooltip with data information. *)
Definition showTooltip (tooltip : option Tooltip) (event : MouseEvent)
    (data : CandlestickData) : option Tooltip :=
  match tooltip with
  | None => None
  | Some _ =>
      Some {| innerHTML := tooltipContent data;
              tt_display := "block";
              tt_left := pageX event + int 10;
              tt_top := pageY event - int 10 |}
  end.

(** Hides the tooltip. *)
Definition hideTooltip (tooltip : option Tooltip) : option Tooltip :=
  match tooltip with
  | None => None
  | Some t =>
      Some {| innerHTML := innerHTML t;
              tt_display := "none";
              tt_left := tt_left t;
              tt_top := tt_top t |}
  end.

(** The listeners that [createCandlestick] attaches to a candlestick:
    [mouseenter] shows the tooltip of the data point captured when the
    element was built, [mouseleave] hides it. *)
Definition mouseenter (k : Candlestick) (e : MouseEvent)
    (tooltip : option Tooltip) : option Tooltip :=
  showTooltip tooltip e (cs_data k).

Definition mouseleave (k : Candlestick) (tooltip : option Tooltip)
    : option Tooltip :=
  hideTooltip tooltip.

(** ** What happens to a component *)

(** What the host can do to a component, in any order: bind a new value to
    the input (a first change or a later one), run [ngOnInit], resolve the
    view and run [ngAfterViewInit] (with or without [ResizeObserver] in the
    environment), resize the window, deliver entries to the resize
    observer, destroy the component. *)
Inductive Event : Type :=
| BindInput (md : option MarketData) (firstChange : bool)
| Init
| ViewInit (hasContainer hasResizeObserver : bool)
| WindowResize (containerWidth : num)
| ObserverEntries (entries : list num)
| Destroy.

(** The component after one event.  The observer's callback exists only
    once [setupResizeObserver] has created the observer. *)
Definition handle (c : Component) (e : Event) : Component :=
  match e with
  | BindInput md firstChange =>
      ngOnChanges toLocaleString (Some firstChange) (set_marketData md c)
  | Init => ngOnInit toLocaleString c
  | ViewInit hasContainer hasResizeObserver =>
      ngAfterViewInit hasResizeObserver (set_chartContainer hasContainer c)
  | WindowResize containerWidth => onResize containerWidth c
  | ObserverEntries entries =>
      if resizeObserver c then resizeObserverCallback entries c else c
  | Destroy => ngOnDestroy c
  end.

(** The component after a sequence of events. *)
Definition run (c : Component) (events : list Event) : Component :=
  fold_left handle events c.

End Tooltip.

(** The last entry of positive width, if any: the one whose width the
    observer's callback leaves in the configuration. *)
Definition lastPositive (entries : list num) : option num :=
  fold_left (fun acc width => if width >? int 0 then Some width else acc)
            entries None.

(** One resize step: set the chart width from a container width and
    render. *)
Definition resizeTo (width : num) (c : Component) : Component :=
  renderChart (set_chartConfig
                 (set_chartWidth (width - int 80) (chartConfig c)) c).

(** The volume bars stand at the [left] of their candlesticks. *)
Definition aligned (c : Component) : Prop :=
  map vb_left (volumeBars c) = map cs_left (candlesticks c).

(** What holds of a component whatever happens to it. *)
Definition invariant (c : Component) : Prop :=
  aligned c
  /\ chartHeight (chartConfig c) = int 360
  /\ candleWidth (chartConfig c) = int 20
  /\ List.length (yAxisLabels (chartConfig c)) = 7%nat
  /\ (chartContainer c = true -> initialized c = true)
  /\ (resizeObserver c = true -> initialized c = true)
  /\ (candlesticks c <> [] -> initialized c = true).

(* ================================================================== *)
(** ** Rendering *)
(* ================================================================== *)

Lemma elementsFrom_aligned (c : Component) (xs : list CandlestickData) (i : nat) :
  map (fun e => vb_left (snd e)) (elementsFrom c xs i)
  = map (fun e => cs_left (fst e)) (elementsFrom c xs i).
Proof.
  revert i. induction xs as [|x xs IH]; intros i; [reflexivity|].
  cbn [elementsFrom map]. f_equal; try reflexivity; apply IH.
Qed.

(** [renderChart] writes the two element lists and nothing else. *)
Lemma renderChart_frame (c : Component) :
  marketData (renderChart c) = marketData c
  /\ chartConfig (renderChart c) = chartConfig c
  /\ chartContainer (renderChart c) = chartContainer c
  /\ initialized (renderChart c) = initialized c
  /\ resizeObserver (renderChart c) = resizeObserver c.
Proof.
  destruct (renderChart_cases c) as [H | [md [Hm [Hc Hne]]]].
  - rewrite H. repeat split.
  - rewrite (renderChart_run c md Hm Hc Hne). repeat split.
Qed.

Lemma renderChart_aligned (c : Component) : aligned c -> aligned (renderChart c).
Proof.
  intros A. destruct (renderChart_cases c) as [H | [md [Hm [Hc Hne]]]].
  - now rewrite H.
  - rewrite (renderChart_run c md Hm Hc Hne). unfold aligned.
    cbn [volumeBars candlesticks set_elements]. rewrite !map_map.
    apply elementsFrom_aligned.
Qed.

Lemma renderChart_decide (c : Component) :
  (exists md, marketData c = Some md /\ chartContainer c = true
              /\ dataPoints md <> [])
  \/ (marketData c = None \/ chartContainer c = false
      \/ exists md, marketData c = Some md /\ dataPoints md = []).
Proof.
  destruct (marketData c) as [md|] eqn:Hm; [|right; now left].
  destruct (chartContainer c) eqn:Hc; [|right; right; now left].
  destruct (dataPoints md) as [|x xs] eqn:E.
  - right; right; right. exists md. split; [reflexivity | exact E].
  - left. exists md. repeat split. rewrite E. discriminate.
Qed.

(** A second resize step makes the first one void. *)
Lemma resizeTo_resizeTo (w1 w2 : num) (c : Component) :
  resizeTo w2 (resizeTo w1 c) = resizeTo w2 c.
Proof.
  unfold resizeTo.
  set (c1 := set_chartConfig (set_chartWidth (w1 - int 80) (chartConfig c)) c).
  set (c2 := set_chartConfig (set_chartWidth (w2 - int 80) (chartConfig c)) c).
  destruct (renderChart_decide c1) as [[md [Hm [Hc Hne]]] | Hskip].
  - rewrite (renderChart_run c1 md Hm Hc Hne).
    set (ks := map fst (elementsFrom c1 (dataPoints md) 0)).
    set (vs := map snd (elementsFrom c1 (dataPoints md) 0)).
    change (renderChart (set_elements ks vs c2) = renderChart c2).
    rewrite (renderChart_run (set_elements ks vs c2) md Hm Hc Hne),
            (renderChart_run c2 md Hm Hc Hne).
    rewrite (elementsFrom_ext (set_elements ks vs c2) c2 _ 0 eq_refl eq_refl).
    reflexivity.
  - rewrite (renderChart_skip c1 Hskip). reflexivity.
Qed.

Lemma fold_resize (entries : list num) :
  forall (acc : option num) (c : Component),
    fold_left (fun s width =>
                 if width >? int 0
                 then renderChart (set_chartConfig
                                     (set_chartWidth (width - int 80) (chartConfig s)) s)
                 else s)
              entries
              (match acc with Some w => resizeTo w c | None => c end)
    = match fold_left (fun acc width => if width >? int 0 then Some width else acc)
                      entries acc with
      | Some w => resizeTo w c
      | None => c
      end.
Proof.
  induction entries as [|w ws IH]; intros acc c; [reflexivity|].
  cbn [fold_left]. destruct (w >? int 0) eqn:E; [|apply IH].
  rewrite <- (IH (Some w) c). f_equal.
  destruct acc as [w0|]; [apply resizeTo_resizeTo | reflexivity].
Qed.

(** X1.  When [renderChart] runs (there is a container and at least one
    point) it publishes one candlestick and one volume bar per point, in
    series order: the candlestick of index [i] carries the point of index
    [i], and its volume bar stands at the same [left].  The data, the
    configuration and the flags of the component are left as they were. *)
Theorem render_publishes_series (c : Component) (md : MarketData) :
  marketData c = Some md ->
  chartContainer c = true ->
  dataPoints md <> [] ->
  List.length (candlesticks (renderChart c)) = List.length (dataPoints md)
  /\ List.length (volumeBars (renderChart c)) = List.length (dataPoints md)
  /\ map cs_data (candlesticks (renderChart c)) = dataPoints md
  /\ map vb_left (volumeBars (renderChart c))
     = map cs_left (candlesticks (renderChart c))
  /\ marketData (renderChart c) = Some md
  /\ chartConfig (renderChart c) = chartConfig c
  /\ initialized (renderChart c) = initialized c
  /\ resizeObserver (renderChart c) = resizeObserver c.
Proof.
  intros Hm Hc Hne. rewrite (renderChart_run c md Hm Hc Hne).
  cbn [candlesticks volumeBars marketData chartConfig initialized
       resizeObserver set_elements].
  rewrite !length_map, elementsFrom_length, !map_map, elementsFrom_data.
  repeat split; try assumption. apply elementsFrom_aligned.
Qed.

(** X2.  The resize observer's callback keeps only the last entry of
    positive width: delivering a list of entries leaves the component as
    one resize step to that entry does (chart width set to its width minus
    80, then a render), and leaves it untouched when no entry has a
    positive width. *)
Theorem observer_last_positive_entry (c : Component) (entries : list num) :
  resizeObserverCallback entries c
  = match lastPositive entries with
    | Some width =>
        renderChart (set_chartConfig
                       (set_chartWidth (width - int 80) (chartConfig c)) c)
    | None => c
    end.
Proof. exact (fold_resize entries None c). Qed.

(** X3.  Once the view is initialised in an environment that has
    [ResizeObserver], the window resize handler never changes the
    component: either the observer was created, or there is no container
    and the handler returns at once. *)
Theorem window_resize_inert_with_observer (c : Component) (px : num) :
  onResize px (ngAfterViewInit true c) = ngAfterViewInit true c.
Proof.
  unfold ngAfterViewInit, setupResizeObserver, onResize.
  destruct (renderChart_frame (set_initialized true c)) as [_ [_ [Hc _]]].
  cbn [andb]. destruct (chartContainer (renderChart (set_initialized true c))) eqn:E.
  - reflexivity.
  - rewrite E, andb_false_r. reflexivity.
Qed.


(* ================================================================== *)
(** ** Horizontal placement, bodies and volume bars *)
(* ================================================================== *)

Lemma leb_not_NegInf (q : Q) (a : num) : (Fin q <=? a) = true -> a <> NegInf.
Proof. intros H E. subst a. discriminate H. Qed.

(** Addition is monotone, away from [-Infinity]. *)
Lemma add_mono (a a' b b' : num) :
  (a <=? a') = true -> (b <=? b') = true ->
  a <> NegInf -> b <> NegInf ->
  (a + b <=? a' + b') = true.
Proof.
  intros Ha Hb Na Nb.
  destruct a as [x| | |]; try discriminate Ha; try congruence;
    destruct a' as [x'| | |]; try discriminate Ha;
    destruct b as [y| | |]; try discriminate Hb; try congruence;
    destruct b' as [y'| | |]; try discriminate Hb; try reflexivity;
    cbn [add].
  - apply round64_mono. apply leb_Fin in Ha, Hb. lra.
  - pose proof (round64_not_NaN (x + y)). now destruct (round64 (x + y)).
  - pose proof (round64_not_NaN (x + y)). now destruct (round64 (x + y)).
  - pose proof (round64_not_NaN (x + y)). now destruct (round64 (x + y)).
Qed.

(** Multiplication by a positive constant is monotone. *)
Lemma mul_pos_mono (a b : num) (k : Q) :
  (0 < k)%Q -> (a <=? b) = true -> (a * Fin k <=? b * Fin k) = true.
Proof.
  intros Hk H. pose proof (Qsign_pos k Hk) as Sk.
  destruct a as [x| | |]; try discriminate H;
    destruct b as [y| | |]; try discriminate H;
    cbn [mul]; rewrite ?Sk; cbn [inf_of_sign sign_mul]; try reflexivity.
  - apply round64_mono. apply leb_Fin in H.
    apply Qmult_le_compat_r; [exact H | now apply Qlt_le_weak].
  - pose proof (round64_not_NaN (x * k)). now destruct (round64 (x * k)).
  - pose proof (round64_not_NaN (y * k)). now destruct (round64 (y * k)).
Qed.

(** Half of a rounded number that is not negative. *)
Lemma half_nonneg (y : Q) :
  (0 <= y)%Q -> (int 0 <=? round64 y / int 2) = true.
Proof.
  intros Hy. pose proof (round64_nonneg y Hy) as N.
  destruct (round64 y) as [b| | |]; try discriminate N; [|reflexivity].
  apply leb_Fin in N. change (inject_Z 0) with 0%Q in N.
  unfold int. rewrite div_Fin by (intros Z; discriminate Z).
  apply round64_nonneg. apply Qle_shift_div_l; [reflexivity | lra].
Qed.

(** X4.  With a finite slot width that is at least the candle width, itself
    not negative, every candle starts at or after the left margin 20, and
    the candles follow one another from left to right in series order: the
    candle of index [i + 1] never starts before the candle of index [i]. *)
Theorem candles_side_by_side (c : Component) (s cw : Q)
    (d d' : CandlestickData) (i : nat) :
  spacing c = Fin s ->
  candleWidth (chartConfig c) = Fin cw ->
  (0 <= cw)%Q ->
  (cw <= s)%Q ->
  let x := cs_left (fst (createCandlestick c d i)) in
  let x' := cs_left (fst (createCandlestick c d' (S i))) in
  x = int 20 + of_nat i * Fin s + (Fin s - Fin cw) / int 2
  /\ (int 20 <=? x) = true
  /\ (x <=? x') = true.
Proof.
  intros Es Ecw Hcw Hs x x'.
  assert (X : forall e j, cs_left (fst (createCandlestick c e j))
                          = int 20 + of_nat j * Fin s + (Fin s - Fin cw) / int 2).
  { intros e j. unfold createCandlestick. cbn [fst cs_left].
    fold (spacing c). now rewrite Es, Ecw. }
  unfold x, x'. rewrite !X. split; [reflexivity|].
  assert (T : forall j, (int 0 <=? of_nat j * Fin s) = true).
  { intros j. unfold of_nat, int. cbn [mul]. apply round64_nonneg.
    apply Qmult_le_0_compat; [|lra].
    change 0%Q with (inject_Z 0). rewrite <- Zle_Qle. lia. }
  assert (E20 : int 20 + int 0 = int 20) by (vm_compute; reflexivity).
  assert (B : (int 0 <=? (Fin s - Fin cw) / int 2) = true).
  { cbn [sub]. apply half_nonneg. lra. }
  assert (A : forall j, (int 20 <=? int 20 + of_nat j * Fin s) = true).
  { intros j. rewrite <- E20 at 1.
    apply add_mono; [reflexivity | apply T | discriminate | discriminate]. }
  split.
  - rewrite <- E20 at 1.
    apply add_mono; [apply A | exact B | discriminate | discriminate].
  - apply add_mono.
    + apply add_mono; [reflexivity | | discriminate |].
      * unfold of_nat, int. cbn [mul]. apply round64_mono.
        apply Qmult_le_compat_r; [|lra]. rewrite <- Zle_Qle. lia.
      * exact (leb_not_NegInf _ _ (T i)).
    + apply leb_refl. exact (proj2 (leb_not_NaN _ _ B)).
    + exact (leb_not_NegInf _ _ (A i)).
    + exact (leb_not_NegInf _ _ B).
Qed.

(** The ordinate of a finite price is a number of the format. *)
Lemma toY_double (H mn r pr : num) (y : Q) : toY H mn r pr = Fin y -> double y.
Proof.
  intros E.
  destruct (toY_inv _ _ _ _ _ E) as [? [? [? [? [? [d [_ [_ [_ [_ [_ [_ Ey]]]]]]]]]]]].
  exact (round64_double _ _ Ey).
Qed.

(** X5.  Under a scale with [minPrice < maxPrice] and a chart height that is
    not negative, the body of a candle whose open and close ordinates are
    finite starts at the ordinate of the higher of its open and close; and
    when the open and the close lie between the low and the high, and the
    four ordinates are finite, the body starts inside the wick: at or below
    the ordinate of the high, at or above the ordinate of the low. *)
Theorem body_between_open_and_close (c : Component) (d : CandlestickData)
    (i : nat) (h m M : Q) :
  chartHeight (chartConfig c) = Fin h ->
  minPrice (chartConfig c) = Fin m ->
  maxPrice (chartConfig c) = Fin M ->
  (0 <= h)%Q ->
  (m < M)%Q ->
  let k := fst (createCandlestick c d i) in
  let Y := toY (chartHeight (chartConfig c)) (minPrice (chartConfig c))
               (maxPrice (chartConfig c) - minPrice (chartConfig c)) in
  (isFinite (Y (open d)) = true -> isFinite (Y (close d)) = true ->
   body_top k = Y (max2 (open d) (close d)))
  /\ ((low d <=? open d) = true -> (open d <=? high d) = true ->
      (low d <=? close d) = true -> (close d <=? high d) = true ->
      isFinite (Y (open d)) = true -> isFinite (Y (close d)) = true ->
      isFinite (Y (low d)) = true -> isFinite (Y (high d)) = true ->
      (wick_top k <=? body_top k) = true
      /\ (body_top k <=? Y (low d)) = true).
Proof.
  intros EH Em EM Hh HmM k Y.
  assert (Hr : (int 0 <=? Fin M - Fin m) = true)
    by (cbn [sub]; apply round64_nonneg; lra).
  assert (Etop : body_top k = min2 (Y (open d)) (Y (close d))) by reflexivity.
  assert (Ewt : wick_top k = Y (high d)) by reflexivity.
  assert (Top : isFinite (Y (open d)) = true -> isFinite (Y (close d)) = true ->
                exists o cl yo yc t yt,
                  open d = Fin o /\ close d = Fin cl
                  /\ Y (Fin o) = Fin yo /\ Y (Fin cl) = Fin yc
                  /\ max2 (Fin o) (Fin cl) = Fin t /\ Y (Fin t) = Fin yt
                  /\ (o <= t)%Q /\ (cl <= t)%Q /\ (t = o \/ t = cl)
                  /\ min2 (Fin yo) (Fin yc) = Fin yt).
  { intros Fo Fc.
    destruct (isFinite_Fin _ Fo) as [yo Eo], (isFinite_Fin _ Fc) as [yc Ec].
    pose proof Eo as Eo'. pose proof Ec as Ec'.
    unfold Y in Eo', Ec'. rewrite EH, Em, EM in Eo', Ec'.
    destruct (toY_inv _ _ _ _ _ Eo') as [? [? [o [? [? [? [_ [_ [Ho _]]]]]]]]].
    destruct (toY_inv _ _ _ _ _ Ec') as [? [? [cl [? [? [? [_ [_ [Hc _]]]]]]]]].
    rewrite Ho in Eo, Eo'. rewrite Hc in Ec, Ec'.
    pose proof (toY_double _ _ _ _ _ Eo') as Do.
    pose proof (toY_double _ _ _ _ _ Ec') as Dc.
    exists o, cl, yo, yc.
    unfold max2, min2, cmp. destruct (o ?= cl)%Q eqn:E.
    - apply Qeq_alt in E. exists o, yo.
      assert (L : (yo <= yc)%Q)
        by (apply (toY_antitone h m _ cl o yc yo Hh Hr); [lra | assumption | assumption]).
      repeat split; try assumption; try lra; [now left|].
      destruct (yo ?= yc)%Q eqn:E'; try reflexivity.
      apply Qgt_alt in E'. lra.
    - apply Qlt_alt in E. exists cl, yc.
      assert (L : (yc <= yo)%Q)
        by (apply (toY_antitone h m _ o cl yo yc Hh Hr); [lra | assumption | assumption]).
      repeat split; try assumption; try lra; [now right|].
      destruct (yo ?= yc)%Q eqn:E'; try reflexivity.
      + apply Qeq_alt in E'. f_equal. now apply double_eq.
      + apply Qlt_alt in E'. lra.
    - apply Qgt_alt in E. exists o, yo.
      assert (L : (yo <= yc)%Q)
        by (apply (toY_antitone h m _ cl o yc yo Hh Hr); [lra | assumption | assumption]).
      repeat split; try assumption; try lra; [now left|].
      destruct (yo ?= yc)%Q eqn:E'; try reflexivity.
      apply Qgt_alt in E'. lra. }
  split.
  - intros Fo Fc.
    destruct (Top Fo Fc)
      as [o [cl [yo [yc [t [yt [Ho [Hc [Eo [Ec [Et [Eyt [_ [_ [_ Emin]]]]]]]]]]]]]]].
    rewrite Etop, Ho, Hc, Et, Eo, Ec, Eyt. exact Emin.
  - intros H1 H2 H3 H4 Fo Fc Fl Fh.
    destruct (Top Fo Fc)
      as [o [cl [yo [yc [t [yt [Ho [Hc [Eo [Ec [Et [Eyt [Hot [Hct [Hcase Emin]]]]]]]]]]]]]]].
    destruct (isFinite_Fin _ Fl) as [yl El], (isFinite_Fin _ Fh) as [yh Eh].
    pose proof El as El'. pose proof Eh as Eh'.
    unfold Y in El', Eh', Eyt. rewrite EH, Em, EM in El', Eh', Eyt.
    destruct (toY_inv _ _ _ _ _ El') as [? [? [lo [? [? [? [_ [_ [Hlo _]]]]]]]]].
    destruct (toY_inv _ _ _ _ _ Eh') as [? [? [hi [? [? [? [_ [_ [Hhi _]]]]]]]]].
    rewrite Hlo in El'. rewrite Hhi in Eh'.
    rewrite Ho, Hc, Hlo, Hhi in *.
    apply leb_Fin in H1, H2, H3, H4.
    rewrite Etop, Ewt, Eo, Ec, Emin, El, Eh.
    assert (Hth : (t <= hi)%Q) by (destruct Hcase; subst t; assumption).
    assert (Hlt : (lo <= t)%Q) by (destruct Hcase; subst t; assumption).
    split; apply leb_Fin.
    + exact (toY_antitone h m _ t hi yt yh Hh Hr Hth Eyt Eh').
    + exact (toY_antitone h m _ lo t yl yt Hh Hr Hlt El' Eyt).
Qed.

(** X6.  The height of a volume bar is [volume / 250 * 60] whatever the
    component, the scale, the chart width and the index: it never decreases
    when the volume grows, is not negative for a volume that is not, is 0 at
    a volume of 0 and 60 at a volume of 250, and is not capped beyond. *)
Theorem volume_bar_height (c1 c2 : Component) (d1 d2 : CandlestickData)
    (i1 i2 : nat) (v1 v2 : Q) :
  volume d1 = Fin v1 ->
  volume d2 = Fin v2 ->
  let h1 := vb_height (snd (createCandlestick c1 d1 i1)) in
  let h2 := vb_height (snd (createCandlestick c2 d2 i2)) in
  h1 = Fin v1 / int 250 * int 60
  /\ ((v1 <= v2)%Q -> (h1 <=? h2) = true)
  /\ ((0 <= v1)%Q -> (int 0 <=? h1) = true)
  /\ ((250 <= v1)%Q -> (int 60 <=? h1) = true)
  /\ ((v1 == 0)%Q -> h1 = int 0)
  /\ ((v1 == 250)%Q -> h1 = int 60)
  /\ vb_left (snd (createCandlestick c1 d1 i1))
     = cs_left (fst (createCandlestick c1 d1 i1)).
Proof.
  intros E1 E2 h1 h2.
  assert (R1 : h1 = round64 (v1 / 250) * Fin 60).
  { unfold h1, createCandlestick. cbn [snd vb_height]. rewrite E1.
    unfold int. now rewrite div_Fin by (intros Z; discriminate Z). }
  assert (R2 : h2 = round64 (v2 / 250) * Fin 60).
  { unfold h2, createCandlestick. cbn [snd vb_height]. rewrite E2.
    unfold int. now rewrite div_Fin by (intros Z; discriminate Z). }
  assert (G : forall a b, (a <= b)%Q ->
              (round64 (a / 250) * Fin 60 <=? round64 (b / 250) * Fin 60) = true).
  { intros a b Hab. apply mul_pos_mono; [reflexivity|].
    apply round64_mono. unfold Qdiv. apply Qmult_le_compat_r; [exact Hab | discriminate]. }
  assert (G0 : round64 (0 / 250) * Fin 60 = int 0) by (vm_compute; reflexivity).
  assert (G250 : round64 (250 / 250) * Fin 60 = int 60) by (vm_compute; reflexivity).
  split; [|split; [|split; [|split; [|split; [|split; [|reflexivity]]]]]].
  - unfold h1, createCandlestick. cbn [snd vb_height]. now rewrite E1.
  - intros H. rewrite R1, R2. now apply G.
  - intros H. rewrite R1, <- G0. now apply G.
  - intros H. rewrite R1, <- G250. now apply G.
  - intros H. rewrite R1, <- G0. f_equal. apply round64_proper. now rewrite H.
  - intros H. rewrite R1, <- G250. f_equal. apply round64_proper. now rewrite H.
Qed.
(* ================================================================== *)
(** ** Data changes *)
(* ================================================================== *)

Section Life.

Variable toLocaleString : num -> string.

(** The three ways [initializeData] can go: an empty series (nothing
    changes), a series of at least one point, or no data (the sample). *)
Lemma initializeData_cases (c : Component) :
  (initializeData toLocaleString c = c
   /\ exists md, marketData c = Some md /\ dataPoints md = [])
  \/ exists c0 md,
       (c0 = c \/ (marketData c = None
                   /\ c0 = set_marketData (Some sampleMarketData) c))
       /\ marketData c0 = Some md
       /\ dataPoints md <> []
       /\ initializeData toLocaleString c = initializeData toLocaleString c0.
Proof.
  destruct (marketData c) as [md|] eqn:Hm.
  - destruct (dataPoints md) as [|x xs] eqn:E.
    + left. split; [|exists md; split; [reflexivity | exact E]].
      exact (initializeData_empty toLocaleString c md Hm E).
    + right. exists c, md. split; [now left|]. split; [exact Hm|].
      split; [rewrite E; discriminate | reflexivity].
  - right. exists (set_marketData (Some sampleMarketData) c), sampleMarketData.
    split; [right; split; reflexivity|]. split; [reflexivity|].
    split; [discriminate|]. apply initializeData_None, Hm.
Qed.

(** [initializeData] writes the data (when there is none) and four fields
    of the configuration, and nothing else. *)
Lemma initializeData_frame (c : Component) :
  candlesticks (initializeData toLocaleString c) = candlesticks c
  /\ volumeBars (initializeData toLocaleString c) = volumeBars c
  /\ chartContainer (initializeData toLocaleString c) = chartContainer c
  /\ initialized (initializeData toLocaleString c) = initialized c
  /\ resizeObserver (initializeData toLocaleString c) = resizeObserver c
  /\ chartHeight (chartConfig (initializeData toLocaleString c))
     = chartHeight (chartConfig c)
  /\ chartWidth (chartConfig (initializeData toLocaleString c))
     = chartWidth (chartConfig c)
  /\ candleWidth (chartConfig (initializeData toLocaleString c))
     = candleWidth (chartConfig c).
Proof.
  destruct (initializeData_cases c) as [[E _] | [c0 [md [Hc0 [Hm [Hne E]]]]]].
  - rewrite E. repeat split.
  - rewrite E, (initializeData_config toLocaleString c0 md Hm Hne).
    destruct Hc0 as [-> | [_ ->]]; repeat split.
Qed.

Lemma yAxisValues_length (M s : num) : List.length (yAxisValues M s) = 7%nat.
Proof. reflexivity. Qed.

(** X7.  After [initializeData] on a series of at least one point (the
    sample included), there are exactly 7 y-axis labels and as many x-axis
    labels as points; the x-axis labels are the time labels of the points
    whenever their number had to change. *)
Theorem label_counts (c : Component) (md : MarketData) :
  marketData (initializeData toLocaleString c) = Some md ->
  dataPoints md <> [] ->
  List.length (yAxisLabels (chartConfig (initializeData toLocaleString c))) = 7%nat
  /\ List.length (xAxisLabels (chartConfig (initializeData toLocaleString c)))
     = List.length (dataPoints md)
  /\ (List.length (xAxisLabels (chartConfig c)) <> List.length (dataPoints md) ->
      xAxisLabels (chartConfig (initializeData toLocaleString c))
      = map time (dataPoints md)).
Proof.
  intros Hm' Hne'.
  destruct (initializeData_cases c) as [[E [md0 [Hm0 He]]] | [c0 [md0 [Hc0 [Hm [Hne E]]]]]].
  - rewrite E in Hm'. congruence.
  - assert (Ecfg : chartConfig c0 = chartConfig c)
      by (destruct Hc0 as [-> | [_ ->]]; reflexivity).
    rewrite E in Hm' |- *.
    rewrite (initializeData_config toLocaleString c0 md0 Hm Hne) in Hm' |- *.
    cbn [marketData set_chartConfig] in Hm'.
    assert (md0 = md) by congruence. subst md0.
    cbn [chartConfig set_chartConfig yAxisLabels xAxisLabels]. rewrite Ecfg.
    split; [now rewrite length_map|].
    destruct (Nat.eqb _ _) eqn:B.
    + apply Nat.eqb_eq in B. split; [exact B | intros N; contradiction].
    + split; [now rewrite length_map | reflexivity].
Qed.

(** X8.  [initializeData] is idempotent: a second run finds the data, the
    scale and the labels as the first one left them. *)
Theorem initializeData_idempotent (c : Component) :
  initializeData toLocaleString (initializeData toLocaleString c)
  = initializeData toLocaleString c.
Proof.
  destruct (initializeData_cases c) as [[E _] | [c0 [md [_ [Hm [Hne E]]]]]].
  - now rewrite !E.
  - rewrite E. clear E c.
    rewrite (initializeData_config toLocaleString c0 md Hm Hne).
    match goal with
    | |- initializeData _ ?c' = _ =>
        rewrite (initializeData_config toLocaleString c' md Hm Hne)
    end.
    cbn [chartConfig set_chartConfig chartHeight chartWidth candleWidth xAxisLabels].
    unfold set_chartConfig. cbn [marketData chartContainer candlesticks volumeBars
                                 initialized resizeObserver].
    f_equal. f_equal.
    destruct (Nat.eqb (List.length (xAxisLabels (chartConfig c0)))
                      (List.length (dataPoints md))) eqn:B.
    + now rewrite B.
    + now rewrite length_map, Nat.eqb_refl.
Qed.

(** X9.  The scale is a function of the series alone: whatever the
    components held before (an earlier scale, other labels, a chart width),
    [initializeData] on the same series of at least one point leaves the
    same [minPrice], the same [maxPrice] and the same y-axis labels. *)
Theorem scale_from_series_alone (c1 c2 : Component) (md : MarketData) :
  marketData c1 = Some md ->
  marketData c2 = Some md ->
  dataPoints md <> [] ->
  minPrice (chartConfig (initializeData toLocaleString c1))
  = minPrice (chartConfig (initializeData toLocaleString c2))
  /\ maxPrice (chartConfig (initializeData toLocaleString c1))
     = maxPrice (chartConfig (initializeData toLocaleString c2))
  /\ yAxisLabels (chartConfig (initializeData toLocaleString c1))
     = yAxisLabels (chartConfig (initializeData toLocaleString c2)).
Proof.
  intros H1 H2 Hne.
  rewrite (initializeData_config toLocaleString c1 md H1 Hne),
          (initializeData_config toLocaleString c2 md H2 Hne).
  repeat split.
Qed.

(** X10.  Binding an empty series changes the input field and nothing
    else: the scale, the labels and the published elements stay those of
    the series shown before. *)
Theorem empty_series_keeps_chart (c : Component) (md : MarketData) :
  dataPoints md = [] ->
  setMarketData toLocaleString (Some md) c = set_marketData (Some md) c.
Proof.
  intros He. unfold setMarketData, ngOnChanges.
  rewrite (initializeData_empty toLocaleString (set_marketData (Some md) c) md
             eq_refl He).
  destruct (initialized (set_marketData (Some md) c)); [|reflexivity].
  apply renderChart_skip. right; right. exists md. split; [reflexivity | exact He].
Qed.

(** X11.  A data change on a chart whose view is initialised and has its
    container publishes the new series (the sample for a null input): one
    candlestick per point carrying that point, volume bars aligned, under
    the chart width held before.  Before the view is initialised, or on a
    first change, nothing is published. *)
Theorem data_change_publishes (c : Component) (input : option MarketData)
    (md : MarketData) :
  md = match input with Some m => m | None => sampleMarketData end ->
  dataPoints md <> [] ->
  let r := setMarketData toLocaleString input c in
  marketData r = Some md
  /\ chartWidth (chartConfig r) = chartWidth (chartConfig c)
  /\ (initialized c = true -> chartContainer c = true ->
      map cs_data (candlesticks r) = dataPoints md
      /\ map vb_left (volumeBars r) = map cs_left (candlesticks r))
  /\ (initialized c = false ->
      candlesticks r = candlesticks c /\ volumeBars r = volumeBars c)
  /\ ngOnChanges toLocaleString (Some true) (set_marketData input c)
     = set_marketData input c
  /\ ngOnChanges toLocaleString None (set_marketData input c)
     = set_marketData input c.
Proof.
  intros Emd Hne r.
  set (c1 := set_marketData input c).
  set (c2 := initializeData toLocaleString c1).
  destruct (initializeData_frame c1) as [Fk [Fv [Fc [Fi [Fr [_ [Fw _]]]]]]].
  fold c2 in Fk, Fv, Fc, Fi, Fr, Fw.
  assert (Hm2 : marketData c2 = Some md).
  { unfold c2. destruct input as [m|]; subst md.
    - now rewrite (initializeData_config toLocaleString c1 m eq_refl Hne).
    - rewrite (initializeData_None toLocaleString c1 eq_refl).
      now rewrite (initializeData_config toLocaleString
                     (set_marketData (Some sampleMarketData) c1)
                     sampleMarketData eq_refl Hne). }
  assert (Er : r = if initialized c then renderChart c2 else c2).
  { unfold r, setMarketData, ngOnChanges. fold c1. fold c2. now rewrite Fi. }
  destruct (renderChart_frame c2) as [Rm [Rc _]].
  split; [|split; [|split; [|split; [|split; reflexivity]]]].
  - rewrite Er. destruct (initialized c); [now rewrite Rm | exact Hm2].
  - rewrite Er. destruct (initialized c); [rewrite Rc|]; exact Fw.
  - intros Hi Hc. rewrite Er, Hi.
    assert (Hc2 : chartContainer c2 = true) by (now rewrite Fc).
    rewrite (renderChart_run c2 md Hm2 Hc2 Hne).
    cbn [candlesticks volumeBars set_elements]. rewrite !map_map.
    split; [apply elementsFrom_data | apply elementsFrom_aligned].
  - intros Hi. rewrite Er, Hi. split; assumption.
Qed.

(* ================================================================== *)
(** ** Mounting, hovering, and what always holds *)
(* ================================================================== *)

(** X12.  A component mounted with a series of at least one point (or with
    no data, which stands for the sample) ends initialised, with the
    observer created exactly when the environment has [ResizeObserver], and
    shows that series: one candlestick per point carrying that point,
    volume bars aligned, as many x-axis labels as points, under the initial
    chart width 1040. *)
Theorem mount_publishes_input (input : option MarketData)
    (hasResizeObserver : bool) (md : MarketData) :
  md = match input with Some m => m | None => sampleMarketData end ->
  dataPoints md <> [] ->
  let c := mount toLocaleString input hasResizeObserver in
  marketData c = Some md
  /\ initialized c = true
  /\ chartContainer c = true
  /\ resizeObserver c = hasResizeObserver
  /\ map cs_data (candlesticks c) = dataPoints md
  /\ map vb_left (volumeBars c) = map cs_left (candlesticks c)
  /\ List.length (xAxisLabels (chartConfig c)) = List.length (dataPoints md)
  /\ chartWidth (chartConfig c) = int 1040.
Proof.
  intros Emd Hne c.
  set (c2 := initializeData toLocaleString (newComponent input)).
  destruct (initializeData_frame (newComponent input))
    as [Fk [Fv [Fc [Fi [Fr [_ [Fw _]]]]]]].
  fold c2 in Fk, Fv, Fc, Fi, Fr, Fw.
  assert (Hm2 : marketData c2 = Some md).
  { unfold c2. destruct input as [m|]; subst md.
    - now rewrite (initializeData_config toLocaleString (newComponent (Some m)) m
                     eq_refl Hne).
    - rewrite (initializeData_None toLocaleString (newComponent None) eq_refl).
      now rewrite (initializeData_config toLocaleString
                     (set_marketData (Some sampleMarketData) (newComponent None))
                     sampleMarketData eq_refl Hne). }
  assert (Hx : List.length (xAxisLabels (chartConfig c2))
               = List.length (dataPoints md)).
  { unfold c2 in Hm2 |- *.
    destruct (initializeData_cases (newComponent input))
      as [[E [md0 [Hm0 He]]] | [c0 [md0 [Hc0 [Hm [Hne0 E]]]]]].
    - rewrite E in Hm2. congruence.
    - rewrite E in Hm2 |- *.
      rewrite (initializeData_config toLocaleString c0 md0 Hm Hne0) in Hm2 |- *.
      cbn [marketData set_chartConfig] in Hm2.
      assert (md0 = md) by congruence. subst md0.
      cbn [chartConfig set_chartConfig xAxisLabels].
      destruct (Nat.eqb _ _) eqn:B; [now apply Nat.eqb_eq in B|].
      now rewrite length_map. }
  set (c3 := set_initialized true (set_chartContainer true c2)).
  assert (Hm3 : marketData c3 = Some md) by exact Hm2.
  assert (Er : c = setupResizeObserver hasResizeObserver (renderChart c3))
    by reflexivity.
  rewrite (renderChart_run c3 md Hm3 eq_refl Hne) in Er.
  assert (Ec : c = set_resizeObserver hasResizeObserver
                     (set_elements (map fst (elementsFrom c3 (dataPoints md) 0))
                                   (map snd (elementsFrom c3 (dataPoints md) 0)) c3)).
  { rewrite Er. unfold setupResizeObserver.
    cbn [chartContainer set_elements c3 set_initialized set_chartContainer].
    rewrite andb_true_r. destruct hasResizeObserver; [reflexivity|].
    unfold set_resizeObserver, set_elements.
    cbn [marketData chartContainer chartConfig candlesticks volumeBars
         initialized resizeObserver c3 set_initialized set_chartContainer].
    now rewrite Fr. }
  rewrite Ec.
  cbn [marketData initialized chartContainer resizeObserver candlesticks
       volumeBars chartConfig set_resizeObserver set_elements c3
       set_initialized set_chartContainer].
  rewrite !map_map, elementsFrom_data.
  repeat split; try assumption.
  all: first [apply elementsFrom_aligned | exact Fw].
Qed.

(** X13.  Hovering the candlestick of index [i] of a rendered chart shows
    the tooltip of the point of index [i] of the series: its content is
    built from that point, it is displayed 10 pixels right of and 10 pixels
    above the pointer, and leaving the candlestick hides it without
    changing its content or its place.  Without a tooltip element both
    listeners do nothing. *)
Theorem hover_shows_point (c : Component) (md : MarketData) (i : nat)
    (e : MouseEvent) (t : Tooltip) :
  marketData c = Some md ->
  chartContainer c = true ->
  (i < List.length (dataPoints md))%nat ->
  exists k d,
    nth_error (candlesticks (renderChart c)) i = Some k
    /\ nth_error (dataPoints md) i = Some d
    /\ mouseenter toLocaleString k e (Some t)
       = Some {| innerHTML := tooltipContent toLocaleString d;
                 tt_display := "block";
                 tt_left := pageX e + int 10;
                 tt_top := pageY e - int 10 |}
    /\ mouseleave k (mouseenter toLocaleString k e (Some t))
       = Some {| innerHTML := tooltipContent toLocaleString d;
                 tt_display := "none";
                 tt_left := pageX e + int 10;
                 tt_top := pageY e - int 10 |}
    /\ mouseenter toLocaleString k e None = None
    /\ mouseleave k None = None.
Proof.
  intros Hm Hc Hi.
  assert (Hne : dataPoints md <> []).
  { intros E. rewrite E in Hi. inversion Hi. }
  assert (Ed : map cs_data (candlesticks (renderChart c)) = dataPoints md).
  { rewrite (renderChart_run c md Hm Hc Hne). cbn [candlesticks set_elements].
    rewrite map_map. apply elementsFrom_data. }
  destruct (nth_error (dataPoints md) i) as [d|] eqn:Nd.
  2: { apply nth_error_None in Nd. lia. }
  rewrite <- Ed, nth_error_map in Nd.
  destruct (nth_error (candlesticks (renderChart c)) i) as [k|] eqn:Nk;
    [|discriminate].
  injection Nd as Ekd.
  exists k, d. unfold mouseenter, mouseleave, showTooltip, hideTooltip.
  rewrite Ekd. repeat split.
Qed.

Lemma invariant_renderChart (c : Component) :
  invariant c -> invariant (renderChart c).
Proof.
  intros [A [H360 [H20 [H7 [Ic [Io Ik]]]]]].
  destruct (renderChart_frame c) as [Fm [Fcfg [Fc [Fi Fo]]]].
  unfold invariant. rewrite Fcfg, Fc, Fi, Fo.
  split; [now apply renderChart_aligned|].
  repeat (split; [assumption|]).
  destruct (renderChart_decide c) as [[md [Hm [Hc Hne]]] | Hskip].
  - intros _. now apply Ic.
  - now rewrite (renderChart_skip c Hskip).
Qed.

Lemma invariant_initializeData (c : Component) :
  invariant c -> invariant (initializeData toLocaleString c).
Proof.
  intros [A [H360 [H20 [H7 [Ic [Io Ik]]]]]].
  destruct (initializeData_frame c) as [Fk [Fv [Fc [Fi [Fo [Fh [_ Fw]]]]]]].
  unfold invariant, aligned. rewrite Fk, Fv, Fc, Fi, Fo, Fh, Fw.
  repeat (split; [assumption|]). split; [|now repeat split].
  destruct (initializeData_cases c) as [[E _] | [c0 [md [Hc0 [Hm [Hne E]]]]]].
  - now rewrite E.
  - rewrite E, (initializeData_config toLocaleString c0 md Hm Hne).
    cbn [chartConfig set_chartConfig yAxisLabels]. now rewrite length_map.
Qed.

Lemma invariant_set_marketData (md : option MarketData) (c : Component) :
  invariant c -> invariant (set_marketData md c).
Proof. intros H. exact H. Qed.

Lemma invariant_resizeTo (w : num) (c : Component) :
  invariant c -> invariant (resizeTo w c).
Proof. intros H. apply invariant_renderChart. exact H. Qed.

Lemma invariant_resizeObserverCallback (entries : list num) (c : Component) :
  invariant c -> invariant (resizeObserverCallback entries c).
Proof.
  intros H.
  pose proof (fold_resize entries None c) as E.
  change (resizeObserverCallback entries c
          = match lastPositive entries with
            | Some w => resizeTo w c
            | None => c
            end) in E.
  rewrite E. destruct (lastPositive entries); [now apply invariant_resizeTo | exact H].
Qed.

(** Every event keeps the invariant. *)
Lemma invariant_handle (c : Component) (e : Event) :
  invariant c -> invariant (handle toLocaleString c e).
Proof.
  intros H. destruct e as [md fc | | hc ro | px | entries | ]; cbn [handle].
  - unfold ngOnChanges. destruct fc; [exact H|].
    pose proof (invariant_initializeData (set_marketData md c) H) as H1.
    destruct (initialized _); [now apply invariant_renderChart | exact H1].
  - now apply invariant_initializeData.
  - unfold ngAfterViewInit, setupResizeObserver.
    assert (H1 : invariant (renderChart
                              (set_initialized true (set_chartContainer hc c)))).
    { apply invariant_renderChart.
      destruct H as [A [H360 [H20 [H7 _]]]].
      repeat (split; [assumption|]). repeat split. }
    destruct (renderChart_frame (set_initialized true (set_chartContainer hc c)))
      as [_ [_ [_ [Fi _]]]].
    destruct (ro && _); [|exact H1].
    destruct H1 as [A [H360 [H20 [H7 _]]]].
    repeat (split; [assumption|]).
    repeat split; intros _; exact Fi.
  - unfold onResize. destruct (negb _ && _); [|exact H].
    destruct (px >? int 0); [|exact H].
    apply (invariant_resizeTo px c H).
  - destruct (resizeObserver c); [|exact H].
    now apply invariant_resizeObserverCallback.
  - destruct H as [_ [H360 [H20 [H7 [Ic [Io _]]]]]].
    unfold ngOnDestroy, clearChart.
    split; [reflexivity|]. repeat (split; [assumption|]).
    intros N. now contradiction N.
Qed.

(** X14.  Whatever the host does to a component and in whatever order
    (binding inputs, initialising, resizing, delivering observer entries,
    destroying), the volume bars stay aligned with the candlesticks, the
    chart height stays 360 and the candle width 20, there are 7 y-axis
    labels, and nothing is published, no container is held and no observer
    exists before the view has been initialised. *)
Theorem invariant_always (input : option MarketData) (events : list Event) :
  invariant (run toLocaleString (newComponent input) events).
Proof.
  assert (H0 : invariant (newComponent input)).
  { repeat split; try discriminate. intros N. now contradiction N. }
  revert H0. unfold run. generalize (newComponent input) as c.
  induction events as [|e es IH]; intros c H; [exact H|].
  cbn [fold_left]. apply IH. now apply invariant_handle.
Qed.

End Life.

(** The least positive number of the format. *)
Lemma round64_least : exists e : Q, round64 (p2 (-1074)) = Fin e /\ (0 < e)%Q.
Proof.
  exists (Qred (inject_Z 1 * p2 (-1074))). split.
  - rewrite <- (round64_dyadic 1 (-1074)).
    + apply round64_proper. ring.
    + reflexivity.
    + lia.
    + change (inject_Z (Z.abs 1)) with 1%Q. rewrite Qmult_1_l. now apply p2_lt.
  - rewrite Qred_correct, Qmult_1_l. apply p2_pos.
Qed.

(** A number of the format above a whole number is above it by a number of
    the format: their difference does not round to zero. *)
Lemma double_above (q : Q) (z : Z) :
  double q -> (inject_Z z < q)%Q -> (round64 (q - inject_Z z) <=? int 0) = false.
Proof.
  intros D Hq. destruct (double_grid q D) as [k Hk].
  destruct round64_least as [e [Ee He]].
  assert (Ez : (inject_Z z == inject_Z (z * 2 ^ 1074) * p2 (-1074))%Q).
  { rewrite inject_Z_mult, <- (p2_Z 1074) by lia.
    rewrite <- Qmult_assoc, <- p2_add. change (p2 (1074 + -1074)) with 1%Q. ring. }
  assert (Ed : (q - inject_Z z == inject_Z (k - z * 2 ^ 1074) * p2 (-1074))%Q).
  { rewrite inject_Z_sub. rewrite Hk at 1. rewrite Ez at 1. ring. }
  assert (Hpos : (0 < k - z * 2 ^ 1074)%Z).
  { assert (L : (0 < inject_Z (k - z * 2 ^ 1074) * p2 (-1074))%Q)
      by (rewrite <- Ed; lra).
    pose proof (p2_pos (-1074)) as P.
    destruct (Z.lt_ge_cases 0 (k - z * 2 ^ 1074)) as [G | G]; [exact G|].
    exfalso.
    assert (N : (inject_Z (k - z * 2 ^ 1074) <= 0)%Q)
      by (change 0%Q with (inject_Z 0); now rewrite <- Zle_Qle).
    assert (N' : (inject_Z (k - z * 2 ^ 1074) * p2 (-1074) <= 0 * p2 (-1074))%Q)
      by (apply Qmult_le_compat_r; [exact N | now apply Qlt_le_weak]).
    lra. }
  assert (Hge : (p2 (-1074) <= q - inject_Z z)%Q).
  { rewrite Ed. rewrite <- (Qmult_1_l (p2 (-1074))) at 1.
    apply Qmult_le_compat_r; [|apply Qlt_le_weak, p2_pos].
    change 1%Q with (inject_Z 1). rewrite <- Zle_Qle. lia. }
  pose proof (round64_mono _ _ Hge) as M. rewrite Ee in M.
  destruct (round64 (q - inject_Z z)) as [y| | |]; try discriminate M;
    [|reflexivity].
  apply leb_Fin in M.
  destruct (Fin y <=? int 0) eqn:L; [|reflexivity].
  apply leb_Fin in L. change (inject_Z 0) with 0%Q in L. lra.
Qed.

(** X15.  The window resize handler tests the width of the container, not
    the chart width it derives: for a container width [q > 0] (no observer,
    a container) the chart width becomes [q - 80], which is zero or
    negative for every [q <= 80] and for no other number; the rest of the
    configuration and the data are left as they were, and the chart is
    rendered again.  For a whole width the difference is exact. *)
Theorem window_resize_sets_width (c : Component) (q : Q) :
  resizeObserver c = false ->
  chartContainer c = true ->
  (0 < q)%Q ->
  let r := onResize (Fin q) c in
  r = renderChart (set_chartConfig
                     (set_chartWidth (Fin q - int 80) (chartConfig c)) c)
  /\ chartConfig r = set_chartWidth (Fin q - int 80) (chartConfig c)
  /\ chartWidth (chartConfig r) = round64 (q - inject_Z 80)
  /\ (forall z : Z, q = inject_Z z -> (z <= 2 ^ 53)%Z ->
        chartWidth (chartConfig r) = int (z - 80))
  /\ ((q <= 80)%Q -> (chartWidth (chartConfig r) <=? int 0) = true)
  /\ (double q ->
      ((chartWidth (chartConfig r) <=? int 0) = true <-> (q <= 80)%Q))
  /\ marketData r = marketData c.
Proof.
  intros Ho Hc Hq r.
  assert (Er : r = renderChart (set_chartConfig
                                  (set_chartWidth (Fin q - int 80) (chartConfig c)) c)).
  { unfold r, onResize. rewrite Ho, Hc. cbn [negb andb].
    unfold gtb, int. now rewrite (proj2 (ltb_Fin (inject_Z 0) q) Hq). }
  destruct (renderChart_frame
              (set_chartConfig (set_chartWidth (Fin q - int 80) (chartConfig c)) c))
    as [Fm [Fcfg _]].
  rewrite <- Er in Fm, Fcfg.
  assert (Ew : chartWidth (chartConfig r) = round64 (q - inject_Z 80))
    by (now rewrite Fcfg).
  assert (Hle : (q <= 80)%Q -> (chartWidth (chartConfig r) <=? int 0) = true).
  { intros H. rewrite Ew. change (int 0) with (round64 0).
    apply round64_mono. change (inject_Z 80) with 80%Q. lra. }
  split; [exact Er|]. split; [exact Fcfg|]. split; [exact Ew|].
  split; [|split; [exact Hle|split; [|exact Fm]]].
  - intros z Ez Bz. rewrite Ew, Ez.
    rewrite (round64_proper _ (inject_Z (z - 80))) by (now rewrite inject_Z_sub).
    apply round64_int.
    assert (0 < z)%Z by (rewrite Zlt_Qlt; now rewrite <- Ez). lia.
  - intros D. split; [|exact Hle].
    intros H. destruct (Qlt_le_dec 80 q) as [G | G]; [|exact G].
    exfalso. rewrite Ew in H.
    rewrite (double_above q 80 D G) in H. discriminate H.
Qed.

(* ================================================================== *)
(** ** Concrete inputs for the properties above *)
(* ================================================================== *)

Lemma render_publishes_series_witness :
  marketData (set_chartContainer true (newComponent (Some weekSeries)))
  = Some weekSeries
  /\ chartContainer (set_chartContainer true (newComponent (Some weekSeries))) = true
  /\ dataPoints weekSeries <> []
  /\ List.length
       (candlesticks
          (renderChart (set_chartContainer true (newComponent (Some weekSeries)))))
     = List.length (dataPoints weekSeries).
Proof.
  split; [reflexivity|]. split; [reflexivity|]. split; [discriminate|].
  exact (proj1 (render_publishes_series
                  (set_chartContainer true (newComponent (Some weekSeries)))
                  weekSeries eq_refl eq_refl ltac:(discriminate))).
Defined.

Lemma candles_side_by_side_witness :
  spacing (mount plainString None true)
  = Fin (5227392424626469 # 35184372088832)
  /\ candleWidth (chartConfig (mount plainString None true)) = Fin 20
  /\ (0 <= 20)%Q
  /\ (20 <= 5227392424626469 # 35184372088832)%Q
  /\ (int 20 <=? cs_left (fst (createCandlestick (mount plainString None true)
                                 (mkPoint "6h ago" 1180 1220 1150 1200 45) 0)))
     = true.
Proof.
  split; [vm_compute; reflexivity|]. split; [vm_compute; reflexivity|].
  split; [discriminate|]. split; [discriminate|].
  exact (proj1 (proj2 (candles_side_by_side (mount plainString None true)
                  (5227392424626469 # 35184372088832) 20
                  (mkPoint "6h ago" 1180 1220 1150 1200 45)
                  (mkPoint "5h ago" 1200 1250 1180 1230 67) 0
                  ltac:(vm_compute; reflexivity) ltac:(vm_compute; reflexivity)
                  ltac:(discriminate) ltac:(discriminate)))).
Defined.

Lemma body_between_open_and_close_witness :
  chartHeight (chartConfig (mount plainString None true)) = Fin 360
  /\ minPrice (chartConfig (mount plainString None true)) = Fin 800
  /\ maxPrice (chartConfig (mount plainString None true)) = Fin 1500
  /\ (0 <= 360)%Q
  /\ (800 < 1500)%Q
  /\ body_top (fst (createCandlestick (mount plainString None true)
                      (mkPoint "3h ago" 1210 1240 950 980 156) 3))
     = toY (chartHeight (chartConfig (mount plainString None true)))
           (minPrice (chartConfig (mount plainString None true)))
           (maxPrice (chartConfig (mount plainString None true))
            - minPrice (chartConfig (mount plainString None true)))
           (max2 (int 1210) (int 980)).
Proof.
  split; [vm_compute; reflexivity|]. split; [vm_compute; reflexivity|].
  split; [vm_compute; reflexivity|]. split; [discriminate|].
  split; [reflexivity|].
  apply (proj1 (body_between_open_and_close (mount plainString None true)
                  (mkPoint "3h ago" 1210 1240 950 980 156) 3 360 800 1500
                  ltac:(vm_compute; reflexivity) ltac:(vm_compute; reflexivity)
                  ltac:(vm_compute; reflexivity) ltac:(discriminate) eq_refl));
    vm_compute; reflexivity.
Defined.

Lemma volume_bar_height_witness :
  volume (mkPoint "6h ago" 1180 1220 1150 1200 45) = Fin 45
  /\ volume (mkPoint "2h ago" 980 1100 891 1050 234) = Fin 234
  /\ vb_height (snd (createCandlestick (newComponent None)
                       (mkPoint "6h ago" 1180 1220 1150 1200 45) 0))
     = Fin 45 / int 250 * int 60
  /\ Fin 45 / int 250 * int 60 = Fin (6079859496950169 # 562949953421312).
Proof.
  split; [reflexivity|]. split; [reflexivity|]. split.
  - exact (proj1 (volume_bar_height (newComponent None) (mount plainString None true)
                    (mkPoint "6h ago" 1180 1220 1150 1200 45)
                    (mkPoint "2h ago" 980 1100 891 1050 234) 0 4 45 234
                    eq_refl eq_refl)).
  - vm_compute. reflexivity.
Defined.

Lemma label_counts_witness :
  marketData (initializeData plainString (newComponent (Some flatSeries)))
  = Some flatSeries
  /\ dataPoints flatSeries <> []
  /\ List.length
       (xAxisLabels
          (chartConfig (initializeData plainString (newComponent (Some flatSeries)))))
     = List.length (dataPoints flatSeries).
Proof.
  split; [reflexivity|]. split; [discriminate|].
  exact (proj1 (proj2 (label_counts plainString (newComponent (Some flatSeries))
                         flatSeries eq_refl ltac:(discriminate)))).
Defined.

Lemma scale_from_series_alone_witness :
  marketData (newComponent (Some weekSeries)) = Some weekSeries
  /\ marketData (set_marketData (Some weekSeries) (mount plainString (Some flatSeries) true))
     = Some weekSeries
  /\ dataPoints weekSeries <> []
  /\ minPrice (chartConfig (initializeData plainString (newComponent (Some weekSeries))))
     = minPrice
         (chartConfig
            (initializeData plainString
               (set_marketData (Some weekSeries)
                  (mount plainString (Some flatSeries) true)))).
Proof.
  split; [reflexivity|]. split; [reflexivity|]. split; [discriminate|].
  exact (proj1 (scale_from_series_alone plainString
                  (newComponent (Some weekSeries))
                  (set_marketData (Some weekSeries)
                     (mount plainString (Some flatSeries) true))
                  weekSeries eq_refl eq_refl ltac:(discriminate))).
Defined.

Lemma empty_series_keeps_chart_witness :
  dataPoints emptySeries = []
  /\ setMarketData plainString (Some emptySeries) (mount plainString None true)
     = set_marketData (Some emptySeries) (mount plainString None true).
Proof.
  split; [reflexivity|].
  exact (empty_series_keeps_chart plainString (mount plainString None true)
           emptySeries eq_refl).
Defined.

Lemma data_change_publishes_witness :
  weekSeries = match Some weekSeries with
               | Some m => m
               | None => sampleMarketData
               end
  /\ dataPoints weekSeries <> []
  /\ marketData (setMarketData plainString (Some weekSeries)
                   (mount plainString None true))
     = Some weekSeries.
Proof.
  split; [reflexivity|]. split; [discriminate|].
  exact (proj1 (data_change_publishes plainString (mount plainString None true)
                  (Some weekSeries) weekSeries eq_refl ltac:(discriminate))).
Defined.

Lemma mount_publishes_input_witness :
  sampleMarketData = match @None MarketData with
                     | Some m => m
                     | None => sampleMarketData
                     end
  /\ dataPoints sampleMarketData <> []
  /\ map cs_data (candlesticks (mount plainString None true))
     = dataPoints sampleMarketData.
Proof.
  split; [reflexivity|]. split; [discriminate|].
  exact (proj1 (proj2 (proj2 (proj2 (proj2
           (mount_publishes_input plainString None true sampleMarketData
              eq_refl ltac:(discriminate))))))).
Defined.

Lemma hover_shows_point_witness :
  marketData (mount plainString None true) = Some sampleMarketData
  /\ chartContainer (mount plainString None true) = true
  /\ (2 < List.length (dataPoints sampleMarketData))%nat
  /\ exists k d,
       nth_error (candlesticks (renderChart (mount plainString None true))) 2 = Some k
       /\ nth_error (dataPoints sampleMarketData) 2 = Some d.
Proof.
  split; [reflexivity|]. split; [reflexivity|]. split; [simpl; lia|].
  destruct (hover_shows_point plainString (mount plainString None true)
              sampleMarketData 2
              {| pageX := int 100; pageY := int 50 |}
              {| innerHTML := ""; tt_display := "none";
                 tt_left := int 0; tt_top := int 0 |}
              eq_refl eq_refl ltac:(simpl; lia))
    as [k [d [Hk [Hd _]]]].
  exists k, d. split; assumption.
Defined.

Lemma window_resize_sets_width_witness :
  resizeObserver (mount plainString None false) = false
  /\ chartContainer (mount plainString None false) = true
  /\ (0 < 60)%Q
  /\ (chartWidth (chartConfig (onResize (Fin 60) (mount plainString None false)))
      <=? int 0) = true.
Proof.
  split; [reflexivity|]. split; [reflexivity|]. split; [reflexivity|].
  apply (proj1 (proj2 (proj2 (proj2 (proj2
           (window_resize_sets_width (mount plainString None false) 60
              eq_refl eq_refl eq_refl)))))).
  discriminate.
Defined.
